(** * sse.js: the chunk assembler, the event chunk parser, the dispatcher
      and the connection state machine of [src/sse.ts]

    A shallow embedding of class [SSE] and the properties of its
    specification.

    Conventions of the model.
    - A JavaScript string is the list of its UTF-16 code units, a code
      unit is an [N].  [str] turns a literal into such a list.
    - A method is a function in a monad of state and exceptions: it reads
      and changes the fields of the instance, appends to the log, and
      either returns or raises.
    - [this.listeners] is a plain object literal used as a map from event
      types to arrays of callbacks.  Its own properties are a [gmap]; the
      properties every plain object inherits from [Object.prototype] are
      kept apart in [Object_prototype_names], because a property read
      [this.listeners[type]] sees them too.
    - Callbacks (listeners and [on...] handlers) are function references.
      What a callback does is a parameter of the model: it may change the
      state of the host program ([World]) and may call
      [event.preventDefault()].  Callbacks that re-enter the [SSE]
      instance or raise an exception are outside the model.
    - The transport ([XMLHttpRequest]) is an external collaborator.  Its
      observable fields at the time of a notification come with the
      notification; the commands the instance sends to it are recorded in
      the log.  The host delivers the notifications one at a time, each
      after the listener of the one before has ended.
    - The [debug] flag only writes to the console; it is left out. *)

From Stdlib Require Import ZArith NArith List Bool Lia String Ascii.
From stdpp Require Import base tactics option list gmap.
Import ListNotations.

Set Default Proof Using "Type".
Local Open Scope N_scope.

(** ** JavaScript strings *)

Module JSString.

(** A code unit of a JavaScript string. *)
Definition char : Type := N.

Abbreviation jsstring := (list N).

Fixpoint str (s : string) : jsstring :=
  match s with
  | EmptyString => []
  | String a s' => N_of_ascii a :: str s'
  end.
Arguments str : simpl never.

Definition LF : char := 10.
Definition CR : char := 13.
Definition SPACE : char := 32.
Definition COLON : char := 58.

(** [WhiteSpace] and [LineTerminator] of ECMAScript: the code units that
    [String.prototype.trim] strips. *)
Definition is_white_space (c : char) : bool :=
  (9 <=? c) && (c <=? 13)
  || (c =? 32) || (c =? 160) || (c =? 5760)
  || (8192 <=? c) && (c <=? 8202)
  || (c =? 8232) || (c =? 8233) || (c =? 8239) || (c =? 8287)
  || (c =? 12288) || (c =? 65279).

Fixpoint trimStart (s : jsstring) : jsstring :=
  match s with
  | [] => []
  | c :: s' => if is_white_space c then trimStart s' else s
  end.

Definition trimEnd (s : jsstring) : jsstring := rev (trimStart (rev s)).

Definition trim (s : jsstring) : jsstring := trimEnd (trimStart s).

(** [p] is a prefix of [s]: the literal pattern [p] matches at the start
    of [s]. *)
Fixpoint starts_with (p s : jsstring) : bool :=
  match p, s with
  | [], _ => true
  | _ :: _, [] => false
  | a :: p', b :: s' => (a =? b) && starts_with p' s'
  end.

(** A regular expression that is an alternation of literals, tried in
    the order written, the first that matches wins. *)
Definition regex_match (alts : list jsstring) (s : jsstring) : option jsstring :=
  List.find (fun p => starts_with p s) alts.

(** The first segment of a split grows by one code unit. *)
Definition push_front (c : char) (parts : list jsstring) : list jsstring :=
  match parts with
  | [] => [[c]]
  | seg :: rest => (c :: seg) :: rest
  end.

(** [String.prototype.split] with a regular expression separator: scan
    from the left; where the pattern matches, close the current segment,
    emit the capture when the pattern has a capturing group, and go on
    after the match; elsewhere move one code unit on.  The patterns of
    this program never match the empty string; a match of length zero
    counts as no match.  [fuel] bounds the recursion, [split] gives
    enough of it. *)
Fixpoint split_loop (alts : list jsstring) (capture : bool)
    (fuel : nat) (s : jsstring) : list jsstring :=
  match fuel with
  | O => [s]
  | S fuel' =>
      match s with
      | [] => [[]]
      | c :: s' =>
          match regex_match alts s with
          | Some ((_ :: _) as d) =>
              [] :: (if capture then [d] else [])
                 ++ split_loop alts capture fuel' (drop (length d) s)
          | _ => push_front c (split_loop alts capture fuel' s')
          end
      end
  end.

Definition split (alts : list jsstring) (capture : bool) (s : jsstring)
    : list jsstring :=
  split_loop alts capture (length s) s.

(** [String.prototype.indexOf] for a one-unit needle. *)
Fixpoint indexOf (c : char) (s : jsstring) : option nat :=
  match s with
  | [] => None
  | x :: s' => if x =? c then Some O else S <$> indexOf c s'
  end.

(** [s.substring(i)] and [s.substring(0, i)]. *)
Definition substring_from (i : nat) (s : jsstring) : jsstring := drop i s.
Definition substring_to (i : nat) (s : jsstring) : jsstring := take i s.

End JSString.
Import JSString.

(** ** Events *)

(** The values the fields [data] and [id] of an event take. *)
Inductive JSValue : Type :=
  | undefined
  | null
  | JStr (s : jsstring).

(** An event object.  [ev_cancelable] and [ev_defaultPrevented] are those
    of the DOM [Event] interface: [preventDefault()] sets
    [defaultPrevented] on a cancelable event only.  [ev_source] tells
    whether [event.source] has been set to the instance. *)
Record SSEvent : Type := mkEvent {
  ev_type : jsstring;
  ev_cancelable : bool;
  ev_defaultPrevented : bool;
  ev_source : bool;
  ev_data : JSValue;
  ev_id : JSValue;
  ev_readyState : option Z
}.

(** [new CustomEvent(type)]: neither cancelable nor cancelled, no field
    of the program set on it yet. *)
Definition CustomEvent (type : jsstring) : SSEvent :=
  mkEvent type false false false undefined undefined None.

Definition set_data (v : JSValue) (ev : SSEvent) : SSEvent :=
  mkEvent (ev_type ev) (ev_cancelable ev) (ev_defaultPrevented ev)
          (ev_source ev) v (ev_id ev) (ev_readyState ev).

Definition set_id (v : JSValue) (ev : SSEvent) : SSEvent :=
  mkEvent (ev_type ev) (ev_cancelable ev) (ev_defaultPrevented ev)
          (ev_source ev) (ev_data ev) v (ev_readyState ev).

Definition set_event_readyState (st : Z) (ev : SSEvent) : SSEvent :=
  mkEvent (ev_type ev) (ev_cancelable ev) (ev_defaultPrevented ev)
          (ev_source ev) (ev_data ev) (ev_id ev) (Some st).

Definition set_source (ev : SSEvent) : SSEvent :=
  mkEvent (ev_type ev) (ev_cancelable ev) (ev_defaultPrevented ev)
          true (ev_data ev) (ev_id ev) (ev_readyState ev).

(** [event.preventDefault()]. *)
Definition preventDefault (ev : SSEvent) : SSEvent :=
  mkEvent (ev_type ev) (ev_cancelable ev)
          (ev_defaultPrevented ev || ev_cancelable ev)
          (ev_source ev) (ev_data ev) (ev_id ev) (ev_readyState ev).

(** The names of the properties of [Object.prototype], which every
    object literal inherits (ECMAScript, with its annex B). *)
Definition Object_prototype_names : list jsstring :=
  [ str "constructor"; str "hasOwnProperty"; str "isPrototypeOf";
    str "propertyIsEnumerable"; str "toLocaleString"; str "toString";
    str "valueOf"; str "__proto__"; str "__defineGetter__";
    str "__defineSetter__"; str "__lookupGetter__"; str "__lookupSetter__" ].

Definition inherited (name : jsstring) : bool :=
  bool_decide (name ∈ Object_prototype_names).

(** ** The event chunk parser: [_parseEventChunk] *)

Module Parser.

(** The object [eventFields]; [None] is [null]. *)
Record EventFields : Type := mkFields {
  id : option jsstring;
  retry : option jsstring;
  data : option jsstring;
  event : option jsstring
}.

Definition eventFields0 : EventFields := mkFields None None None None.

(** [FIELD_SEPARATOR], never assigned by the class. *)
Definition FIELD_SEPARATOR : char := COLON.

(** The pattern [/\n|\r\n|\r/] that separates the lines of a chunk. *)
Definition line_separator : list jsstring := [ [LF]; [CR; LF]; [CR] ].

(** The first part of the callback of [forEach]: the field name and the
    value of a line, [None] for a comment. *)
Definition field_value (line : jsstring) : option (jsstring * jsstring) :=
  match indexOf FIELD_SEPARATOR line with
  | Some ((S _) as index) =>
      let skip :=
        match line !! (index + 1)%nat with
        | Some c => if c =? SPACE then 2%nat else 1%nat
        | None => 1%nat
        end in
      Some (substring_to index line, substring_from (index + skip) line)
  | None => Some (line, [])
  | Some O => None
  end.

(** [field in eventFields]: an own property, or one inherited from
    [Object.prototype]. *)
Definition in_eventFields (field : jsstring) : bool :=
  bool_decide (field ∈ [str "id"; str "retry"; str "data"; str "event"])
  || inherited field.

(** [eventFields[field] = value], as far as the four fields that are read
    afterwards go: under an inherited name the assignment makes (or, for
    [__proto__], leaves out) a property that nothing reads. *)
Definition assign (field value : jsstring) (ef : EventFields) : EventFields :=
  if bool_decide (field = str "id") then
    mkFields (Some value) (retry ef) (data ef) (event ef)
  else if bool_decide (field = str "retry") then
    mkFields (id ef) (Some value) (data ef) (event ef)
  else if bool_decide (field = str "data") then
    mkFields (id ef) (retry ef) (Some value) (event ef)
  else if bool_decide (field = str "event") then
    mkFields (id ef) (retry ef) (data ef) (Some value)
  else ef.

(** The rest of the callback of [forEach]. *)
Definition store (field value : jsstring) (ef : EventFields) : EventFields :=
  if negb (in_eventFields field) then ef
  else
    match bool_decide (field = str "data"), data ef with
    | true, Some d =>
        mkFields (id ef) (retry ef) (Some (d ++ [LF] ++ value)) (event ef)
    | _, _ => assign field value ef
    end.

Definition parse_line (ef : EventFields) (line : jsstring) : EventFields :=
  match field_value line with
  | Some (field, value) => store field value ef
  | None => ef
  end.

Definition parse_lines (lines : list jsstring) : EventFields :=
  fold_left parse_line lines eventFields0.

(** The event built from the fields once every line is read. *)
Definition build_event (ef : EventFields) : SSEvent :=
  let type :=
    match event ef with
    | Some ((_ :: _) as e) => e
    | _ => str "message"
    end in
  set_id (match id ef with Some i => JStr i | None => null end)
    (set_data (JStr (default [] (data ef))) (CustomEvent type)).

(** [_parseEventChunk]; [None] is [null]. *)
Definition _parseEventChunk (chunk : jsstring) : option SSEvent :=
  match chunk with
  | [] => None
  | _ :: _ =>
      Some (build_event (parse_lines (split line_separator false chunk)))
  end.

End Parser.

(** ** Callbacks, the transport and the log *)

(** A function reference: [noop], or a function of the host program.
    Listeners are compared by reference. *)
Inductive Callback : Type :=
  | noop
  | Fn (ref : nat).

#[global] Instance Callback_eq_dec : EqDecision Callback.
Proof. solve_decision. Defined.

(** What the instance asks of its [XMLHttpRequest]. *)
Inductive Command : Type :=
  | XhrOpen (method url : jsstring)
  | XhrSetRequestHeader (name value : jsstring)
  | XhrWithCredentials (flag : bool)
  | XhrSend (payload : jsstring)
  | XhrAbort.

(** The log of a run, oldest entry first.  [Dispatched rs ev]:
    [dispatchEvent] was entered with the event [ev] while
    [this.readyState] was [rs].  [Invoked cb ev]: the callback [cb] was
    called with the event and has returned, [ev] is the event as the
    callback left it. *)
Inductive Entry : Type :=
  | Dispatched (rs : Z) (ev : SSEvent)
  | Invoked (cb : Callback) (ev : SSEvent)
  | Transport (c : Command).

Inductive JSError : Type :=
  | TypeError.

(** How a method ends: it returns, or it raises. *)
Inductive Outcome (A : Type) : Type :=
  | Normal (a : A)
  | Throw (e : JSError).
Arguments Normal {A} a.
Arguments Throw {A} e.

(** The fields of the [XMLHttpRequest] the instance reads, as they are
    when a notification is delivered.  The response type is the default
    one, so [response] is the response text. *)
Record XMLHttpRequest : Type := mkXhr {
  status : Z;
  responseText : jsstring;
  xhr_readyState : Z
}.

Definition response (x : XMLHttpRequest) : jsstring := responseText x.

(** [XMLHttpRequest.DONE]. *)
Definition DONE : Z := 4.

(** ** The instance *)

Definition INITIALIZING : Z := -1.
Definition CONNECTING : Z := 0.
Definition OPEN : Z := 1.
Definition CLOSED : Z := 2.

(** [SSEOptions]; the payload is a string here. *)
Record SSEOptions : Type := mkOptions {
  opt_headers : option (list (jsstring * jsstring));
  opt_payload : option jsstring;
  opt_method : option jsstring;
  opt_withCredentials : option bool;
  opt_start : option bool
}.

(** The fields of an [SSE] object.  [xhr] tells whether [this.xhr] holds a
    request ([false] is [null]).  [listeners] has the own properties of
    [this.listeners]; [handlers] has, under the key [type], the own
    property ["on" + type] of the instance. *)
Record SSE : Type := mkSSE {
  url : jsstring;
  headers : list (jsstring * jsstring);
  payload : jsstring;
  method : jsstring;
  withCredentials : bool;
  readyState : Z;
  progress : nat;
  chunk : jsstring;
  xhr : bool;
  listeners : gmap jsstring (list Callback);
  handlers : gmap jsstring Callback
}.

Definition set_readyState (v : Z) (o : SSE) : SSE :=
  mkSSE (url o) (headers o) (payload o) (method o) (withCredentials o)
        v (progress o) (chunk o) (xhr o) (listeners o) (handlers o).

Definition set_progress (v : nat) (o : SSE) : SSE :=
  mkSSE (url o) (headers o) (payload o) (method o) (withCredentials o)
        (readyState o) v (chunk o) (xhr o) (listeners o) (handlers o).

Definition set_chunk (v : jsstring) (o : SSE) : SSE :=
  mkSSE (url o) (headers o) (payload o) (method o) (withCredentials o)
        (readyState o) (progress o) v (xhr o) (listeners o) (handlers o).

Definition set_xhr (v : bool) (o : SSE) : SSE :=
  mkSSE (url o) (headers o) (payload o) (method o) (withCredentials o)
        (readyState o) (progress o) (chunk o) v (listeners o) (handlers o).

Definition set_listeners (v : gmap jsstring (list Callback)) (o : SSE) : SSE :=
  mkSSE (url o) (headers o) (payload o) (method o) (withCredentials o)
        (readyState o) (progress o) (chunk o) (xhr o) v (handlers o).

(** The six handler properties of a new instance, all [noop]. *)
Definition handlers0 : gmap jsstring Callback :=
  list_to_map
    [ (str "message", noop); (str "open", noop); (str "load", noop);
      (str "readystatechange", noop); (str "error", noop);
      (str "abort", noop) ].

(** What a property read [this.listeners[type]] yields. *)
Inductive Property : Type :=
  | Own (l : list Callback)
  | Inherited
  | Undefined.

Definition get_property (ls : gmap jsstring (list Callback)) (type : jsstring)
    : Property :=
  match ls !! type with
  | Some l => Own l
  | None => if inherited type then Inherited else Undefined
  end.

(** The pattern [/(\r\n\r\n|\r\r|\n\n)/g] that separates the records
    of the stream; it has a capturing group. *)
Definition record_separator : list jsstring :=
  [ [CR; LF; CR; LF]; [CR; CR]; [LF; LF] ].

(** [parts.pop()]: the array without its last element, and that element.
    [split] never returns an empty array, so the element is there. *)
Definition pop (parts : list jsstring) : list jsstring * jsstring :=
  (removelast parts, List.last parts []).

(** ** The methods of the class *)

Section Model.

(** The state of the host program, and what its functions do when they
    are called with an event: the new state of the host, and whether the
    function called [event.preventDefault()]. *)
Context {World : Type}.
Variable behave : nat -> SSEvent -> World -> World * bool.

(** The whole system: the instance, the host and the log. *)
Record Sys : Type := mkSys {
  obj : SSE;
  world : World;
  log : list Entry
}.

Definition M (A : Type) : Type := Sys -> Outcome A * Sys.

Definition ret {A} (a : A) : M A := fun s => (Normal a, s).

Definition bind {A B} (m : M A) (k : A -> M B) : M B :=
  fun s =>
    match m s with
    | (Normal a, s') => k a s'
    | (Throw e, s') => (Throw e, s')
    end.

Definition throw {A} (e : JSError) : M A := fun s => (Throw e, s).

Definition this : M SSE := fun s => (Normal (obj s), s).

Definition update (f : SSE -> SSE) : M unit :=
  fun s => (Normal tt, mkSys (f (obj s)) (world s) (log s)).

Definition emit (e : Entry) : M unit :=
  fun s => (Normal tt, mkSys (obj s) (world s) (log s ++ [e])).

Notation "x <- c1 ;; c2" := (bind c1 (fun x => c2))
  (at level 100, c1 at next level, right associativity).
Notation "c1 ;; c2" := (bind c1 (fun _ => c2))
  (at level 100, right associativity).

Fixpoint forEach {A} (f : A -> M unit) (l : list A) : M unit :=
  match l with
  | [] => ret tt
  | a :: l' => f a ;; forEach f l'
  end.

(** A call [cb(event)]: the event as the callback leaves it. *)
Definition call (cb : Callback) (ev : SSEvent) : M SSEvent :=
  fun s =>
    let '(w, prevented) :=
      match cb with
      | noop => (world s, false)
      | Fn f => behave f ev (world s)
      end in
    let ev' := if prevented then preventDefault ev else ev in
    (Normal ev', mkSys (obj s) w (log s ++ [Invoked cb ev'])).

(** [callbacks.every(callback => { callback(event); return
    !event.defaultPrevented; })]: [every] stops at the first callback for
    which the function returns [false]. *)
Fixpoint every (callbacks : list Callback) (ev : SSEvent) : M bool :=
  match callbacks with
  | [] => ret true
  | cb :: rest =>
      ev' <- call cb ev ;;
      if ev_defaultPrevented ev' then ret false else every rest ev'
  end.

Definition addEventListener (type : jsstring) (listener : Callback) : M unit :=
  o <- this ;;
  (match get_property (listeners o) type with
   | Undefined => update (set_listeners (<[type := []]> (listeners o)))
   | _ => ret tt
   end) ;;
  o <- this ;;
  match get_property (listeners o) type with
  | Own l =>
      if bool_decide (listener ∈ l) then ret tt
      else update (set_listeners (<[type := l ++ [listener]]> (listeners o)))
  | _ => throw TypeError
  end.

Definition removeEventListener (type : jsstring) (listener : Callback) : M unit :=
  o <- this ;;
  match get_property (listeners o) type with
  | Undefined => ret tt
  | Own l =>
      let filtered := filter (fun l => l ≠ listener) l in
      if (length filtered =? 0)%nat
      then update (set_listeners (delete type (listeners o)))
      else update (set_listeners (<[type := filtered]> (listeners o)))
  | Inherited => throw TypeError
  end.

Definition dispatchEvent (event : option SSEvent) : M bool :=
  match event with
  | None => ret true
  | Some event =>
      let event := set_source event in
      o <- this ;;
      emit (Dispatched (readyState o) event) ;;
      r <- (match handlers o !! ev_type event with
            | Some onHandler =>
                ev' <- call onHandler event ;;
                ret (ev', ev_defaultPrevented ev')
            | None => ret (event, false)
            end) ;;
      if snd r then ret false
      else
        o <- this ;;
        match get_property (listeners o) (ev_type (fst r)) with
        | Own callbacks => every callbacks (fst r)
        | Inherited => throw TypeError
        | Undefined => ret true
        end
  end.

Definition _setReadyState (state : Z) : M unit :=
  let event := set_event_readyState state (CustomEvent (str "readystatechange")) in
  update (set_readyState state) ;;
  dispatchEvent (Some event) ;;
  ret tt.

Definition stream : M unit :=
  o <- this ;;
  if xhr o then ret tt
  else
    _setReadyState CONNECTING ;;
    update (set_xhr true) ;;
    o <- this ;;
    emit (Transport (XhrOpen (method o) (url o))) ;;
    forEach (fun h => emit (Transport (XhrSetRequestHeader (fst h) (snd h))))
            (headers o) ;;
    emit (Transport (XhrWithCredentials (withCredentials o))) ;;
    emit (Transport (XhrSend (payload o))).

Definition close : M unit :=
  o <- this ;;
  if (readyState o =? CLOSED)%Z || negb (xhr o) then ret tt
  else
    emit (Transport XhrAbort) ;;
    update (set_xhr false) ;;
    _setReadyState CLOSED.

Definition _onStreamFailure (e : XMLHttpRequest) : M unit :=
  let event := set_data (JStr (response e)) (CustomEvent (str "error")) in
  dispatchEvent (Some event) ;;
  close.

Definition _onStreamAbort : M unit :=
  dispatchEvent (Some (CustomEvent (str "abort"))) ;;
  close.

(** The callback of [parts.forEach] in [_onStreamProgress]. *)
Definition dispatch_part (part : jsstring) : M unit :=
  if (0 <? length (trim part))%nat
  then dispatchEvent (Parser._parseEventChunk part) ;; ret tt
  else ret tt.

Definition _onStreamProgress (e : XMLHttpRequest) : M unit :=
  o <- this ;;
  if negb (xhr o) then ret tt
  else if negb (status e =? 200)%Z then _onStreamFailure e
  else
    (if (readyState o =? CONNECTING)%Z
     then dispatchEvent (Some (CustomEvent (str "open"))) ;;
          _setReadyState OPEN
     else ret tt) ;;
    o <- this ;;
    let data := substring_from (progress o) (responseText e) in
    update (set_progress (progress o + length data)) ;;
    let parts := split record_separator true (chunk o ++ data) in
    let '(parts, lastPart) := pop parts in
    forEach dispatch_part parts ;;
    update (set_chunk lastPart).

Definition _onStreamLoaded (e : XMLHttpRequest) : M unit :=
  _onStreamProgress e ;;
  o <- this ;;
  dispatchEvent (Parser._parseEventChunk (chunk o)) ;;
  update (set_chunk []).

Definition _checkStreamClosed (e : XMLHttpRequest) : M unit :=
  o <- this ;;
  if negb (xhr o) then ret tt
  else if (xhr_readyState e =? DONE)%Z then _setReadyState CLOSED
  else ret tt.

(** [new SSE(url, options)]. *)
Definition SSE_new (url : jsstring) (options : SSEOptions) : SSE :=
  let payload := default [] (opt_payload options) in
  mkSSE url
        (default [] (opt_headers options))
        payload
        (default (match payload with [] => str "GET" | _ => str "POST" end)
                 (opt_method options))
        (default false (opt_withCredentials options))
        INITIALIZING 0 [] false ∅ handlers0.

Definition constructor (url : jsstring) (options : SSEOptions) (w : World) : Sys :=
  let s := mkSys (SSE_new url options) w [] in
  match opt_start options with
  | Some false => s
  | _ => snd (stream s)
  end.

(** ** The host *)

(** The notifications of the transport, each with the request as it is
    then. *)
Inductive Notification : Type :=
  | progress_event (e : XMLHttpRequest)
  | load_event (e : XMLHttpRequest)
  | readystatechange_event (e : XMLHttpRequest)
  | error_event (e : XMLHttpRequest)
  | abort_event.

Definition listener_of (n : Notification) : M unit :=
  match n with
  | progress_event e => _onStreamProgress e
  | load_event e => _onStreamLoaded e
  | readystatechange_event e => _checkStreamClosed e
  | error_event e => _onStreamFailure e
  | abort_event => _onStreamAbort
  end.

(** The host runs the listener of a notification to its end; an
    exception the listener raises ends it there and is reported, the
    system goes on from the state the listener left. *)
Definition notify (s : Sys) (n : Notification) : Sys := snd (listener_of n s).

Definition run (s : Sys) (ns : list Notification) : Sys := fold_left notify ns s.

End Model.

(** * The vocabulary of the specification *)

(** ** Records and fields, in the words of the specification *)

Module FieldSpec.

(** The four field names the format knows. *)
Definition recognized : list jsstring :=
  [str "id"; str "event"; str "data"; str "retry"].

(** A line that begins with a colon is a comment. *)
Definition is_comment (line : jsstring) : Prop := head line = Some COLON.

(** The field name of a line: the text before its first colon, the whole
    line when it has none. *)
Fixpoint field_name (line : jsstring) : jsstring :=
  match line with
  | [] => []
  | c :: rest => if c =? COLON then [] else c :: field_name rest
  end.

(** A line that adds nothing to the event: a comment, or a line whose
    field name is not a recognized one. *)
Definition ignored (line : jsstring) : Prop :=
  is_comment line \/ ~ In (field_name line) recognized.

(** The text after the first colon of a line, empty when it has none. *)
Fixpoint after_colon (line : jsstring) : jsstring :=
  match line with
  | [] => []
  | c :: rest => if c =? COLON then rest else after_colon rest
  end.

(** At most one leading space is stripped. *)
Definition strip_space (s : jsstring) : jsstring :=
  match s with
  | [] => []
  | c :: rest => if c =? SPACE then rest else s
  end.

(** The value of a line. *)
Definition field_text (line : jsstring) : jsstring :=
  strip_space (after_colon line).

(** The field a line holds, none for a comment. *)
Definition field_of (line : jsstring) : option (jsstring * jsstring) :=
  if decide (head line = Some COLON) then None
  else Some (field_name line, field_text line).

(** The lines of a record that are not comments, each as its field name
    and its value. *)
Definition fields_of (lines : list jsstring) : list (jsstring * jsstring) :=
  omap field_of lines.

(** The values the lines give to the field [name], in the order of the
    lines. *)
Definition values_of (name : jsstring) (fvs : list (jsstring * jsstring))
    : list jsstring :=
  map snd (filter (fun fv => fst fv = name) fvs).

(** Last write wins. *)
Definition last_value (name : jsstring) (fvs : list (jsstring * jsstring))
    : option jsstring :=
  list.last (values_of name fvs).

(** The first value sets the field, every later value is appended after
    a line feed; [None] when there is no value. *)
Definition accumulated (values : list jsstring) : option jsstring :=
  match values with
  | [] => None
  | v :: rest => Some (v ++ concat (map (fun x => LF :: x) rest))
  end.

(** The event of a record with no recognized field. *)
Definition plain_message : SSEvent :=
  mkEvent (str "message") false false false (JStr []) null None.

End FieldSpec.

(** ** Reading the log *)

Definition is_invocation (e : Entry) : Prop :=
  match e with
  | Invoked _ _ => True
  | _ => False
  end.

(** The events [dispatchEvent] was entered with, oldest first. *)
Definition dispatched (es : list Entry) : list SSEvent :=
  omap (fun e => match e with Dispatched _ ev => Some ev | _ => None end) es.

(** The callbacks that were called, oldest call first. *)
Definition callbacks_of (es : list Entry) : list Callback :=
  omap (fun e => match e with Invoked cb _ => Some cb | _ => None end) es.

(** The call left [defaultPrevented] set on the event. *)
Definition cancelled (e : Entry) : bool :=
  match e with
  | Invoked _ ev => ev_defaultPrevented ev
  | _ => false
  end.

(** The primary handler of an event type, as a list of at most one
    callback. *)
Definition handler_of (o : SSE) (type : jsstring) : list Callback :=
  option_list (handlers o !! type).

(** An event type that [dispatchEvent] handles without an exception:
    reading it from [this.listeners] does not find an inherited
    property. *)
Definition dispatchable (o : SSE) (type : jsstring) : Prop :=
  get_property (listeners o) type <> Inherited.

(** ** The events of the life cycle, as [dispatchEvent] receives them *)

Definition OpenEvent : SSEvent := set_source (CustomEvent (str "open")).

Definition AbortEvent : SSEvent := set_source (CustomEvent (str "abort")).

Definition ErrorEvent (responseText : jsstring) : SSEvent :=
  set_source (set_data (JStr responseText) (CustomEvent (str "error"))).

Definition ReadyStateEvent (state : Z) : SSEvent :=
  set_source (set_event_readyState state (CustomEvent (str "readystatechange"))).

(** The event the assembler dispatches for a segment while the stream
    goes on: none for a segment that is white space only. *)
Definition record_event (part : jsstring) : option SSEvent :=
  if forallb is_white_space part then None else Parser._parseEventChunk part.

(** A notification that [close] makes void: those of [_onStreamProgress]
    and [_checkStreamClosed]. *)
Definition progress_or_readystatechange (n : Notification) : Prop :=
  match n with
  | progress_event _ | readystatechange_event _ => True
  | _ => False
  end.

(** ** Instances to run the model on *)

(** A host whose functions do nothing. *)
Definition quiet (f : nat) (ev : SSEvent) (w : unit) : unit * bool := (w, false).

(** A host whose function 1 cancels the event it is given. *)
Definition cancel_first (f : nat) (ev : SSEvent) (w : unit) : unit * bool :=
  (w, Nat.eqb f 1).

Definition no_options : SSEOptions := mkOptions None None None None None.

Definition not_started : SSEOptions :=
  mkOptions None None None None (Some false).

(** [new SSE("/events")]: the request is sent, the state is CONNECTING. *)
Definition connecting : Sys := constructor quiet (str "/events") no_options tt.

(** ** The calls on the registry *)

Inductive RegistryCall : Type :=
  | Add (type : jsstring) (listener : Callback)
  | Remove (type : jsstring) (listener : Callback).

Definition registry_call {World : Type} (c : RegistryCall) : @M World unit :=
  match c with
  | Add type listener => addEventListener type listener
  | Remove type listener => removeEventListener type listener
  end.

(** The host makes the calls one after the other; a call that raises
    leaves the state it had reached. *)
Definition call_all {World : Type} (s : @Sys World) (calls : list RegistryCall)
    : Sys :=
  fold_left (fun s c => snd (registry_call c s)) calls s.

(** No type has a listener twice, and no type has an empty list. *)
Definition registry_ok (ls : gmap jsstring (list Callback)) : Prop :=
  forall type l, ls !! type = Some l -> NoDup l /\ l <> [].

(** An instance that has not started, with the listeners [Fn 1] and
    [Fn 2] registered for ["message"] in this order. *)
Definition two_listeners : Sys :=
  call_all (constructor cancel_first (str "/events") not_started tt)
           [Add (str "message") (Fn 1); Add (str "message") (Fn 2)].

(** [new CustomEvent("message", { cancelable: true })]. *)
Definition cancelable_message : SSEvent :=
  mkEvent (str "message") true false false undefined undefined None.

(** ** The stream, in the words of the specification *)

(** The segments of a text that a separator has closed, with the
    separators the split keeps between them. *)
Definition complete_parts (text : jsstring) : list jsstring :=
  removelast (split record_separator true text).

(** The open last segment of a text: the trailing partial record. *)
Definition pending_tail (text : jsstring) : jsstring :=
  List.last (split record_separator true text) [].

(** The events of a list of segments: separators and segments of white
    space give none. *)
Definition records_of (parts : list jsstring) : list SSEvent :=
  omap record_event parts.

(** The text of a stream: records, each followed by a separator, and a
    trailing partial record. *)
Fixpoint stream_text (records : list (jsstring * jsstring)) (tail : jsstring)
    : jsstring :=
  match records with
  | [] => tail
  | (record, separator) :: rest => record ++ separator ++ stream_text rest tail
  end.

(** No separator occurs in the text. *)
Definition separator_free (text : jsstring) : Prop :=
  forall before separator after,
    In separator record_separator -> text <> before ++ separator ++ after.

(** The text does not end with a carriage return or a line feed, which
    would be read with the separator that follows. *)
Definition no_line_end (text : jsstring) : Prop :=
  match list.last text with
  | Some c => c <> CR /\ c <> LF
  | None => True
  end.

(** A complete record with its separator: the record holds no separator,
    does not run into its own, and is not white space only. *)
Definition complete_record (rs : jsstring * jsstring) : Prop :=
  separator_free (fst rs) /\ no_line_end (fst rs)
  /\ forallb is_white_space (fst rs) = false
  /\ In (snd rs) record_separator.

(** Cumulative texts: each one extends the one before, the first one
    extends [text0]. *)
Fixpoint grows (text0 : jsstring) (texts : list jsstring) : Prop :=
  match texts with
  | [] => True
  | text :: rest => text0 `prefix_of` text /\ grows text rest
  end.

(** The delivery of a text one code unit at a time: its prefixes of
    length 1, 2, ... up to the text itself. *)
Definition prefixes (text : jsstring) : list jsstring :=
  map (fun n => take n text) (seq 1 (length text)).

(** The progress notifications that deliver the cumulative texts with
    status 200 (the request is LOADING), and the load notification that
    ends the stream (the request is DONE). *)
Definition progress_events (texts : list jsstring) : list Notification :=
  map (fun text => progress_event (mkXhr 200 text 3)) texts.

Definition load_of (text : jsstring) : Notification :=
  load_event (mkXhr 200 text 4).

(** What the first progress notification of an attempt dispatches before
    any record, and the state it leaves. *)
Definition lifecycle (state : Z) : list SSEvent :=
  if (state =? CONNECTING)%Z then [OpenEvent; ReadyStateEvent OPEN] else [].

Definition after_open (state : Z) : Z :=
  if (state =? CONNECTING)%Z then OPEN else state.

(** Every event of the segments can be dispatched by the instance. *)
Definition all_dispatchable (o : SSE) (parts : list jsstring) : Prop :=
  Forall (fun part => forall ev, record_event part = Some ev ->
                                 dispatchable o (ev_type ev)) parts.

(** A stream of two complete records and a trailing partial record; the
    event type of the first record is the name of a property of
    [Object.prototype]. *)
Definition constructor_stream : jsstring :=
  str "event: constructor" ++ [LF; LF] ++ str "data: b" ++ [LF; LF] ++ str "x".

(** A stream of two records, with different separators, and a trailing
    partial record. *)
Definition two_records : list (jsstring * jsstring) :=
  [ (str "data: a", [LF; LF]);
    (str "event: update" ++ [CR; LF] ++ str "data: b", [CR; LF; CR; LF]) ].

Definition partial_record : jsstring := str "id: 7".

(** ** The calls of the host program *)

(** What the host program does with an instance: it calls a public
    method, or it delivers a notification of the transport. *)
Inductive Action : Type :=
  | call_stream
  | call_close
  | call_addEventListener (type : jsstring) (listener : Callback)
  | call_removeEventListener (type : jsstring) (listener : Callback)
  | call_dispatchEvent (event : option SSEvent)
  | transport (n : Notification).

(** One action, run to its end; an exception ends it where it is raised. *)
Definition act {World : Type}
    (behave : nat -> SSEvent -> World -> World * bool)
    (s : @Sys World) (a : Action) : Sys :=
  match a with
  | call_stream => snd (stream behave s)
  | call_close => snd (close behave s)
  | call_addEventListener type listener =>
      snd (addEventListener type listener s)
  | call_removeEventListener type listener =>
      snd (removeEventListener type listener s)
  | call_dispatchEvent event => snd (dispatchEvent behave event s)
  | transport n => notify behave s n
  end.

Definition acts {World : Type}
    (behave : nat -> SSEvent -> World -> World * bool)
    (s : @Sys World) (l : list Action) : Sys :=
  fold_left (act behave) l s.

(** The state and the request go together: before the first attempt there
    is no request, while CONNECTING or OPEN there is one. *)
Definition lifecycle_ok (o : SSE) : Prop :=
  (readyState o = INITIALIZING /\ xhr o = false)
  \/ (readyState o = CONNECTING /\ xhr o = true)
  \/ (readyState o = OPEN /\ xhr o = true)
  \/ readyState o = CLOSED.

(** A line holds no carriage return and no line feed. *)
Definition line_free (line : jsstring) : Prop :=
  Forall (fun c => c <> CR /\ c <> LF) line.

(** The lines of a record, each but the last followed by the same line
    terminator. *)
Fixpoint join_lines (terminator : jsstring) (lines : list jsstring) : jsstring :=
  match lines with
  | [] => []
  | [line] => line
  | line :: rest => line ++ terminator ++ join_lines terminator rest
  end.

(** The commands that send the request of an attempt, in the order of
    [stream]. *)
Definition request_commands (o : SSE) : list Entry :=
  Transport (XhrOpen (method o) (url o))
  :: map (fun h => Transport (XhrSetRequestHeader (fst h) (snd h))) (headers o)
  ++ [ Transport (XhrWithCredentials (withCredentials o));
       Transport (XhrSend (payload o)) ].

(** The calls of the handler and of the listeners of an event that
    cannot be cancelled. *)
Definition invocations (o : SSE) (ev : SSEvent) : list Entry :=
  map (fun cb => Invoked cb ev)
      (handler_of o (ev_type ev) ++ default [] (listeners o !! ev_type ev)).

(** What a notification of the transport does to the state and to the
    request of the instance. *)
Inductive state_change (o : SSE) : SSE -> Prop :=
  | sc_none : state_change o o
  | sc_open :
      xhr o = true -> readyState o = CONNECTING ->
      state_change o (set_readyState OPEN o)
  | sc_close :
      xhr o = true -> readyState o <> CLOSED ->
      state_change o (set_readyState CLOSED (set_xhr false o))
  | sc_done :
      xhr o = true -> state_change o (set_readyState CLOSED o).

(** The state of the instance and whether it holds a request. *)
Definition state_of (o : SSE) : Z * bool := (readyState o, xhr o).

(** The transitions of the connection state machine. *)
Inductive transition : Z * bool -> Z * bool -> Prop :=
  | t_stay st : transition st st
  | t_attempt state : transition (state, false) (CONNECTING, true)
  | t_open : transition (CONNECTING, true) (OPEN, true)
  | t_close state : state <> CLOSED -> transition (state, true) (CLOSED, false)
  | t_done state : transition (state, true) (CLOSED, true).

(** A new attempt is made by [stream] only; every other change of the
    state is one of [state_change]. *)
Definition action_change (a : Action) (o o1 : SSE) : Prop :=
  state_change o o1
  \/ (a = call_stream /\ xhr o = false
      /\ o1 = set_xhr true (set_readyState CONNECTING o)).

(** The instance holds a request and is not CLOSED: [close] has work
    to do. *)
Definition holds_stream (o : SSE) : bool :=
  xhr o && negb (readyState o =? CLOSED)%Z.

(** The instance after [close]. *)
Definition closed (o : SSE) : SSE :=
  if holds_stream o then set_readyState CLOSED (set_xhr false o) else o.

(** What [close] adds to the log. *)
Definition closing (o : SSE) : list Entry :=
  if holds_stream o
  then Transport XhrAbort
       :: Dispatched CLOSED (ReadyStateEvent CLOSED)
       :: invocations o (ReadyStateEvent CLOSED)
  else [].

(** An action other than a call of [stream]. *)
Definition not_stream (a : Action) : Prop := a <> call_stream.

(** An instance that is streaming: [new SSE("/events")] after a first
    progress notification that brought a record and the beginning of the
    next one. *)
Definition streaming : Sys :=
  notify quiet connecting
    (progress_event (mkXhr 200 (str "data: a" ++ [LF; LF] ++ str "data: b") 3)).

(** * Properties *)

(** ** Strings *)

Section StringFacts.

Lemma trimStart_nil (s : jsstring) :
  trimStart s = [] <-> forallb is_white_space s = true.
Proof.
  induction s as [|c s IH]; simpl; [done|].
  destruct (is_white_space c); simpl; [done|].
  split; intros H; discriminate H.
Qed.

Lemma forallb_Forall {A} (f : A -> bool) (l : list A) :
  forallb f l = true -> Forall (fun x => f x = true) l.
Proof.
  induction l as [|a l IH]; simpl; [by constructor|].
  intros [Ha Hl]%andb_true_iff. constructor; auto.
Qed.

Lemma forallb_reverse {A} (f : A -> bool) (l : list A) :
  forallb f (rev l) = forallb f l.
Proof.
  induction l as [|a l IH]; simpl; [done|].
  rewrite forallb_app, IH. simpl. rewrite andb_true_r. apply andb_comm.
Qed.

(** [part.trim().length > 0] holds exactly when the part has a code unit
    that is not white space. *)
Lemma trim_length_pos (s : jsstring) :
  (0 <? length (trim s))%nat = negb (forallb is_white_space s).
Proof.
  unfold trim, trimEnd.
  destruct (forallb is_white_space s) eqn:Hs; simpl.
  - apply trimStart_nil in Hs. by rewrite Hs.
  - rewrite length_rev. apply Nat.ltb_lt.
    destruct (trimStart (rev (trimStart s))) eqn:Ht; [|simpl; lia].
    exfalso. apply trimStart_nil in Ht. rewrite forallb_reverse in Ht.
    clear -Hs Ht. induction s as [|c s IH]; simpl in *; [done|].
    destruct (is_white_space c) eqn:Hc; simpl in *; [by apply IH|].
    rewrite Hc in Ht. done.
Qed.

Lemma starts_with_spec (p s : jsstring) :
  starts_with p s = true <-> exists r, s = p ++ r.
Proof.
  revert s. induction p as [|a p IH]; intros s; simpl.
  - split; [intros _; by exists s|done].
  - destruct s as [|b s].
    + split; [done|]. intros [r Hr]. discriminate Hr.
    + rewrite andb_true_iff, N.eqb_eq, IH. split.
      * intros [-> [r ->]]. by exists r.
      * intros [r Hr]. injection Hr as -> ->. split; [done|by exists r].
Qed.

Lemma split_loop_nonempty alts capture fuel s :
  split_loop alts capture fuel s <> [].
Proof.
  revert s. induction fuel as [|fuel IH]; intros s; simpl; [done|].
  destruct s as [|c s]; [done|].
  destruct (regex_match alts (c :: s)) as [[|x d]|].
  - specialize (IH s). destruct (split_loop alts capture fuel s); done.
  - done.
  - specialize (IH s). destruct (split_loop alts capture fuel s); done.
Qed.

(** Fuel beyond the length of the string changes nothing. *)
Lemma split_loop_fuel alts capture fuel s :
  (length s <= fuel)%nat ->
  split_loop alts capture fuel s = split alts capture s.
Proof.
  unfold split. remember (length s) as n eqn:Hn.
  revert s Hn fuel. induction (lt_wf n) as [n _ IH]. intros s -> fuel Hle.
  destruct s as [|c s]; simpl.
  - by destruct fuel.
  - destruct fuel as [|fuel]; [simpl in Hle; lia|]. simpl.
    destruct (regex_match alts (c :: s)) as [[|x d]|].
    + f_equal. rewrite (IH (length s)); [done|simpl; lia|done|simpl in Hle; lia].
    + f_equal. f_equal.
      assert (length (drop (length d) s) <= length s)%nat
        by (rewrite length_drop; lia).
      rewrite (IH (length (drop (length d) s))); [|simpl; lia|done|simpl in *; lia].
      symmetry. apply (IH (length (drop (length d) s))); [simpl; lia|done|done].
    + f_equal. rewrite (IH (length s)); [done|simpl; lia|done|simpl in Hle; lia].
Qed.

(** The equation of [split]. *)
Lemma split_cons alts capture c s :
  split alts capture (c :: s) =
  match regex_match alts (c :: s) with
  | Some ((_ :: _) as d) =>
      [] :: (if capture then [d] else [])
         ++ split alts capture (drop (length d) (c :: s))
  | _ => push_front c (split alts capture s)
  end.
Proof.
  unfold split at 1. simpl length. cbn [split_loop].
  destruct (regex_match alts (c :: s)) as [[|x d]|]; [done| |done].
  f_equal. f_equal. apply split_loop_fuel. simpl. rewrite length_drop. lia.
Qed.

Lemma split_nonempty alts capture s : split alts capture s <> [].
Proof. apply split_loop_nonempty. Qed.

End StringFacts.

(** ** The record separator *)

Section RecordSeparator.

Lemma regex_match_Some alts s d :
  regex_match alts s = Some d -> In d alts /\ exists r, s = d ++ r.
Proof.
  unfold regex_match. intros H. apply find_some in H as [Hin Hs].
  split; [done|]. by apply starts_with_spec.
Qed.

(** With a capturing group nothing of the string is lost by [split]. *)
Lemma concat_split alts s : concat (split alts true s) = s.
Proof.
  remember (length s) as n eqn:Hn. revert s Hn.
  induction (lt_wf n) as [n _ IH]. intros s ->.
  destruct s as [|c s]; [done|]. rewrite split_cons.
  assert (Hkeep : concat (push_front c (split alts true s)) = c :: s).
  { pose proof (split_nonempty alts true s) as Hne.
    specialize (IH (length s) ltac:(simpl; lia) s eq_refl).
    destruct (split alts true s) as [|x X]; [done|].
    simpl in *. by rewrite IH. }
  destruct (regex_match alts (c :: s)) as [[|x d]|] eqn:Hm; [done| |done].
  apply regex_match_Some in Hm as [_ [r Hr]].
  assert (Hlen : (length r < length (c :: s))%nat).
  { rewrite Hr, length_app. simpl. lia. }
  rewrite Hr, drop_app_length. simpl.
  rewrite (IH _ Hlen r eq_refl). done.
Qed.

Lemma split_single alts s x : split alts true s = [x] -> x = s.
Proof.
  intros H. rewrite <- (concat_split alts s), H. simpl. by rewrite app_nil_r.
Qed.

Lemma record_match_app s y d :
  regex_match record_separator s = Some d ->
  regex_match record_separator (s ++ y) = Some d.
Proof.
  intros H. apply regex_match_Some in H as [Hin [r ->]].
  rewrite <- app_assoc.
  simpl in Hin. destruct Hin as [<-|[<-|[<-|[]]]]; reflexivity.
Qed.

Lemma record_match_nonempty s d :
  regex_match record_separator s = Some d -> d <> [].
Proof.
  intros H. apply regex_match_Some in H as [Hin _].
  simpl in Hin. destruct Hin as [<-|[<-|[<-|[]]]]; done.
Qed.

(** A separator that shows at the head of a string only once more text
    has come: then the string is a proper prefix of the separator, and
    holds no separator itself. *)
Lemma record_match_late s y d :
  regex_match record_separator s = None ->
  regex_match record_separator (s ++ y) = Some d ->
  split record_separator true s = [s].
Proof.
  intros Hs Hsy. apply regex_match_Some in Hsy as [Hin [r Hr]].
  simpl in Hin. destruct Hin as [<-|[<-|[<-|[]]]];
    destruct s as [|a [|b [|c [|e s]]]]; simpl in Hr;
    simplify_eq; try reflexivity; try discriminate Hs.
Qed.

(** Splitting a string that has grown: the segments closed before stay,
    the split goes on from the open last segment. *)
Lemma split_records_app s y :
  split record_separator true (s ++ y) =
  removelast (split record_separator true s)
    ++ split record_separator true
         (List.last (split record_separator true s) [] ++ y).
Proof.
  remember (length s) as n eqn:Hn. revert s Hn.
  induction (lt_wf n) as [n _ IH]. intros s ->.
  destruct s as [|c s]; [done|].
  rewrite (split_cons _ _ c s). rewrite <- app_comm_cons, split_cons.
  rewrite app_comm_cons.
  destruct (regex_match record_separator (c :: s)) as [d|] eqn:Hm.
  - rewrite (record_match_app _ _ _ Hm).
    pose proof (record_match_nonempty _ _ Hm) as Hd.
    apply regex_match_Some in Hm as [_ [r Hr]].
    destruct d as [|x d]; [done|].
    rewrite Hr. rewrite <- app_assoc, !drop_app_length.
    assert (Hlen : (length r < length (c :: s))%nat).
    { rewrite Hr, length_app. simpl. lia. }
    rewrite (IH _ Hlen r eq_refl).
    pose proof (split_nonempty record_separator true r) as Hne.
    destruct (split record_separator true r) as [|p ps] eqn:Hp; [done|].
    reflexivity.
  - destruct (regex_match record_separator ((c :: s) ++ y)) as [d|] eqn:Hmy.
    + pose proof (record_match_late _ _ _ Hm Hmy) as Hone.
      rewrite split_cons, Hm in Hone. rewrite Hone. simpl.
      pose proof (record_match_nonempty _ _ Hmy) as Hd.
      destruct d; [done|]. rewrite (split_cons _ _ c (s ++ y)).
      change ((c :: s) ++ y) with (c :: (s ++ y)) in Hmy. by rewrite Hmy.
    + rewrite (IH (length s) ltac:(simpl; lia) s eq_refl).
      pose proof (split_nonempty record_separator true s) as Hne.
      destruct (split record_separator true s) as [|p [|q ps]] eqn:Hp; [done| |].
      * apply split_single in Hp as ->. simpl.
        rewrite (split_cons _ _ c (s ++ y)).
        change ((c :: s) ++ y) with (c :: (s ++ y)) in Hmy. by rewrite Hmy.
      * reflexivity.
Qed.

(** The open last segment holds no separator. *)
Lemma split_records_last s :
  let tail := List.last (split record_separator true s) [] in
  split record_separator true tail = [tail].
Proof.
  intros tail. pose proof (split_records_app s []) as H.
  rewrite app_nil_r in H. fold tail in H. rewrite app_nil_r in H.
  pose proof (split_nonempty record_separator true s) as Hne.
  rewrite (app_removelast_last [] Hne) in H at 1. fold tail in H.
  by apply app_inv_head in H.
Qed.

Lemma split_separator_free text :
  separator_free text -> split record_separator true text = [text].
Proof.
  induction text as [|c text IH]; intros Hfree; [done|].
  rewrite split_cons.
  destruct (regex_match record_separator (c :: text)) as [d|] eqn:Hm.
  - apply regex_match_Some in Hm as [Hin [r Hr]].
    exfalso. by apply (Hfree [] d r).
  - rewrite IH; [done|]. intros before d after Hin ->.
    by apply (Hfree (c :: before) d after).
Qed.

Lemma separator_line_ends d :
  In d record_separator -> Forall (fun c => c = CR \/ c = LF) d.
Proof.
  simpl. intros [<-|[<-|[<-|[]]]];
    repeat (apply List.Forall_cons; [by (left + right)|]); apply List.Forall_nil.
Qed.

Lemma record_match_separator d rest :
  In d record_separator -> regex_match record_separator (d ++ rest) = Some d.
Proof. simpl. intros [<-|[<-|[<-|[]]]]; reflexivity. Qed.

(** A record that holds no separator and does not end a line, then a
    separator: the split closes the record there. *)
Lemma split_record record d rest :
  separator_free record -> no_line_end record -> In d record_separator ->
  split record_separator true (record ++ d ++ rest)
  = record :: d :: split record_separator true rest.
Proof.
  intros Hfree Hend Hd. induction record as [|c record IH].
  - cbn [app]. pose proof (record_match_separator d rest Hd) as Hm.
    destruct d as [|x d]; [by destruct Hd as [|[|[|[]]]]|].
    change ((x :: d) ++ rest) with (x :: (d ++ rest)) in Hm |- *.
    rewrite split_cons, Hm.
    change (x :: (d ++ rest)) with ((x :: d) ++ rest).
    by rewrite drop_app_length.
  - cbn [app]. rewrite split_cons.
    destruct (regex_match record_separator (c :: record ++ d ++ rest))
      as [m|] eqn:Hm.
    + exfalso. apply regex_match_Some in Hm as [Hin [r Hr]].
      change (c :: record ++ d ++ rest) with ((c :: record) ++ d ++ rest) in Hr.
      apply app_eq_inv in Hr as [(k & Hk & _)|(k & Hk & _)].
      * by apply (Hfree [] m k).
      * pose proof (separator_line_ends m Hin) as Hall.
        rewrite Hk in Hall. apply Forall_app in Hall as [Hall _].
        unfold no_line_end in Hend.
        destruct (list.last (c :: record)) as [x|] eqn:Hlast.
        -- apply last_Some in Hlast as [l' Hl']. rewrite Hl' in Hall.
           apply Forall_app in Hall as [_ Hx].
           inversion Hx as [|? ? Hx' _]. destruct Hend, Hx'; done.
        -- by apply last_None in Hlast.
    + rewrite IH; [done| |].
      * intros before s after Hin ->. by apply (Hfree (c :: before) s after).
      * unfold no_line_end in *. destruct record as [|c' record]; [done|].
        by rewrite last_cons_cons in Hend.
Qed.

(** The split of a text of records gives these records back, with their
    separators, and the trailing record as last segment. *)
Lemma split_stream_text records tail :
  Forall complete_record records -> separator_free tail ->
  split record_separator true (stream_text records tail)
  = flat_map (fun rs => [fst rs; snd rs]) records ++ [tail].
Proof.
  intros Hrec Htail. induction Hrec as [|[r d] records (Hf & He & _ & Hd) _ IH].
  - by apply split_separator_free.
  - cbn [stream_text flat_map fst snd app]. by rewrite split_record, IH.
Qed.

Lemma split_separator_length before d after :
  In d record_separator ->
  (3 <= length (split record_separator true (before ++ d ++ after)))%nat.
Proof.
  intros Hd. induction before as [|c before IH].
  - cbn [app]. pose proof (record_match_separator d after Hd) as Hm.
    destruct d as [|x d]; [by destruct Hd as [|[|[|[]]]]|].
    change ((x :: d) ++ after) with (x :: (d ++ after)) in Hm |- *.
    rewrite split_cons, Hm. simpl.
    pose proof (split_nonempty record_separator true
                  (drop (length d) (d ++ after))) as Hne.
    destruct (split record_separator true (drop (length d) (d ++ after)));
      [done|simpl; lia].
  - cbn [app]. rewrite split_cons.
    destruct (regex_match record_separator (c :: before ++ d ++ after))
      as [m|] eqn:Hm.
    + pose proof (record_match_nonempty _ _ Hm) as Hne.
      destruct m as [|x m]; [done|]. simpl.
      pose proof (split_nonempty record_separator true
                    (drop (length m) (before ++ d ++ after))) as Hne'.
      destruct (split record_separator true
                  (drop (length m) (before ++ d ++ after)));
        [done|simpl; lia].
    + destruct (split record_separator true (before ++ d ++ after));
        [simpl in IH; lia|done].
Qed.

(** A text holds no separator exactly when its split is the text alone:
    a test that can be run. *)
Lemma separator_free_iff text :
  separator_free text <-> split record_separator true text = [text].
Proof.
  split; [apply split_separator_free|].
  intros Hs before d after Hd ->.
  pose proof (split_separator_length before d after Hd) as Hlen.
  rewrite Hs in Hlen. simpl in Hlen. lia.
Qed.

End RecordSeparator.

(** ** The event chunk parser *)

(** A decidable closed proposition, by evaluation. *)
Ltac by_eval := apply (bool_decide_unpack _); vm_compute; exact I.

(** A hypothesis denies a membership that evaluation shows. *)
Ltac absurd_elem :=
  exfalso;
  match goal with
  | H : ?x ∉ ?l |- _ => apply H; by_eval
  | H : ~ In ?x ?l |- _ => apply H; simpl; tauto
  end.

Section ParserFacts.
Import FieldSpec.

Lemma store_data f v ef :
  Parser.data (Parser.store f v ef) =
  if bool_decide (f = str "data")
  then Some (match Parser.data ef with Some d => d ++ [LF] ++ v | None => v end)
  else Parser.data ef.
Proof.
  unfold Parser.store, Parser.in_eventFields, Parser.assign.
  repeat case_bool_decide; subst; try done; try absurd_elem;
    destruct (inherited _); simpl; try done;
    destruct (Parser.data ef); done.
Qed.

Lemma store_id f v ef :
  Parser.id (Parser.store f v ef) =
  if bool_decide (f = str "id") then Some v else Parser.id ef.
Proof.
  unfold Parser.store, Parser.in_eventFields, Parser.assign.
  repeat case_bool_decide; subst; try done; try absurd_elem;
    destruct (inherited _); simpl; try done;
    destruct (Parser.data ef); done.
Qed.

Lemma store_event f v ef :
  Parser.event (Parser.store f v ef) =
  if bool_decide (f = str "event") then Some v else Parser.event ef.
Proof.
  unfold Parser.store, Parser.in_eventFields, Parser.assign.
  repeat case_bool_decide; subst; try done; try absurd_elem;
    destruct (inherited _); simpl; try done;
    destruct (Parser.data ef); done.
Qed.

Lemma store_retry f v ef :
  Parser.retry (Parser.store f v ef) =
  if bool_decide (f = str "retry") then Some v else Parser.retry ef.
Proof.
  unfold Parser.store, Parser.in_eventFields, Parser.assign.
  repeat case_bool_decide; subst; try done; try absurd_elem;
    destruct (inherited _); simpl; try done;
    destruct (Parser.data ef); done.
Qed.

Lemma values_of_snoc name fvs f v :
  values_of name (fvs ++ [(f, v)]) =
  values_of name fvs ++ (if bool_decide (f = name) then [v] else []).
Proof.
  unfold values_of. rewrite filter_app, map_app. f_equal.
  rewrite filter_cons, filter_nil. simpl.
  case_decide; case_bool_decide; done.
Qed.

Lemma accumulated_snoc vs v :
  accumulated (vs ++ [v]) =
  Some (match accumulated vs with Some d => d ++ [LF] ++ v | None => v end).
Proof.
  destruct vs as [|v0 vs]; simpl; [by rewrite app_nil_r|].
  rewrite map_app, concat_app. simpl. by rewrite app_nil_r, <- app_assoc.
Qed.

Lemma parse_lines_snoc lines line :
  Parser.parse_lines (lines ++ [line]) =
  Parser.parse_line (Parser.parse_lines lines) line.
Proof. unfold Parser.parse_lines. by rewrite fold_left_app. Qed.

Lemma indexOf_after_colon line i :
  indexOf COLON line = Some i -> after_colon line = drop (S i) line.
Proof.
  revert i. induction line as [|c line IH]; intros i; simpl; [done|].
  destruct (c =? COLON); [by intros [= <-]|].
  destruct (indexOf COLON line) as [j|]; [|done].
  intros [= <-]. by apply IH.
Qed.

Lemma indexOf_none_after_colon line :
  indexOf COLON line = None -> after_colon line = [] /\ field_name line = line.
Proof.
  induction line as [|c line IH]; simpl; [done|].
  destruct (c =? COLON); [done|].
  destruct (indexOf COLON line); [done|]. intros _.
  destruct (IH eq_refl) as [-> ->]. done.
Qed.

Lemma indexOf_take_field_name line i :
  indexOf COLON line = Some i -> take i line = field_name line.
Proof.
  revert i. induction line as [|c line IH]; intros i; simpl; [done|].
  destruct (c =? COLON); [by intros [= <-]|].
  destruct (indexOf COLON line) as [j|]; [|done].
  intros [= <-]. simpl. f_equal. by apply IH.
Qed.

(** The parser reads a line as the specification says: the name before
    the first colon, the value after it less one leading space; the whole
    line as name when it has no colon; nothing for a comment. *)
Lemma field_value_spec line : Parser.field_value line = field_of line.
Proof.
  unfold Parser.field_value, field_of, Parser.FIELD_SEPARATOR,
    substring_to, substring_from, field_text.
  assert (Hhead : head line = Some COLON <-> indexOf COLON line = Some O).
  { destruct line as [|c line]; [done|]. simpl.
    destruct (N.eqb_spec c COLON) as [->|Hne]; [done|].
    split; [congruence|]. by destruct (indexOf COLON line). }
  destruct (indexOf COLON line) as [[|i]|] eqn:Hi.
  - by rewrite decide_True by (by apply Hhead).
  - rewrite decide_False by (intros H; by apply Hhead in H).
    rewrite (indexOf_take_field_name _ _ Hi), (indexOf_after_colon _ _ Hi).
    f_equal. f_equal.
    assert (Hlook : line !! (S i + 1)%nat = head (drop (S (S i)) line)).
    { rewrite head_lookup, lookup_drop. f_equal. lia. }
    rewrite Hlook.
    destruct (drop (S (S i)) line) as [|c rest] eqn:Hd; simpl.
    + replace (S (i + 1)) with (S (S i)) by lia. by rewrite Hd.
    + destruct (c =? SPACE).
      * replace (S (i + 2)) with (S (S i) + 1)%nat by lia.
        by rewrite <- drop_drop, Hd.
      * replace (S (i + 1)) with (S (S i)) by lia. by rewrite Hd.
  - destruct (indexOf_none_after_colon _ Hi) as [-> ->].
    by rewrite decide_False by (intros H; by apply Hhead in H).
Qed.

Lemma fields_of_snoc lines line :
  fields_of (lines ++ [line]) =
  fields_of lines ++ match Parser.field_value line with
                     | Some fv => [fv]
                     | None => []
                     end.
Proof.
  unfold fields_of. rewrite omap_app. simpl. rewrite <- field_value_spec.
  by destruct (Parser.field_value line).
Qed.

(** What the loop over the lines leaves in [eventFields]. *)
Lemma parse_lines_spec lines :
  let fvs := fields_of lines in
  let ef := Parser.parse_lines lines in
  Parser.data ef = accumulated (values_of (str "data") fvs)
  /\ Parser.id ef = last_value (str "id") fvs
  /\ Parser.event ef = last_value (str "event") fvs
  /\ Parser.retry ef = last_value (str "retry") fvs.
Proof.
  induction lines as [|line lines IH] using rev_ind; [done|].
  cbv zeta in *. destruct IH as (Hd & Hi & He & Hr).
  rewrite parse_lines_snoc, fields_of_snoc. unfold Parser.parse_line.
  destruct (Parser.field_value line) as [[f v]|].
  - unfold last_value in *. rewrite !values_of_snoc.
    rewrite store_data, store_id, store_event, store_retry.
    rewrite Hd, Hi, He, Hr.
    repeat split; case_bool_decide;
      rewrite ?app_nil_r, ?accumulated_snoc, ?last_snoc; done.
  - by rewrite app_nil_r.
Qed.

Lemma store_unrecognized f v ef :
  ~ In f recognized -> Parser.store f v ef = ef.
Proof.
  intros Hf. unfold Parser.store, Parser.in_eventFields, Parser.assign.
  repeat case_bool_decide; subst; try done; try absurd_elem;
    destruct (inherited _); simpl; done.
Qed.

Lemma parse_line_ignored ef line :
  ignored line -> Parser.parse_line ef line = ef.
Proof.
  intros Hign. unfold Parser.parse_line. rewrite field_value_spec.
  unfold field_of. case_decide; [done|].
  destruct Hign as [Hc|Hn]; [done|]. by apply store_unrecognized.
Qed.

Lemma parse_lines_ignored lines :
  Forall ignored lines -> Parser.parse_lines lines = Parser.eventFields0.
Proof.
  unfold Parser.parse_lines. generalize Parser.eventFields0.
  induction lines as [|line lines IH]; intros ef Hall; simpl; [done|].
  inversion Hall; subst. rewrite parse_line_ignored; auto.
Qed.

(** Every segment and every capture of a split is made of code units of
    the string. *)
Lemma split_Forall (P : N -> Prop) alts capture s :
  Forall P s -> Forall (Forall P) (split alts capture s).
Proof.
  remember (length s) as n eqn:Hn. revert s Hn.
  induction (lt_wf n) as [n _ IH]. intros s -> Hs.
  destruct s as [|c s]; [by repeat constructor|]. rewrite split_cons.
  assert (Hkeep : Forall (Forall P) (push_front c (split alts capture s))).
  { inversion Hs; subst.
    specialize (IH (length s) ltac:(simpl; lia) s eq_refl ltac:(done)).
    destruct (split alts capture s) as [|x X]; simpl.
    - by repeat constructor.
    - inversion IH; subst. by repeat constructor. }
  destruct (regex_match alts (c :: s)) as [[|x d]|] eqn:Hm; [done| |done].
  apply regex_match_Some in Hm as [_ [r Hr]].
  rewrite Hr in Hs. apply Forall_app in Hs as [Hd Hrest].
  assert (Hlen : (length r < length (c :: s))%nat).
  { rewrite Hr, length_app. simpl. lia. }
  rewrite Hr, drop_app_length.
  constructor; [done|]. apply Forall_app. split.
  - destruct capture; [by constructor|constructor].
  - by apply (IH _ Hlen r eq_refl).
Qed.

Lemma white_space_line_ignored line :
  Forall (fun c => is_white_space c = true) line -> ignored line.
Proof.
  intros Hws. right. intros Hin.
  assert (Hname : field_name line = line).
  { clear Hin. induction Hws as [|c l Hc _ IH]; simpl; [done|].
    destruct (N.eqb_spec c COLON) as [->|_]; [discriminate Hc|by f_equal]. }
  rewrite Hname in Hin. simpl in Hin.
  destruct Hin as [<-|[<-|[<-|[<-|[]]]]];
    inversion Hws as [|? ? Hc _]; discriminate Hc.
Qed.

(** The parser on a record of white space. *)
Lemma parse_blank part :
  forallb is_white_space part = true ->
  Parser._parseEventChunk part
  = match part with
    | [] => None
    | _ :: _ => Some plain_message
    end.
Proof.
  intros Hws. destruct part as [|c rest]; [done|]. unfold Parser._parseEventChunk.
  rewrite parse_lines_ignored; [done|].
  apply forallb_Forall in Hws.
  eapply Forall_impl; [apply (split_Forall _ _ _ _ Hws)|].
  intros line Hline. by apply white_space_line_ignored.
Qed.

End ParserFacts.

(** ** The dispatcher *)

Section DispatcherFacts.
Context {World : Type} (behave : nat -> SSEvent -> World -> World * bool).

Lemma call_spec cb ev (s : Sys) :
  exists w ev',
    call behave cb ev s
    = (Normal ev', mkSys (obj s) w (log s ++ [Invoked cb ev']))
    /\ ev_type ev' = ev_type ev
    /\ (ev_defaultPrevented ev = true -> ev_defaultPrevented ev' = true).
Proof.
  unfold call.
  destruct (match cb with
            | noop => (world s, false)
            | Fn f => behave f ev (world s)
            end) as [w [|]].
  - exists w, (preventDefault ev). repeat split; try done.
    simpl. by intros ->.
  - by exists w, ev.
Qed.

(** Which listeners [every] calls, and what it returns. *)
Lemma every_spec callbacks ev (s : Sys) :
  exists b w es,
    every behave callbacks ev s
    = (Normal b, mkSys (obj s) w (log s ++ es))
    /\ Forall is_invocation es
    /\ callbacks_of es `prefix_of` callbacks
    /\ (b = true <-> Forall (fun e => cancelled e = false) es)
    /\ (b = true -> callbacks_of es = callbacks)
    /\ (forall i e, es !! i = Some e -> cancelled e = true -> S i = length es).
Proof.
  revert ev s. induction callbacks as [|cb rest IH]; intros ev s.
  - exists true, (world s), []. simpl. unfold ret. rewrite app_nil_r.
    destruct s. repeat split; done.
  - simpl. unfold bind.
    destruct (call_spec cb ev s) as (w1 & ev1 & -> & _ & _).
    destruct (ev_defaultPrevented ev1) eqn:Hflag.
    + exists false, w1, [Invoked cb ev1]. unfold ret. repeat split; try done.
      * by repeat constructor.
      * by exists rest.
      * intros Hall. inversion Hall; subst. simpl in *. congruence.
      * intros [|i] e Hi Hc; [done|]. by rewrite lookup_cons, lookup_nil in Hi.
    + destruct (IH ev1 (mkSys (obj s) w1 (log s ++ [Invoked cb ev1])))
        as (b & w & es & -> & Hinv & Hpre & Hb & Hall & Hlast).
      exists b, w, (Invoked cb ev1 :: es). simpl.
      rewrite <- app_assoc. repeat split; try done.
      * by constructor.
      * by apply prefix_cons.
      * intros Hbt. constructor; [done|]. by apply Hb.
      * intros HF. inversion HF; subst. by apply Hb.
      * intros Hbt. f_equal. by apply Hall.
      * intros [|i] e Hi Hc; simpl in *.
        -- simplify_eq. simpl in Hc. congruence.
        -- f_equal. by apply (Hlast i e).
Qed.

(** What [dispatchEvent] does with an event: it logs the event, calls
    the primary handler when there is one, and then, unless the handler
    left the event cancelled, the listeners of the type. *)
Lemma dispatchEvent_detail ev (s : Sys) :
  exists r w es,
    dispatchEvent behave (Some ev) s
    = (r, mkSys (obj s) w
            (log s ++ Dispatched (readyState (obj s)) (set_source ev) :: es))
    /\ Forall is_invocation es
    /\ match get_property (listeners (obj s)) (ev_type ev) with
       | Own l =>
           exists b, r = Normal b
           /\ callbacks_of es `prefix_of` (handler_of (obj s) (ev_type ev) ++ l)
           /\ (b = true <-> Forall (fun e => cancelled e = false) es)
           /\ (b = true -> callbacks_of es = handler_of (obj s) (ev_type ev) ++ l)
           /\ (forall i e, es !! i = Some e -> cancelled e = true ->
                          S i = length es)
       | Undefined => exists b, r = Normal b
       | Inherited => True
       end.
Proof.
  unfold dispatchEvent, handler_of, bind, this, emit, ret. simpl.
  destruct (handlers (obj s) !! ev_type ev) as [h|] eqn:Hh; simpl.
  - destruct (call_spec h (set_source ev)
                (mkSys (obj s) (world s)
                   (log s ++ [Dispatched (readyState (obj s)) (set_source ev)])))
      as (w1 & ev1 & -> & Hty & _).
    simpl. rewrite <- app_assoc. simpl. rewrite Hty. simpl.
    destruct (ev_defaultPrevented ev1) eqn:Hflag.
    + exists (Normal false), w1, [Invoked h ev1]. split; [done|].
      split; [by repeat constructor|].
      destruct (get_property _ _); [|done|by exists false].
      exists false. repeat split; try done.
      * by exists l.
      * intros Hall. inversion Hall; subst. simpl in *. congruence.
      * intros [|i] e Hi Hc; [done|]. by rewrite lookup_cons, lookup_nil in Hi.
    + cbn [obj]. destruct (get_property (listeners (obj s)) (ev_type ev)) as [l| |].
      * destruct (every_spec l ev1
                    (mkSys (obj s) w1
                       (log s ++ [Dispatched (readyState (obj s)) (set_source ev);
                                  Invoked h ev1])))
          as (b & w & es & -> & Hinv & Hpre & Hb & Hall & Hlast).
        exists (Normal b), w, (Invoked h ev1 :: es). simpl.
        rewrite <- app_assoc. simpl. repeat split; try done.
        { by constructor. }
        exists b. repeat split; try done.
        -- by apply prefix_cons.
        -- intros Hbt. constructor; [done|]. by apply Hb.
        -- intros HF. inversion HF; subst. by apply Hb.
        -- intros Hbt. f_equal. by apply Hall.
        -- intros [|i] e Hi Hc; simpl in *.
           ++ simplify_eq. simpl in Hc. congruence.
           ++ f_equal. by apply (Hlast i e).
      * exists (Throw TypeError), w1, [Invoked h ev1]. unfold throw.
        repeat split; try done. by repeat constructor.
      * exists (Normal true), w1, [Invoked h ev1].
        repeat split; try done; [by repeat constructor|by exists true].
  - cbn [obj]. destruct (get_property (listeners (obj s)) (ev_type ev)) as [l| |].
    + destruct (every_spec l (set_source ev)
                  (mkSys (obj s) (world s)
                     (log s ++ [Dispatched (readyState (obj s)) (set_source ev)])))
        as (b & w & es & -> & Hinv & Hpre & Hb & Hall & Hlast).
      exists (Normal b), w, es. simpl. rewrite <- app_assoc. simpl.
      repeat split; try done. by exists b.
    + exists (Throw TypeError), (world s), []. unfold throw. simpl.
      repeat split; done.
    + exists (Normal true), (world s), []. simpl.
      repeat split; try done. by exists true.
Qed.

Lemma dispatchEvent_ok ev (s : Sys) :
  dispatchable (obj s) (ev_type ev) ->
  exists b w es,
    dispatchEvent behave (Some ev) s
    = (Normal b, mkSys (obj s) w
                   (log s ++ Dispatched (readyState (obj s)) (set_source ev) :: es))
    /\ Forall is_invocation es.
Proof.
  intros Hd. destruct (dispatchEvent_detail ev s) as (r & w & es & Heq & Hinv & Hcase).
  unfold dispatchable in Hd.
  destruct (get_property (listeners (obj s)) (ev_type ev)); [| done |].
  - destruct Hcase as (b & -> & _). by exists b, w, es.
  - destruct Hcase as (b & ->). by exists b, w, es.
Qed.

Lemma dispatchable_not_inherited o type :
  inherited type = false -> dispatchable o type.
Proof.
  unfold dispatchable, get_property. intros ->.
  by destruct (listeners o !! type).
Qed.

End DispatcherFacts.

(** ** The connection state machine *)

Section StateMachineFacts.
Context {World : Type} (behave : nat -> SSEvent -> World -> World * bool).

Lemma _setReadyState_spec state (s : Sys) :
  exists w es,
    _setReadyState behave state s
    = (Normal tt, mkSys (set_readyState state (obj s)) w
                    (log s ++ Dispatched state (ReadyStateEvent state) :: es))
    /\ Forall is_invocation es.
Proof.
  unfold _setReadyState, bind, update, ret.
  destruct (dispatchEvent_ok behave
              (set_event_readyState state (CustomEvent (str "readystatechange")))
              (mkSys (set_readyState state (obj s)) (world s) (log s)))
    as (b & w & es & -> & Hinv).
  { by apply dispatchable_not_inherited. }
  by exists w, es.
Qed.

Lemma close_noop (s : Sys) :
  readyState (obj s) = CLOSED \/ xhr (obj s) = false ->
  close behave s = (Normal tt, s).
Proof.
  intros H. unfold close, bind, this, ret.
  destruct H as [-> | ->]; simpl; [done|].
  by rewrite orb_true_r.
Qed.

Lemma close_spec (s : Sys) :
  readyState (obj s) <> CLOSED -> xhr (obj s) = true ->
  exists w es,
    close behave s
    = (Normal tt,
       mkSys (set_readyState CLOSED (set_xhr false (obj s))) w
         (log s ++ Transport XhrAbort
                :: Dispatched CLOSED (ReadyStateEvent CLOSED) :: es))
    /\ Forall is_invocation es.
Proof.
  intros Hrs Hx. unfold close, bind, this, emit, update, ret. simpl.
  rewrite Hx. apply Z.eqb_neq in Hrs. rewrite Hrs. simpl.
  destruct (_setReadyState_spec CLOSED
              (mkSys (set_xhr false (obj s)) (world s)
                 (log s ++ [Transport XhrAbort])))
    as (w & es & -> & Hinv).
  exists w, es. simpl. by rewrite <- app_assoc.
Qed.

(** After [close], whichever way it went. *)
Lemma close_cases (s : Sys) :
  exists w es,
    close behave s = (Normal tt, mkSys (obj (snd (close behave s))) w (log s ++ es))
    /\ (readyState (obj s) = CLOSED \/ xhr (obj s) = false ->
        es = [] /\ obj (snd (close behave s)) = obj s)
    /\ (readyState (obj s) <> CLOSED -> xhr (obj s) = true ->
        obj (snd (close behave s)) = set_readyState CLOSED (set_xhr false (obj s))
        /\ exists es', es = Transport XhrAbort
                          :: Dispatched CLOSED (ReadyStateEvent CLOSED) :: es'
                       /\ Forall is_invocation es').
Proof.
  destruct (decide (readyState (obj s) = CLOSED)) as [Hc|Hc].
  - rewrite (close_noop s) by auto. exists (world s), []. simpl.
    rewrite app_nil_r. destruct s. split; [done|]. split; [done|].
    intros Hn. done.
  - destruct (xhr (obj s)) eqn:Hx.
    + destruct (close_spec s Hc Hx) as (w & es & -> & Hinv).
      exists w, (Transport XhrAbort :: Dispatched CLOSED (ReadyStateEvent CLOSED) :: es).
      simpl. split; [done|]. split.
      * intros [?|?]; done.
      * intros _ _. split; [done|]. by exists es.
    + rewrite (close_noop s) by auto. exists (world s), []. simpl.
      rewrite app_nil_r. destruct s. split; [done|]. split; [done|].
      intros _ Hn. done.
Qed.

Lemma dispatched_app es1 es2 :
  dispatched (es1 ++ es2) = dispatched es1 ++ dispatched es2.
Proof. apply omap_app. Qed.

Lemma dispatched_cons rs ev es :
  dispatched (Dispatched rs ev :: es) = ev :: dispatched es.
Proof. done. Qed.

Lemma dispatched_invocations es :
  Forall is_invocation es -> dispatched es = [].
Proof.
  induction 1 as [|e es He _ IH]; [done|].
  destruct e; simpl in *; done.
Qed.

Lemma _onStreamFailure_spec e (s : Sys) :
  exists w es1 es2,
    _onStreamFailure behave e s
    = (Normal tt,
       mkSys (obj (snd (_onStreamFailure behave e s))) w
         (log s ++ Dispatched (readyState (obj s)) (ErrorEvent (response e))
                :: es1 ++ es2))
    /\ Forall is_invocation es1
    /\ (readyState (obj s) = CLOSED \/ xhr (obj s) = false ->
        es2 = [] /\ obj (snd (_onStreamFailure behave e s)) = obj s)
    /\ (readyState (obj s) <> CLOSED -> xhr (obj s) = true ->
        obj (snd (_onStreamFailure behave e s))
        = set_readyState CLOSED (set_xhr false (obj s))
        /\ exists es', es2 = Transport XhrAbort
                           :: Dispatched CLOSED (ReadyStateEvent CLOSED) :: es'
                        /\ Forall is_invocation es').
Proof.
  unfold _onStreamFailure, bind.
  destruct (dispatchEvent_ok behave
              (set_data (JStr (response e)) (CustomEvent (str "error"))) s)
    as (b & w1 & es1 & -> & Hinv1).
  { by apply dispatchable_not_inherited. }
  set (s1 := mkSys (obj s) w1 _).
  destruct (close_cases s1) as (w & es2 & Hclose & Hno & Hyes).
  rewrite Hclose. simpl. exists w, es1, es2.
  rewrite <- app_assoc. simpl. done.
Qed.

Lemma _onStreamAbort_spec (s : Sys) :
  exists w es1 es2,
    _onStreamAbort behave s
    = (Normal tt,
       mkSys (obj (snd (_onStreamAbort behave s))) w
         (log s ++ Dispatched (readyState (obj s)) AbortEvent :: es1 ++ es2))
    /\ Forall is_invocation es1
    /\ (readyState (obj s) = CLOSED \/ xhr (obj s) = false ->
        es2 = [] /\ obj (snd (_onStreamAbort behave s)) = obj s)
    /\ (readyState (obj s) <> CLOSED -> xhr (obj s) = true ->
        obj (snd (_onStreamAbort behave s))
        = set_readyState CLOSED (set_xhr false (obj s))
        /\ exists es', es2 = Transport XhrAbort
                           :: Dispatched CLOSED (ReadyStateEvent CLOSED) :: es'
                        /\ Forall is_invocation es').
Proof.
  unfold _onStreamAbort, bind.
  destruct (dispatchEvent_ok behave (CustomEvent (str "abort")) s)
    as (b & w1 & es1 & -> & Hinv1).
  { by apply dispatchable_not_inherited. }
  set (s1 := mkSys (obj s) w1 _).
  destruct (close_cases s1) as (w & es2 & Hclose & Hno & Hyes).
  rewrite Hclose. simpl. exists w, es1, es2.
  rewrite <- app_assoc. simpl. done.
Qed.

(** The callback of [forEach] on one segment. *)
Lemma dispatch_part_spec part (s : Sys) :
  exists r w es,
    dispatch_part behave part s = (r, mkSys (obj s) w (log s ++ es))
    /\ dispatched es = map set_source (option_list (record_event part))
    /\ ((forall ev, record_event part = Some ev ->
                   dispatchable (obj s) (ev_type ev)) -> r = Normal tt).
Proof.
  unfold dispatch_part, record_event. rewrite trim_length_pos.
  destruct (forallb is_white_space part); simpl.
  - exists (Normal tt), (world s), []. unfold ret. rewrite app_nil_r.
    by destruct s.
  - destruct (Parser._parseEventChunk part) as [ev|] eqn:Hev.
    + unfold bind.
      destruct (dispatchEvent_detail behave ev s) as (r & w & es & -> & Hinv & Hcase).
      exists (match r with Normal _ => Normal tt | Throw x => Throw x end), w,
             (Dispatched (readyState (obj s)) (set_source ev) :: es).
      split; [by destruct r|]. split.
      * simpl. by rewrite (dispatched_invocations es).
      * intros Hd. specialize (Hd ev eq_refl). unfold dispatchable in Hd.
        destruct (get_property (listeners (obj s)) (ev_type ev)); [|done|].
        -- by destruct Hcase as (b & -> & _).
        -- by destruct Hcase as (b & ->).
    + exists (Normal tt), (world s), []. unfold bind, dispatchEvent, ret.
      rewrite app_nil_r. by destruct s.
Qed.

Lemma forEach_parts_spec parts (s : Sys) :
  exists r w es,
    forEach (dispatch_part behave) parts s = (r, mkSys (obj s) w (log s ++ es))
    /\ (Forall (fun part => forall ev, record_event part = Some ev ->
                                      dispatchable (obj s) (ev_type ev)) parts ->
        r = Normal tt
        /\ dispatched es = map set_source (omap record_event parts)).
Proof.
  revert s. induction parts as [|part parts IH]; intros s.
  - exists (Normal tt), (world s), []. simpl. unfold ret. rewrite app_nil_r.
    by destruct s.
  - simpl. unfold bind.
    destruct (dispatch_part_spec part s) as (r1 & w1 & es1 & -> & Hd1 & Hr1).
    destruct r1 as [[]|x].
    + destruct (IH (mkSys (obj s) w1 (log s ++ es1)))
        as (r & w & es & -> & Hrest).
      exists r, w, (es1 ++ es). simpl. rewrite <- app_assoc. split; [done|].
      intros Hall. inversion Hall as [|? ? Hp Hps]; subst.
      destruct (Hrest Hps) as [-> Hd]. split; [done|].
      rewrite dispatched_app, Hd1, Hd.
      destruct (record_event part); done.
    + exists (Throw x), w1, es1. split; [done|].
      intros Hall. inversion Hall as [|? ? Hp Hps]; subst.
      specialize (Hr1 Hp). done.
Qed.

(** A progress notification with status 200 while the instance holds its
    request: the events of the life cycle first ([es0]), then the events
    of the segments that are closed ([es]). *)
Lemma _onStreamProgress_live e (s : Sys) :
  xhr (obj s) = true -> status e = 200%Z ->
  let data := substring_from (progress (obj s)) (responseText e) in
  let parts := split record_separator true (chunk (obj s) ++ data) in
  let o1 := if (readyState (obj s) =? CONNECTING)%Z
            then set_readyState OPEN (obj s) else obj s in
  let o2 := set_progress (progress (obj s) + length data) o1 in
  exists r w es0 es,
    _onStreamProgress behave e s
    = (r, mkSys (match r with
                 | Normal _ => set_chunk (List.last parts []) o2
                 | Throw _ => o2
                 end) w (log s ++ es0 ++ es))
    /\ (if (readyState (obj s) =? CONNECTING)%Z
        then exists i1 i2,
               es0 = Dispatched CONNECTING OpenEvent
                       :: i1 ++ Dispatched OPEN (ReadyStateEvent OPEN) :: i2
               /\ Forall is_invocation i1 /\ Forall is_invocation i2
        else es0 = [])
    /\ (Forall (fun part => forall ev, record_event part = Some ev ->
                                      dispatchable (obj s) (ev_type ev))
               (removelast parts) ->
        r = Normal tt
        /\ dispatched es = map set_source (omap record_event (removelast parts))).
Proof.
  intros Hx Hst. cbv zeta.
  unfold _onStreamProgress, pop. unfold bind at 1. unfold this at 1.
  cbn [obj]. rewrite Hx, Hst. cbn [negb]. change (200 =? 200)%Z with true.
  cbn [negb]. unfold bind, this, update, ret.
  destruct (readyState (obj s) =? CONNECTING)%Z eqn:Hrs.
  - apply Z.eqb_eq in Hrs.
    destruct (dispatchEvent_ok behave (CustomEvent (str "open")) s)
      as (b & w1 & i1 & -> & Hi1).
    { by apply dispatchable_not_inherited. }
    destruct (_setReadyState_spec OPEN
                (mkSys (obj s) w1
                   (log s ++ Dispatched (readyState (obj s))
                               (set_source (CustomEvent (str "open"))) :: i1)))
      as (w2 & i2 & -> & Hi2).
    cbn [obj world log].
    change (chunk (set_readyState OPEN (obj s))) with (chunk (obj s)).
    change (progress (set_readyState OPEN (obj s))) with (progress (obj s)).
    destruct (forEach_parts_spec
                (removelast (split record_separator true
                   (chunk (obj s)
                    ++ substring_from (progress (obj s)) (responseText e))))
                (mkSys (set_progress
                          (progress (obj s)
                           + length (substring_from (progress (obj s)) (responseText e)))
                          (set_readyState OPEN (obj s))) w2
                   ((log s ++ Dispatched (readyState (obj s))
                               (set_source (CustomEvent (str "open"))) :: i1)
                    ++ Dispatched OPEN (ReadyStateEvent OPEN) :: i2)))
      as (r & w & es & -> & Hparts).
    exists r, w,
      (Dispatched CONNECTING OpenEvent
         :: i1 ++ Dispatched OPEN (ReadyStateEvent OPEN) :: i2), es.
    simpl. rewrite Hrs. split.
    + destruct r as [[]|x]; simpl; repeat rewrite <- app_assoc; done.
    + split; [by exists i1, i2|done].
  - destruct (forEach_parts_spec
                (removelast (split record_separator true
                   (chunk (obj s)
                    ++ substring_from (progress (obj s)) (responseText e))))
                (mkSys (set_progress
                          (progress (obj s)
                           + length (substring_from (progress (obj s)) (responseText e)))
                          (obj s)) (world s) (log s)))
      as (r & w & es & -> & Hparts).
    exists r, w, [], es. simpl. split.
    + by destruct r as [[]|x].
    + done.
Qed.

Lemma _onStreamProgress_no_handle e (s : Sys) :
  xhr (obj s) = false -> _onStreamProgress behave e s = (Normal tt, s).
Proof. intros Hx. unfold _onStreamProgress, bind, this, ret. by rewrite Hx. Qed.

Lemma _checkStreamClosed_no_handle e (s : Sys) :
  xhr (obj s) = false -> _checkStreamClosed behave e s = (Normal tt, s).
Proof. intros Hx. unfold _checkStreamClosed, bind, this, ret. by rewrite Hx. Qed.

(** Once the request is gone and nothing is pending, a notification
    changes no field of the instance and dispatches no ["open"]. *)
Lemma notify_no_handle n (s : Sys) :
  xhr (obj s) = false -> chunk (obj s) = [] ->
  exists w es,
    notify behave s n = mkSys (obj s) w (log s ++ es)
    /\ Forall (fun ev => ev_type ev <> str "open") (dispatched es).
Proof.
  intros Hx Hc. unfold notify.
  destruct n as [e|e|e|e|]; cbn [listener_of].
  - rewrite _onStreamProgress_no_handle by done.
    exists (world s), []. rewrite app_nil_r. by destruct s.
  - unfold _onStreamLoaded. unfold bind at 1.
    rewrite _onStreamProgress_no_handle by done.
    unfold bind, this, update, ret. cbn [obj]. rewrite Hc.
    cbn [Parser._parseEventChunk dispatchEvent ret snd obj world log].
    exists (world s), []. rewrite app_nil_r.
    destruct s as [o w l]. cbn [obj] in *. f_equal.
    destruct o. cbn in *. by subst.
  - rewrite _checkStreamClosed_no_handle by done.
    exists (world s), []. rewrite app_nil_r. by destruct s.
  - destruct (_onStreamFailure_spec e s) as (w & es1 & es2 & Heq & Hinv & Hno & _).
    destruct (Hno (or_intror Hx)) as [-> Hobj]. rewrite Heq, Hobj.
    exists w. eexists. split; [done|]. rewrite app_nil_r.
    rewrite dispatched_cons, (dispatched_invocations es1) by done.
    by repeat constructor.
  - destruct (_onStreamAbort_spec s) as (w & es1 & es2 & Heq & Hinv & Hno & _).
    destruct (Hno (or_intror Hx)) as [-> Hobj]. rewrite Heq, Hobj.
    exists w. eexists. split; [done|]. rewrite app_nil_r.
    rewrite dispatched_cons, (dispatched_invocations es1) by done.
    by repeat constructor.
Qed.

Lemma run_no_handle ns (s : Sys) :
  xhr (obj s) = false -> chunk (obj s) = [] ->
  exists w es,
    run behave s ns = mkSys (obj s) w (log s ++ es)
    /\ Forall (fun ev => ev_type ev <> str "open") (dispatched es).
Proof.
  revert s. induction ns as [|n ns IH]; intros s Hx Hc.
  - exists (world s), []. rewrite app_nil_r. by destruct s.
  - cbn [run fold_left]. fold (run behave (notify behave s n) ns).
    destruct (notify_no_handle n s Hx Hc) as (w1 & es1 & -> & Hopen1).
    destruct (IH (mkSys (obj s) w1 (log s ++ es1)) Hx Hc)
      as (w & es & -> & Hopen).
    exists w, (es1 ++ es). cbn [obj log]. rewrite <- app_assoc.
    split; [done|]. rewrite dispatched_app. by apply Forall_app.
Qed.

(** Without the request the notifications of [_onStreamProgress] and
    [_checkStreamClosed] leave the whole system as it is. *)
Lemma run_void ns (s : Sys) :
  xhr (obj s) = false ->
  Forall progress_or_readystatechange ns ->
  run behave s ns = s.
Proof.
  intros Hx Hns. induction Hns as [|n ns Hn _ IH]; [done|].
  cbn [run fold_left]. fold (run behave (notify behave s n) ns).
  assert (notify behave s n = s) as ->; [|done].
  unfold notify. destruct n as [e|e|e|e|]; try done; cbn [listener_of].
  - by rewrite _onStreamProgress_no_handle.
  - by rewrite _checkStreamClosed_no_handle.
Qed.

Lemma forEach_emit {A} (f : A -> Entry) (l : list A) (s : @Sys World) :
  forEach (fun a => emit (f a)) l s
  = (Normal tt, mkSys (obj s) (world s) (log s ++ map f l)).
Proof.
  revert s. induction l as [|a l IH]; intros s; cbn [forEach map].
  - unfold ret. rewrite app_nil_r. by destruct s.
  - unfold bind, emit at 1. rewrite IH. cbn [obj world log].
    by rewrite <- app_assoc.
Qed.

(** [stream] when the instance holds no request: a new attempt. *)
Lemma stream_spec (s : Sys) :
  xhr (obj s) = false ->
  exists w es,
    stream behave s
    = (Normal tt,
       mkSys (set_xhr true (set_readyState CONNECTING (obj s))) w (log s ++ es)).
Proof.
  intros Hx. unfold stream. unfold bind at 1. unfold this at 1.
  cbn [obj]. rewrite Hx. unfold bind at 1.
  destruct (_setReadyState_spec CONNECTING s) as (w & es & -> & _).
  unfold bind, update, this. cbn [obj world log].
  unfold emit at 1. cbn [obj world log].
  rewrite forEach_emit. unfold emit. cbn [obj world log].
  exists w. eexists. repeat rewrite <- app_assoc. reflexivity.
Qed.

End StateMachineFacts.

(** ** The listener registry *)

Section RegistryFacts.
Context {World : Type}.
Implicit Types s : @Sys World.

Lemma addEventListener_spec type cb s :
  addEventListener type cb s =
  match get_property (listeners (obj s)) type with
  | Own l =>
      if bool_decide (cb ∈ l) then (Normal tt, s)
      else (Normal tt,
            mkSys (set_listeners (<[type := l ++ [cb]]> (listeners (obj s))) (obj s))
                  (world s) (log s))
  | Undefined =>
      (Normal tt,
       mkSys (set_listeners (<[type := [cb]]> (listeners (obj s))) (obj s))
             (world s) (log s))
  | Inherited => (Throw TypeError, s)
  end.
Proof.
  unfold addEventListener, bind, this, update, ret, throw. cbn [obj world log].
  destruct (get_property (listeners (obj s)) type) as [l| |] eqn:Hp.
  - rewrite Hp. case_bool_decide; [done|]. done.
  - by rewrite Hp.
  - cbn [obj listeners set_listeners]. unfold get_property.
    rewrite lookup_insert_eq. rewrite bool_decide_eq_false_2 by apply not_elem_of_nil.
    cbn [obj world log listeners set_listeners app].
    by rewrite insert_insert_eq.
Qed.

Lemma removeEventListener_spec type cb s :
  removeEventListener type cb s =
  match get_property (listeners (obj s)) type with
  | Own l =>
      match filter (fun x => x ≠ cb) l with
      | [] => (Normal tt,
               mkSys (set_listeners (delete type (listeners (obj s))) (obj s))
                     (world s) (log s))
      | filtered =>
          (Normal tt,
           mkSys (set_listeners (<[type := filtered]> (listeners (obj s))) (obj s))
                 (world s) (log s))
      end
  | Undefined => (Normal tt, s)
  | Inherited => (Throw TypeError, s)
  end.
Proof.
  unfold removeEventListener, bind, this, update, ret, throw.
  destruct (get_property (listeners (obj s)) type) as [l| |]; [|done|done].
  by destruct (filter (fun x => x ≠ cb) l).
Qed.

Lemma get_property_Own ls type l :
  get_property ls type = Own l <-> ls !! type = Some l.
Proof.
  unfold get_property. destruct (ls !! type).
  - split; intros H; by simplify_eq.
  - destruct (inherited type); split; intros H; done.
Qed.

Lemma registry_ok_insert ls type l :
  registry_ok ls -> NoDup l -> l <> [] -> registry_ok (<[type := l]> ls).
Proof.
  intros Hok Hnd Hne type' l' Hl.
  destruct (decide (type = type')) as [->|Hneq].
  - rewrite lookup_insert_eq in Hl. by simplify_eq.
  - rewrite lookup_insert_ne in Hl by done. by apply (Hok type').
Qed.

Lemma registry_ok_delete ls type :
  registry_ok ls -> registry_ok (delete type ls).
Proof.
  intros Hok type' l' Hl.
  destruct (decide (type = type')) as [->|Hneq].
  - by rewrite lookup_delete_eq in Hl.
  - rewrite lookup_delete_ne in Hl by done. by apply (Hok type').
Qed.

(** One call keeps the registry well formed. *)
Lemma registry_call_ok c s :
  registry_ok (listeners (obj s)) ->
  registry_ok (listeners (obj (snd (registry_call c s)))).
Proof.
  intros Hok. destruct c as [type cb|type cb]; cbn [registry_call].
  - rewrite addEventListener_spec.
    destruct (get_property (listeners (obj s)) type) as [l| |] eqn:Hp; [| done |].
    + apply get_property_Own in Hp. destruct (Hok _ _ Hp) as [Hnd Hne].
      case_bool_decide; [done|]. cbn [snd obj listeners set_listeners].
      apply registry_ok_insert; [done| |by destruct l].
      apply NoDup_app. split; [done|]. split; [|apply NoDup_singleton].
      intros x Hx Hx'. apply list_elem_of_singleton in Hx' as ->. done.
    + cbn [snd obj listeners set_listeners].
      apply registry_ok_insert; [done|apply NoDup_singleton|done].
  - rewrite removeEventListener_spec.
    destruct (get_property (listeners (obj s)) type) as [l| |] eqn:Hp; [| done | done].
    apply get_property_Own in Hp. destruct (Hok _ _ Hp) as [Hnd Hne].
    destruct (filter (fun x => x ≠ cb) l) as [|x xs] eqn:Hf;
      cbn [snd obj listeners set_listeners].
    + by apply registry_ok_delete.
    + apply registry_ok_insert; [done| |done].
      rewrite <- Hf. by apply NoDup_filter.
Qed.

Lemma call_all_ok calls s :
  registry_ok (listeners (obj s)) ->
  registry_ok (listeners (obj (call_all s calls))).
Proof.
  revert s. induction calls as [|c calls IH]; intros s Hok; [done|].
  cbn [call_all fold_left]. apply IH. by apply registry_call_ok.
Qed.

End RegistryFacts.

(** ** The chunk assembler *)

Section AssemblerFacts.
Context {World : Type} (behave : nat -> SSEvent -> World -> World * bool).

Lemma last_app_nonempty {A} (l l' : list A) d :
  l' <> [] -> List.last (l ++ l') d = List.last l' d.
Proof.
  intros Hne. induction l as [|a l IH]; [done|].
  cbn [app]. destruct (l ++ l') eqn:E; [|by rewrite <- IH].
  apply app_eq_nil in E as [_ ->]. done.
Qed.

Lemma split_parts_tail text :
  split record_separator true text = complete_parts text ++ [pending_tail text].
Proof.
  unfold complete_parts, pending_tail.
  apply app_removelast_last, split_nonempty.
Qed.

(** The text has grown by [delta]: the closed segments stay, those that
    the split of the pending tail with [delta] closes come after them. *)
Lemma complete_parts_app text delta :
  complete_parts (text ++ delta)
  = complete_parts text ++ complete_parts (pending_tail text ++ delta).
Proof.
  unfold complete_parts at 1. rewrite split_records_app.
  rewrite removelast_app by apply split_nonempty. done.
Qed.

Lemma pending_tail_app text delta :
  pending_tail (text ++ delta) = pending_tail (pending_tail text ++ delta).
Proof.
  unfold pending_tail at 1. rewrite split_records_app.
  by rewrite last_app_nonempty by apply split_nonempty.
Qed.

Lemma complete_parts_pending_tail text :
  complete_parts (pending_tail text) = [].
Proof.
  unfold complete_parts. unfold pending_tail. by rewrite split_records_last.
Qed.

Lemma pending_tail_idem text : pending_tail (pending_tail text) = pending_tail text.
Proof.
  unfold pending_tail at 1. unfold pending_tail. by rewrite split_records_last.
Qed.

Lemma lifecycle_after_open state : lifecycle (after_open state) = [].
Proof.
  unfold lifecycle, after_open.
  destruct (state =? CONNECTING)%Z eqn:E; [done|by rewrite E].
Qed.

(** One progress notification of a stream that is read so far as
    [text0] and has grown to [text]. *)
Lemma progress_step (s : Sys) text0 text :
  xhr (obj s) = true ->
  progress (obj s) = length text0 ->
  chunk (obj s) = pending_tail text0 ->
  text0 `prefix_of` text ->
  all_dispatchable (obj s) (complete_parts text) ->
  let s' := notify behave s (progress_event (mkXhr 200 text 3)) in
  exists es parts,
    log s' = log s ++ es
    /\ complete_parts text = complete_parts text0 ++ parts
    /\ dispatched es = lifecycle (readyState (obj s)) ++ map set_source (records_of parts)
    /\ xhr (obj s') = true
    /\ progress (obj s') = length text
    /\ chunk (obj s') = pending_tail text
    /\ listeners (obj s') = listeners (obj s)
    /\ readyState (obj s') = after_open (readyState (obj s)).
Proof.
  intros Hx Hp Hc [delta ->] Hall s'. subst s'. unfold notify. cbn [listener_of].
  destruct (_onStreamProgress_live behave (mkXhr 200 (text0 ++ delta) 3) s Hx eq_refl)
    as (r & w & es0 & es & Heq & Hlife & Hparts).
  cbn [responseText] in *. unfold substring_from in *.
  rewrite Hp, drop_app_length, Hc in *.
  fold (complete_parts (pending_tail text0 ++ delta)) in *.
  fold (pending_tail (pending_tail text0 ++ delta)) in *.
  rewrite complete_parts_app in Hall. apply Forall_app in Hall as [_ Hall].
  destruct (Hparts Hall) as [-> Hd]. rewrite Heq. cbn [snd obj log].
  exists (es0 ++ es), (complete_parts (pending_tail text0 ++ delta)).
  split; [done|]. split; [apply complete_parts_app|]. split.
  - rewrite dispatched_app, Hd. f_equal. unfold lifecycle.
    destruct (readyState (obj s) =? CONNECTING)%Z; [|by subst].
    destruct Hlife as (i1 & i2 & -> & Hi1 & Hi2).
    rewrite dispatched_cons, dispatched_app, dispatched_cons.
    by rewrite (dispatched_invocations i1), (dispatched_invocations i2).
  - unfold after_open.
    rewrite (pending_tail_app text0 delta), length_app.
    destruct (readyState (obj s) =? CONNECTING)%Z;
      cbn [xhr progress chunk listeners readyState
           set_chunk set_progress set_readyState];
      rewrite ?Hx; done.
Qed.

Lemma all_dispatchable_listeners o o' parts :
  listeners o' = listeners o ->
  all_dispatchable o parts -> all_dispatchable o' parts.
Proof.
  intros Hl. unfold all_dispatchable, dispatchable. by rewrite Hl.
Qed.

Lemma complete_parts_prefix text0 text :
  text0 `prefix_of` text -> complete_parts text0 `prefix_of` complete_parts text.
Proof. intros [delta ->]. rewrite complete_parts_app. by eexists. Qed.

Lemma last_cons_default {A} (a : A) (l : list A) d :
  List.last (a :: l) d = List.last l a.
Proof.
  revert a d. induction l as [|b l IH]; intros a d; [done|].
  change (List.last (a :: b :: l) d) with (List.last (b :: l) d).
  by rewrite (IH b d), (IH b a).
Qed.

Lemma grows_last text0 texts :
  grows text0 texts -> text0 `prefix_of` List.last texts text0.
Proof.
  revert text0. induction texts as [|text texts IH]; intros text0 Hg; [done|].
  destruct Hg as [Hpre Hg]. specialize (IH text Hg).
  rewrite last_cons_default. by transitivity text.
Qed.

(** The progress notifications of a whole stream. *)
Lemma streaming_from texts (s : Sys) text0 :
  xhr (obj s) = true ->
  progress (obj s) = length text0 ->
  chunk (obj s) = pending_tail text0 ->
  grows text0 texts ->
  all_dispatchable (obj s) (complete_parts (List.last texts text0)) ->
  let text := List.last texts text0 in
  let s' := run behave s (progress_events texts) in
  exists es parts,
    log s' = log s ++ es
    /\ complete_parts text = complete_parts text0 ++ parts
    /\ dispatched es
       = match texts with
         | [] => []
         | _ :: _ => lifecycle (readyState (obj s))
         end ++ map set_source (records_of parts)
    /\ xhr (obj s') = true
    /\ progress (obj s') = length text
    /\ chunk (obj s') = pending_tail text
    /\ listeners (obj s') = listeners (obj s)
    /\ readyState (obj s')
       = match texts with
         | [] => readyState (obj s)
         | _ :: _ => after_open (readyState (obj s))
         end.
Proof.
  revert s text0. induction texts as [|text1 texts IH];
    intros s text0 Hx Hp Hc Hg Hall; cbv zeta.
  - exists [], []. cbn. rewrite !app_nil_r. done.
  - destruct Hg as [Hpre Hg].
    rewrite last_cons_default in *.
    assert (Hall1 : all_dispatchable (obj s) (complete_parts text1)).
    { destruct (complete_parts_prefix _ _ (grows_last _ _ Hg)) as [k Hk].
      unfold all_dispatchable in Hall. rewrite Hk in Hall.
      by apply Forall_app in Hall as [? _]. }
    destruct (progress_step s text0 text1 Hx Hp Hc Hpre Hall1)
      as (es1 & parts1 & Hlog1 & Hparts1 & Hd1 & Hx1 & Hp1 & Hc1 & Hl1 & Hrs1).
    cbn [progress_events map run fold_left].
    fold (progress_events texts).
    fold (run behave (notify behave s (progress_event (mkXhr 200 text1 3)))
              (progress_events texts)).
    set (s1 := notify behave s (progress_event (mkXhr 200 text1 3))) in *.
    destruct (IH s1 text1 Hx1 Hp1 Hc1 Hg
                (all_dispatchable_listeners _ _ _ Hl1 Hall))
      as (es & parts & Hlog & Hparts & Hd & Hx' & Hp' & Hc' & Hl' & Hrs').
    exists (es1 ++ es), (parts1 ++ parts).
    split; [by rewrite Hlog, Hlog1, app_assoc|].
    split; [by rewrite Hparts, Hparts1, app_assoc|].
    split.
    { rewrite dispatched_app, Hd1, Hd, Hrs1. unfold records_of.
      rewrite omap_app, map_app, <- app_assoc. f_equal. f_equal.
      destruct texts; [done|]. by rewrite lifecycle_after_open. }
    split; [done|]. split; [done|]. split; [done|].
    split; [by rewrite Hl'|].
    rewrite Hrs', Hrs1. destruct texts; [done|].
    unfold after_open. destruct (readyState (obj s) =? CONNECTING)%Z eqn:E; [done|].
    by rewrite E.
Qed.

(** The load notification of a stream that is read to its end and is not
    in state CONNECTING any more: the final parse pass. *)
Lemma completion (s : Sys) text :
  xhr (obj s) = true ->
  progress (obj s) = length text ->
  chunk (obj s) = pending_tail text ->
  readyState (obj s) <> CONNECTING ->
  (forall ev, Parser._parseEventChunk (pending_tail text) = Some ev ->
              dispatchable (obj s) (ev_type ev)) ->
  let s' := notify behave s (load_of text) in
  exists es,
    log s' = log s ++ es
    /\ dispatched es
       = map set_source (option_list (Parser._parseEventChunk (pending_tail text)))
    /\ chunk (obj s') = [].
Proof.
  intros Hx Hp Hc Hrs Hd s'.
  assert (Hres : exists o w es,
             _onStreamLoaded behave (mkXhr 200 text 4) s
             = (Normal tt, mkSys (set_chunk [] o) w (log s ++ es))
             /\ dispatched es
                = map set_source
                    (option_list (Parser._parseEventChunk (pending_tail text)))).
  { unfold _onStreamLoaded. unfold bind at 1.
    destruct (_onStreamProgress_live behave (mkXhr 200 text 4) s Hx eq_refl)
      as (r & w & es0 & es & Heq & Hlife & Hparts).
    cbn [responseText] in *. unfold substring_from in *.
    rewrite Hp, drop_all, app_nil_r, Hc in *.
    fold (complete_parts (pending_tail text)) in *.
    fold (pending_tail (pending_tail text)) in *.
    rewrite complete_parts_pending_tail, pending_tail_idem in *.
    apply Z.eqb_neq in Hrs. rewrite Hrs in *. subst es0.
    destruct (Hparts ltac:(constructor)) as [-> Hes]. rewrite Heq.
    unfold bind, this, update, ret. cbn [obj chunk set_chunk app].
    destruct (Parser._parseEventChunk (pending_tail text)) as [ev|] eqn:Hev.
    - match goal with
      | |- context [dispatchEvent behave (Some ev) ?s0] =>
          destruct (dispatchEvent_ok behave ev s0) as (b & w' & inv & -> & Hinv)
      end.
      { apply Hd. done. }
      cbn [obj world log]. do 3 eexists. split.
      + rewrite <- app_assoc. reflexivity.
      + rewrite dispatched_app, Hes, dispatched_cons.
        by rewrite (dispatched_invocations inv).
    - cbn [dispatchEvent ret obj world log].
      do 2 eexists. exists es. split; [reflexivity|]. by rewrite Hes. }
  destruct Hres as (o & w & es & Heq & Hes).
  subst s'. unfold notify, load_of. cbn [listener_of]. rewrite Heq.
  by exists es.
Qed.

Lemma separator_white_space d :
  In d record_separator -> forallb is_white_space d = true.
Proof. simpl. intros [<-|[<-|[<-|[]]]]; reflexivity. Qed.

Lemma records_of_cons part parts :
  records_of (part :: parts) = option_list (record_event part) ++ records_of parts.
Proof. unfold records_of. simpl. by destruct (record_event part). Qed.

(** The events of the segments of a text of records: one for each
    record, none for the separators. *)
Lemma records_of_stream_text records :
  Forall complete_record records ->
  exists events,
    records_of (flat_map (fun rs => [fst rs; snd rs]) records) = events
    /\ Forall2 (fun rs ev => Parser._parseEventChunk (fst rs) = Some ev)
               records events.
Proof.
  induction 1 as [|[r d] records (_ & _ & Hws & Hd) _ (events & Hev & Hall)].
  - by exists [].
  - cbn [fst snd] in *. cbn [flat_map app fst snd].
    rewrite !records_of_cons. unfold record_event at 1 2.
    rewrite Hws, (separator_white_space d Hd).
    destruct r as [|c r]; [done|]. cbn [Parser._parseEventChunk option_list app].
    eexists. split; [by rewrite Hev|]. by constructor.
Qed.

Lemma all_dispatchable_stream_text o records tail :
  Forall complete_record records ->
  all_dispatchable o (map fst records ++ [tail]) ->
  all_dispatchable o (flat_map (fun rs => [fst rs; snd rs]) records ++ [tail]).
Proof.
  unfold all_dispatchable. intros Hrec Hall.
  induction Hrec as [|[r d] records (_ & _ & _ & Hd) _ IH]; [done|].
  cbn [map flat_map app fst snd] in *.
  apply Forall_cons in Hall as [Hr Hall].
  constructor; [done|]. constructor; [|by apply IH].
  intros ev Hev. unfold record_event in Hev.
  by rewrite (separator_white_space d Hd) in Hev.
Qed.

Lemma grows_takes text k m :
  grows (take k text) (map (fun n => take n text) (seq (S k) m)).
Proof.
  revert k. induction m as [|m IH]; intros k; [done|].
  cbn [seq map grows]. split; [|apply IH].
  exists (take 1 (drop k text)).
  rewrite take_take_drop. f_equal. lia.
Qed.

(** One code unit at a time is a delivery in growing prefixes that ends
    with the whole text. *)
Lemma grows_prefixes text :
  grows [] (prefixes text)
  /\ (text <> [] -> prefixes text <> [] /\ List.last (prefixes text) [] = text).
Proof.
  split; [apply (grows_takes text 0)|].
  intros Hne. unfold prefixes.
  destruct (length text) as [|n] eqn:Hlen; [by destruct text|].
  split; [done|].
  rewrite seq_S, map_app. cbn [map]. rewrite last_last.
  change (1 + n)%nat with (S n). by rewrite <- Hlen, firstn_all.
Qed.

End AssemblerFacts.

(** ** A segment in its place *)

Section SegmentFacts.
Context {World : Type} (behave : nat -> SSEvent -> World -> World * bool).




End SegmentFacts.

(** * The claims of the specification *)

(** ** The connection state machine *)

(** C4.  On a progress notification with status 200 that finds the
    instance in state CONNECTING (the first one of an attempt), the
    ["open"] event is dispatched while the state is still CONNECTING,
    nothing but calls of its handler and listeners follows until the
    ["readystatechange"] event of OPEN is dispatched, and the state is OPEN
    when the notification has been handled. *)
Theorem open_precedes_OPEN {World : Type}
    (behave : nat -> SSEvent -> World -> World * bool)
    (e : XMLHttpRequest) (s : Sys) :
  xhr (obj s) = true ->
  readyState (obj s) = CONNECTING ->
  status e = 200%Z ->
  let s' := notify behave s (progress_event e) in
  exists i1 rest,
    log s' = log s ++ Dispatched CONNECTING OpenEvent
                   :: i1 ++ Dispatched OPEN (ReadyStateEvent OPEN) :: rest
    /\ Forall is_invocation i1
    /\ readyState (obj s') = OPEN.
Proof.
  intros Hx Hrs Hst s'. subst s'. unfold notify. cbn [listener_of].
  destruct (_onStreamProgress_live behave e s Hx Hst)
    as (r & w & es0 & es & -> & Hlife & _).
  rewrite Hrs in *. change (CONNECTING =? CONNECTING)%Z with true in *.
  destruct Hlife as (i1 & i2 & -> & Hi1 & Hi2).
  exists i1, (i2 ++ es). cbn [snd log obj]. split; [|split; [done|]].
  - f_equal. cbn [app]. f_equal. by rewrite <- !app_assoc.
  - by destruct r.
Qed.

(** The first progress notification of [new SSE("/events")]. *)
Lemma open_precedes_OPEN_witness :
  let s' := notify quiet connecting (progress_event (mkXhr 200 (str "data: x") 3)) in
  exists i1 rest,
    log s' = log connecting ++ Dispatched CONNECTING OpenEvent
                   :: i1 ++ Dispatched OPEN (ReadyStateEvent OPEN) :: rest
    /\ Forall is_invocation i1
    /\ readyState (obj s') = OPEN.
Proof.
  apply (open_precedes_OPEN quiet (mkXhr 200 (str "data: x") 3) connecting);
    reflexivity.
Defined.

(** C5.  On a progress notification with a status other than 200, while
    the instance holds its request: an ["error"] event whose data is the
    response text is dispatched first, in the state the notification
    found; then the instance closes (it aborts the request and dispatches
    the ["readystatechange"] event of CLOSED, unless it was CLOSED
    already), and the state is CLOSED.  When the notification found the
    state CONNECTING with nothing pending, no ["open"] event is dispatched
    then or on any later notification. *)
Theorem failure_on_progress {World : Type}
    (behave : nat -> SSEvent -> World -> World * bool)
    (e : XMLHttpRequest) (s : Sys) :
  xhr (obj s) = true ->
  status e <> 200%Z ->
  let s' := notify behave s (progress_event e) in
  (exists i1 es2,
     log s' = log s ++ Dispatched (readyState (obj s)) (ErrorEvent (responseText e))
                    :: i1 ++ es2
     /\ Forall is_invocation i1
     /\ (readyState (obj s) = CLOSED -> es2 = [])
     /\ (readyState (obj s) <> CLOSED ->
         exists i2, es2 = Transport XhrAbort
                           :: Dispatched CLOSED (ReadyStateEvent CLOSED) :: i2
                    /\ Forall is_invocation i2))
  /\ readyState (obj s') = CLOSED
  /\ (readyState (obj s) = CONNECTING -> chunk (obj s) = [] ->
      forall ns, exists es,
        log (run behave s' ns) = log s ++ es
        /\ Forall (fun ev => ev_type ev <> str "open") (dispatched es)).
Proof.
  intros Hx Hst s'.
  assert (Hs' : s' = snd (_onStreamFailure behave e s)).
  { subst s'. unfold notify. cbn [listener_of].
    unfold _onStreamProgress, bind at 1, this at 1. cbn [obj]. rewrite Hx.
    apply Z.eqb_neq in Hst. rewrite Hst. done. }
  destruct (_onStreamFailure_spec behave e s)
    as (w & i1 & es2 & Heq & Hi1 & Hno & Hyes).
  rewrite Heq in Hs'. cbn [snd] in Hs'.
  split; [|split].
  - exists i1, es2. rewrite Hs'. cbn [log]. split; [done|]. split; [done|].
    split; [intros Hc; by destruct (Hno (or_introl Hc))|].
    intros Hc. by destruct (Hyes Hc Hx).
  - rewrite Hs'. cbn [obj].
    destruct (decide (readyState (obj s) = CLOSED)) as [Hc|Hc].
    + destruct (Hno (or_introl Hc)) as [_ ->]. done.
    + destruct (Hyes Hc Hx) as [-> _]. done.
  - intros Hrs Hchunk ns.
    assert (Hc : readyState (obj s) <> CLOSED) by (by rewrite Hrs).
    destruct (Hyes Hc Hx) as [Hobj (i2 & -> & Hi2)].
    destruct (run_no_handle behave ns s') as (w' & es & Hrun & Hopen).
    { rewrite Hs'. cbn [obj]. by rewrite Hobj. }
    { rewrite Hs'. cbn [obj]. by rewrite Hobj. }
    rewrite Hrun. cbn [log]. rewrite Hs'. cbn [log].
    eexists. rewrite <- app_assoc. split; [reflexivity|].
    rewrite dispatched_app. apply Forall_app. split; [|done].
    rewrite dispatched_cons, dispatched_app, (dispatched_invocations i1) by done.
    change (dispatched (Transport XhrAbort
                          :: Dispatched CLOSED (ReadyStateEvent CLOSED) :: i2))
      with (ReadyStateEvent CLOSED :: dispatched i2).
    rewrite (dispatched_invocations i2) by done.
    by repeat constructor.
Qed.

(** The first progress notification of [new SSE("/events")] comes with
    status 500. *)
Lemma failure_on_progress_witness :
  let e := mkXhr 500 (str "Internal Server Error") 3 in
  let s' := notify quiet connecting (progress_event e) in
  (exists i1 es2,
     log s' = log connecting
                ++ Dispatched (readyState (obj connecting)) (ErrorEvent (responseText e))
                    :: i1 ++ es2
     /\ Forall is_invocation i1
     /\ (readyState (obj connecting) = CLOSED -> es2 = [])
     /\ (readyState (obj connecting) <> CLOSED ->
         exists i2, es2 = Transport XhrAbort
                           :: Dispatched CLOSED (ReadyStateEvent CLOSED) :: i2
                    /\ Forall is_invocation i2))
  /\ readyState (obj s') = CLOSED
  /\ (readyState (obj connecting) = CONNECTING -> chunk (obj connecting) = [] ->
      forall ns, exists es,
        log (run quiet s' ns) = log connecting ++ es
        /\ Forall (fun ev => ev_type ev <> str "open") (dispatched es)).
Proof.
  apply (failure_on_progress quiet (mkXhr 500 (str "Internal Server Error") 3)
           connecting).
  - reflexivity.
  - discriminate.
Defined.

(** C10.  When [close] has run (the instance held a request and was not
    CLOSED), the request is gone and the state is CLOSED; from then on a
    sequence of progress and readystatechange notifications leaves the
    whole system as it is: no event is dispatched, no field changes, the
    state stays CLOSED.  [stream] starts a new attempt from there. *)
Theorem void_after_close {World : Type}
    (behave : nat -> SSEvent -> World -> World * bool) (s : Sys) :
  xhr (obj s) = true ->
  readyState (obj s) <> CLOSED ->
  let s1 := snd (close behave s) in
  xhr (obj s1) = false
  /\ readyState (obj s1) = CLOSED
  /\ (forall ns, Forall progress_or_readystatechange ns ->
                 run behave s1 ns = s1)
  /\ readyState (obj (snd (stream behave s1))) = CONNECTING
  /\ xhr (obj (snd (stream behave s1))) = true.
Proof.
  intros Hx Hrs s1.
  destruct (close_spec behave s Hrs Hx) as (w & es & Heq & _).
  assert (Hx1 : xhr (obj s1) = false) by (subst s1; by rewrite Heq).
  split; [done|]. split; [subst s1; by rewrite Heq|]. split.
  - intros ns Hns. by apply run_void.
  - destruct (stream_spec behave s1 Hx1) as (w' & es' & ->). done.
Qed.

(** [close] on [new SSE("/events")]. *)
Lemma void_after_close_witness :
  let s1 := snd (close quiet connecting) in
  xhr (obj s1) = false
  /\ readyState (obj s1) = CLOSED
  /\ (forall ns, Forall progress_or_readystatechange ns ->
                 run quiet s1 ns = s1)
  /\ readyState (obj (snd (stream quiet s1))) = CONNECTING
  /\ xhr (obj (snd (stream quiet s1))) = true.
Proof.
  apply (void_after_close quiet connecting).
  - reflexivity.
  - discriminate.
Defined.

(** ** The event chunk parser *)

(** C6.  The loop over the lines of a record leaves in [data] the first
    value of a [data] line followed, for each later [data] line, by a line
    feed and its value ([None] when there is no [data] line), and in
    [id], [event] and [retry] the value of the last line of that name.
    The record ["data: hello\ndata: world"] gives the data
    ["hello\nworld"]. *)
Theorem data_lines_accumulate (lines : list jsstring) :
  let fvs := FieldSpec.fields_of lines in
  let ef := Parser.parse_lines lines in
  Parser.data ef = FieldSpec.accumulated (FieldSpec.values_of (str "data") fvs)
  /\ Parser.id ef = FieldSpec.last_value (str "id") fvs
  /\ Parser.event ef = FieldSpec.last_value (str "event") fvs
  /\ Parser.retry ef = FieldSpec.last_value (str "retry") fvs
  /\ ev_data <$> Parser._parseEventChunk
                   (str "data: hello" ++ [LF] ++ str "data: world")
     = Some (JStr (str "hello" ++ [LF] ++ str "world")).
Proof.
  cbv zeta. destruct (parse_lines_spec lines) as (Hd & Hi & He & Hr).
  repeat split; try done.
Qed.

(** C7.  The event built from a non-empty record: its type is the last
    value of the [event] field, ["message"] when there is none or when it
    is empty; its data is the accumulated [data] value, the empty string
    when there is none; its id is the last value of the [id] field, [null]
    when there is none.  The record ["id: 5\nevent: update\ndata: hello"]
    gives type ["update"], id ["5"] and data ["hello"]. *)
Theorem event_of_record (c : N) (rest : jsstring) :
  let chunk := c :: rest in
  let fvs := FieldSpec.fields_of (split Parser.line_separator false chunk) in
  (exists ev,
     Parser._parseEventChunk chunk = Some ev
     /\ ev_type ev = match FieldSpec.last_value (str "event") fvs with
                     | Some ((_ :: _) as type) => type
                     | _ => str "message"
                     end
     /\ ev_data ev = JStr (default [] (FieldSpec.accumulated
                                         (FieldSpec.values_of (str "data") fvs)))
     /\ ev_id ev = match FieldSpec.last_value (str "id") fvs with
                   | Some i => JStr i
                   | None => null
                   end)
  /\ Parser._parseEventChunk
       (str "id: 5" ++ [LF] ++ str "event: update" ++ [LF] ++ str "data: hello")
     = Some (mkEvent (str "update") false false false
                     (JStr (str "hello")) (JStr (str "5")) None).
Proof.
  cbv zeta. split; [|reflexivity].
  destruct (parse_lines_spec (split Parser.line_separator false (c :: rest)))
    as (Hd & Hi & He & _).
  eexists. split; [reflexivity|].
  unfold Parser.build_event. cbn [ev_type ev_data ev_id set_id set_data CustomEvent].
  rewrite Hd, Hi, He. done.
Qed.




(** C2, as the specification has it, fails: the record of one line feed
    is white space only, yet the parser returns an event for it; and when
    the stream ["data: a\n\n\n"] is complete, the final parse pass finds the
    pending tail ["\n"] and dispatches that event after the one of the
    record. *)
Lemma blank_record_is_parsed :
  forallb is_white_space [LF] = true
  /\ Parser._parseEventChunk [LF] = Some FieldSpec.plain_message
  /\ let e := mkXhr 200 (str "data: a" ++ [LF; LF; LF]) 4 in
     dispatched (log (run quiet connecting [progress_event e; load_event e]))
     = [ ReadyStateEvent CONNECTING; OpenEvent; ReadyStateEvent OPEN;
         mkEvent (str "message") false false true (JStr (str "a")) null None;
         set_source FieldSpec.plain_message ].
Proof. cbv zeta. repeat apply conj; vm_compute; reflexivity. Qed.

(** C2, amended.  For a record that is empty or white space only, the
    assembler dispatches nothing while the stream goes on: the callback of
    [forEach] returns at once.  The parser returns no event for the empty
    record; for a non-empty record of white space it returns the event of
    type ["message"] with data [""] and id [null].  The final parse pass
    over an empty pending tail dispatches nothing. *)
Theorem blank_records {World : Type}
    (behave : nat -> SSEvent -> World -> World * bool)
    (part : jsstring) (s : Sys) :
  forallb is_white_space part = true ->
  dispatch_part behave part s = (Normal tt, s)
  /\ Parser._parseEventChunk part
     = match part with
       | [] => None
       | _ :: _ => Some FieldSpec.plain_message
       end
  /\ dispatchEvent behave (Parser._parseEventChunk []) s = (Normal true, s).
Proof.
  intros Hws. split; [|split; [|done]].
  - unfold dispatch_part. by rewrite trim_length_pos, Hws.
  - by apply parse_blank.
Qed.

(** A record of a space and a tabulation. *)
Lemma blank_records_witness :
  dispatch_part quiet [SPACE; 9] connecting = (Normal tt, connecting)
  /\ Parser._parseEventChunk [SPACE; 9] = Some FieldSpec.plain_message
  /\ dispatchEvent quiet (Parser._parseEventChunk []) connecting
     = (Normal true, connecting).
Proof. apply (blank_records quiet [SPACE; 9] connecting). reflexivity. Defined.

(** ** The dispatcher *)

(** C8.  Whatever calls of [addEventListener] and [removeEventListener]
    are made on an instance whose registry is well formed (as that of a
    new instance is), the registry stays well formed: no type has a
    listener twice and no type has an empty list.  Registering a listener
    twice is the same as registering it once, and a removal that leaves no
    listener for a type deletes the entry of the type. *)
Theorem registry_is_well_formed {World : Type}
    (s : @Sys World) (calls : list RegistryCall) :
  registry_ok (listeners (obj s)) ->
  let s' := call_all s calls in
  registry_ok (listeners (obj s'))
  /\ (forall type cb,
        call_all s' [Add type cb; Add type cb] = call_all s' [Add type cb])
  /\ (forall type cb l,
        listeners (obj s') !! type = Some l ->
        filter (fun x => x ≠ cb) l = [] ->
        listeners (obj (call_all s' [Remove type cb])) !! type = None).
Proof.
  intros Hok s'. split; [by apply call_all_ok|]. split.
  - intros type cb. cbn [call_all fold_left registry_call].
    rewrite (addEventListener_spec type cb s').
    destruct (get_property (listeners (obj s')) type) as [l| |] eqn:Hp.
    + case_bool_decide as Hin; cbn [snd].
      * rewrite addEventListener_spec, Hp. by rewrite bool_decide_eq_true_2.
      * rewrite addEventListener_spec. cbn [obj listeners set_listeners].
        unfold get_property. rewrite lookup_insert_eq.
        rewrite bool_decide_eq_true_2; [done|]. set_solver.
    + cbn [snd]. by rewrite addEventListener_spec, Hp.
    + cbn [snd]. rewrite addEventListener_spec. cbn [obj listeners set_listeners].
      unfold get_property. rewrite lookup_insert_eq.
      rewrite bool_decide_eq_true_2; [done|]. set_solver.
  - intros type cb l Hl Hf. cbn [call_all fold_left registry_call].
    rewrite removeEventListener_spec.
    apply get_property_Own in Hl. rewrite Hl, Hf.
    cbn [snd obj listeners set_listeners]. apply lookup_delete_eq.
Qed.

(** The registry of [new SSE("/events")] after one listener is registered
    twice and removed. *)
Lemma registry_is_well_formed_witness :
  let s' := call_all connecting
              [ Add (str "message") (Fn 1); Add (str "message") (Fn 1);
                Remove (str "message") (Fn 1) ] in
  registry_ok (listeners (obj s'))
  /\ (forall type cb,
        call_all s' [Add type cb; Add type cb] = call_all s' [Add type cb])
  /\ (forall type cb l,
        listeners (obj s') !! type = Some l ->
        filter (fun x => x ≠ cb) l = [] ->
        listeners (obj (call_all s' [Remove type cb])) !! type = None).
Proof.
  apply (registry_is_well_formed connecting).
  intros type l Hl. discriminate Hl.
Defined.

(** C1, as the specification has it, fails: [Fn 1] and [Fn 2] are
    registered for ["message"] in this order, the primary handler does not
    cancel, [Fn 1] calls [preventDefault] on a cancelable event, and
    [Fn 2] is never called. *)
Lemma second_listener_not_called :
  let r := dispatchEvent cancel_first (Some cancelable_message) two_listeners in
  listeners (obj two_listeners) !! str "message" = Some [Fn 1; Fn 2]
  /\ fst r = Normal false
  /\ log (snd r)
     = [ Dispatched INITIALIZING (set_source cancelable_message);
         Invoked noop (set_source cancelable_message);
         Invoked (Fn 1) (preventDefault (set_source cancelable_message)) ]
  /\ ~ In (Fn 2) (callbacks_of (log (snd r))).
Proof.
  cbv zeta. split; [by vm_compute|]. split; [by vm_compute|].
  split; [by vm_compute|].
  vm_compute. intros [H|[H|[]]]; discriminate H.
Qed.

(** C1, amended.  For an event whose type has registered listeners,
    [dispatchEvent] calls the primary handler, when there is one, and then
    the listeners in the order of their registration, and stops after the
    first call that leaves [defaultPrevented] set: the callbacks called
    are a prefix of the handler followed by the listeners, and only the
    last call can have left the event cancelled.  It returns [false]
    exactly when a call left the event cancelled; when it returns [true]
    every listener has been called. *)
Theorem dispatch_stops_at_cancellation {World : Type}
    (behave : nat -> SSEvent -> World -> World * bool)
    (ev : SSEvent) (s : Sys) (l : list Callback) :
  listeners (obj s) !! ev_type ev = Some l ->
  exists b w es,
    dispatchEvent behave (Some ev) s
    = (Normal b,
       mkSys (obj s) w
         (log s ++ Dispatched (readyState (obj s)) (set_source ev) :: es))
    /\ Forall is_invocation es
    /\ callbacks_of es `prefix_of` (handler_of (obj s) (ev_type ev) ++ l)
    /\ (b = true <-> Forall (fun e => cancelled e = false) es)
    /\ (b = true -> callbacks_of es = handler_of (obj s) (ev_type ev) ++ l)
    /\ (forall i e, es !! i = Some e -> cancelled e = true -> S i = length es).
Proof.
  intros Hl. apply get_property_Own in Hl.
  destruct (dispatchEvent_detail behave ev s) as (r & w & es & Heq & Hinv & Hcase).
  rewrite Hl in Hcase. destruct Hcase as (b & -> & Hrest).
  by exists b, w, es.
Qed.

(** The two listeners of [two_listeners] and a cancelable event. *)
Lemma dispatch_stops_at_cancellation_witness :
  exists b w es,
    dispatchEvent cancel_first (Some cancelable_message) two_listeners
    = (Normal b,
       mkSys (obj two_listeners) w
         (log two_listeners
            ++ Dispatched (readyState (obj two_listeners))
                 (set_source cancelable_message) :: es))
    /\ Forall is_invocation es
    /\ callbacks_of es
       `prefix_of` (handler_of (obj two_listeners) (ev_type cancelable_message)
                    ++ [Fn 1; Fn 2])
    /\ (b = true <-> Forall (fun e => cancelled e = false) es)
    /\ (b = true ->
        callbacks_of es
        = handler_of (obj two_listeners) (ev_type cancelable_message)
          ++ [Fn 1; Fn 2])
    /\ (forall i e, es !! i = Some e -> cancelled e = true -> S i = length es).
Proof.
  apply (dispatch_stops_at_cancellation cancel_first cancelable_message
           two_listeners [Fn 1; Fn 2]).
  by vm_compute.
Defined.

(** ** The chunk assembler *)

(** What holds of a whole stream.  A new attempt (state CONNECTING,
    nothing read, nothing pending) receives a text through progress
    notifications that deliver growing prefixes of it, the last one the
    text itself, and then the load notification.  When no record of the
    text has an event type that [this.listeners] inherits, the events
    dispatched while the stream goes on are ["open"], the
    ["readystatechange"] of OPEN and then one event for each complete
    segment that is not white space only, in the order of the text; the
    trailing segment is kept as the pending tail; and when it is not
    empty the load notification dispatches its event and nothing else. *)
Lemma stream_events {World : Type}
    (behave : nat -> SSEvent -> World -> World * bool)
    (s : Sys) (texts : list jsstring) (text : jsstring) :
  xhr (obj s) = true ->
  readyState (obj s) = CONNECTING ->
  progress (obj s) = O ->
  chunk (obj s) = [] ->
  texts <> [] ->
  grows [] texts ->
  List.last texts [] = text ->
  pending_tail text <> [] ->
  all_dispatchable (obj s) (complete_parts text ++ [pending_tail text]) ->
  let s1 := run behave s (progress_events texts) in
  let s2 := notify behave s1 (load_of text) in
  exists es1 es2 last_event,
    log s1 = log s ++ es1
    /\ dispatched es1
       = [OpenEvent; ReadyStateEvent OPEN]
           ++ map set_source (records_of (complete_parts text))
    /\ chunk (obj s1) = pending_tail text
    /\ log s2 = log s1 ++ es2
    /\ Parser._parseEventChunk (pending_tail text) = Some last_event
    /\ dispatched es2 = [set_source last_event].
Proof.
  intros Hx Hrs Hp Hc Hne Hg Hlast Htail Hall s1 s2.
  apply Forall_app in Hall as [Hall Hall_tail].
  destruct (streaming_from behave texts s [] Hx Hp Hc Hg)
    as (es1 & parts & Hlog1 & Hparts & Hd1 & Hx1 & Hp1 & Hc1 & Hl1 & Hrs1).
  { by rewrite Hlast. }
  rewrite Hlast in *. fold s1 in Hlog1, Hx1, Hp1, Hc1, Hl1, Hrs1.
  change (complete_parts []) with (@nil jsstring) in Hparts.
  cbn [app] in Hparts. subst parts.
  destruct texts as [|text1 texts]; [done|].
  rewrite Hrs in Hd1, Hrs1.
  destruct (Parser._parseEventChunk (pending_tail text)) as [ev|] eqn:Hev.
  2:{ destruct (pending_tail text); done. }
  destruct (completion behave s1 text Hx1 Hp1 Hc1) as (es2 & Hlog2 & Hd2 & _).
  { by rewrite Hrs1. }
  { intros ev' Hev'. rewrite Hev in Hev'. injection Hev' as <-.
    unfold dispatchable. rewrite Hl1.
    destruct (forallb is_white_space (pending_tail text)) eqn:Hws.
    - rewrite (parse_blank _ Hws) in Hev.
      destruct (pending_tail text); [done|]. injection Hev as <-.
      by apply dispatchable_not_inherited.
    - apply Forall_cons in Hall_tail as [Ht _]. apply Ht.
      unfold record_event. by rewrite Hws. }
  exists es1, es2, ev. rewrite Hev in Hd2. done.
Qed.

(** The same in the words of the claim.  The text is made of [N] complete
    records, none of them white space only, each followed by a separator,
    and of a trailing partial record that is not empty.  However the text
    is cut into growing prefixes, the progress notifications dispatch,
    after ["open"] and the ["readystatechange"] of OPEN, the [N] events of
    the records in their order and keep the trailing record as pending
    tail, and the load notification dispatches the one event of the
    trailing record: provided no event type among them is one that
    [this.listeners] inherits. *)
Lemma stream_of_records {World : Type}
    (behave : nat -> SSEvent -> World -> World * bool)
    (s : Sys) (texts : list jsstring)
    (records : list (jsstring * jsstring)) (tail : jsstring) :
  xhr (obj s) = true ->
  readyState (obj s) = CONNECTING ->
  progress (obj s) = O ->
  chunk (obj s) = [] ->
  texts <> [] ->
  grows [] texts ->
  List.last texts [] = stream_text records tail ->
  Forall complete_record records ->
  separator_free tail ->
  tail <> [] ->
  all_dispatchable (obj s) (map fst records ++ [tail]) ->
  let s1 := run behave s (progress_events texts) in
  let s2 := notify behave s1 (load_of (stream_text records tail)) in
  exists es1 es2 events last_event,
    log s1 = log s ++ es1
    /\ dispatched es1 = [OpenEvent; ReadyStateEvent OPEN] ++ map set_source events
    /\ Forall2 (fun rs ev => Parser._parseEventChunk (fst rs) = Some ev)
               records events
    /\ length events = length records
    /\ chunk (obj s1) = tail
    /\ log s2 = log s1 ++ es2
    /\ Parser._parseEventChunk tail = Some last_event
    /\ dispatched es2 = [set_source last_event].
Proof.
  intros Hx Hrs Hp Hc Hne Hg Hlast Hrec Htail Hnonempty Hall s1 s2.
  pose proof (split_stream_text records tail Hrec Htail) as Hsplit.
  assert (Hparts : complete_parts (stream_text records tail)
                   = flat_map (fun rs => [fst rs; snd rs]) records).
  { unfold complete_parts. by rewrite Hsplit, removelast_last. }
  assert (Hpending : pending_tail (stream_text records tail) = tail).
  { unfold pending_tail. by rewrite Hsplit, last_last. }
  destruct (stream_events behave s texts (stream_text records tail)
              Hx Hrs Hp Hc Hne Hg Hlast)
    as (es1 & es2 & last_event & Hlog1 & Hd1 & Hc1 & Hlog2 & Hparse & Hd2).
  { by rewrite Hpending. }
  { rewrite Hparts, Hpending. by apply all_dispatchable_stream_text. }
  destruct (records_of_stream_text records Hrec) as (events & Hev & Hall2).
  rewrite Hparts, Hev in Hd1. rewrite Hpending in Hc1, Hparse.
  exists es1, es2, events, last_event.
  repeat (split; [done|]). split; [|done].
  symmetry. by eapply Forall2_length.
Qed.

(** The stream [two_records] with [partial_record], delivered to
    [new SSE("/events")] one code unit at a time. *)
Example one_unit_at_a_time :
  let text := stream_text two_records partial_record in
  let s1 := run quiet connecting (progress_events (prefixes text)) in
  let s2 := notify quiet s1 (load_of text) in
  exists es1 es2 events last_event,
    log s1 = log connecting ++ es1
    /\ dispatched es1 = [OpenEvent; ReadyStateEvent OPEN] ++ map set_source events
    /\ Forall2 (fun rs ev => Parser._parseEventChunk (fst rs) = Some ev)
               two_records events
    /\ length events = length two_records
    /\ chunk (obj s1) = partial_record
    /\ log s2 = log s1 ++ es2
    /\ Parser._parseEventChunk partial_record = Some last_event
    /\ dispatched es2 = [set_source last_event].
Proof.
  pose proof (grows_prefixes (stream_text two_records partial_record))
    as [Hgrows Hlast].
  destruct Hlast as [Hne Hlast]; [discriminate|].
  apply (stream_of_records quiet connecting _ two_records partial_record);
    try reflexivity; try done.
  - unfold two_records.
    repeat (apply List.Forall_cons;
            [split; [apply separator_free_iff; reflexivity|];
             split; [vm_compute; split; discriminate|];
             split; [reflexivity|simpl; tauto]|]).
    apply List.Forall_nil.
  - apply separator_free_iff. reflexivity.
  - repeat constructor; intros ev Hev; vm_compute in Hev;
      injection Hev as <-; by apply dispatchable_not_inherited.
Qed.

(** C3 fails on [constructor_stream], delivered whole by one progress
    notification to [new SSE("/events")] and followed by the load
    notification.  The text has two complete records that are not white
    space and the trailing partial record ["x"].  [dispatchEvent] is
    entered with the event of the first record, finds under
    ["constructor"] a property that [this.listeners] inherits and raises a
    [TypeError]; the exception ends [_onStreamProgress]: the second record
    is never dispatched, the trailing record is not kept as pending tail
    ([this.chunk] stays empty), and the load notification dispatches
    nothing.  One record event while the stream goes on and none at its
    end, where the claim has two and one. *)
Theorem inherited_event_type_breaks_stream :
  let s1 := run quiet connecting (progress_events [constructor_stream]) in
  let s2 := notify quiet s1 (load_of constructor_stream) in
  complete_parts constructor_stream
  = [str "event: constructor"; [LF; LF]; str "data: b"; [LF; LF]]
  /\ pending_tail constructor_stream = str "x"
  /\ fst (_onStreamProgress quiet (mkXhr 200 constructor_stream 3) connecting)
     = Throw TypeError
  /\ dispatched (log s1)
     = [ ReadyStateEvent CONNECTING; OpenEvent; ReadyStateEvent OPEN;
         mkEvent (str "constructor") false false true (JStr []) null None ]
  /\ chunk (obj s1) = []
  /\ dispatched (log s2) = dispatched (log s1).
Proof. cbv zeta. repeat apply conj; vm_compute; reflexivity. Qed.

(** * Further properties of the code *)

(** ** The dispatcher and the registry *)

Section DispatchFacts.
Context {World : Type} (behave : nat -> SSEvent -> World -> World * bool).

Lemma preventDefault_not_cancelable ev :
  ev_cancelable ev = false -> preventDefault ev = ev.
Proof.
  destruct ev as [t c d so da i r]. cbn. intros ->. by destruct d.
Qed.

Lemma call_not_cancelable cb ev (s : Sys) :
  ev_cancelable ev = false ->
  exists w,
    call behave cb ev s = (Normal ev, mkSys (obj s) w (log s ++ [Invoked cb ev])).
Proof.
  intros Hc. unfold call.
  destruct (match cb with
            | noop => (world s, false)
            | Fn f => behave f ev (world s)
            end) as [w [|]].
  - exists w. by rewrite preventDefault_not_cancelable.
  - by exists w.
Qed.

(** An event that cannot be cancelled reaches every callback, as it is. *)
Lemma every_not_cancelable callbacks ev (s : Sys) :
  ev_cancelable ev = false -> ev_defaultPrevented ev = false ->
  exists w,
    every behave callbacks ev s
    = (Normal true,
       mkSys (obj s) w (log s ++ map (fun cb => Invoked cb ev) callbacks)).
Proof.
  intros Hc Hp. revert s. induction callbacks as [|cb rest IH]; intros s.
  - exists (world s). cbn. unfold ret. rewrite app_nil_r. by destruct s.
  - cbn [every map]. unfold bind.
    destruct (call_not_cancelable cb ev s Hc) as (w1 & ->). rewrite Hp.
    destruct (IH (mkSys (obj s) w1 (log s ++ [Invoked cb ev]))) as (w & ->).
    exists w. cbn [obj log]. by rewrite <- app_assoc.
Qed.

(** The callbacks [dispatchEvent] may call: the primary handler of the
    type, then the listeners registered for it. *)
Lemma dispatchEvent_calls ev (s : Sys) :
  exists r w es,
    dispatchEvent behave (Some ev) s
    = (r, mkSys (obj s) w
            (log s ++ Dispatched (readyState (obj s)) (set_source ev) :: es))
    /\ Forall is_invocation es
    /\ callbacks_of es
       `prefix_of` (handler_of (obj s) (ev_type ev)
                    ++ default [] (listeners (obj s) !! ev_type ev)).
Proof.
  destruct (dispatchEvent_detail behave ev s) as (r & w & es & Heq & Hinv & Hcase).
  exists r, w, es. split; [done|]. split; [done|].
  revert Heq Hcase. unfold get_property.
  destruct (listeners (obj s) !! ev_type ev) as [l|] eqn:Hl.
  - by intros _ (b & _ & Hpre & _).
  - intros Heq _. cbn [default]. rewrite app_nil_r.
    revert Heq. unfold dispatchEvent, handler_of, bind, this, emit, ret.
    cbn [obj world log ev_type set_source].
    destruct (handlers (obj s) !! ev_type ev) as [h|]; cbn [option_list].
    + destruct (call_spec behave h (set_source ev)
                  (mkSys (obj s) (world s)
                     (log s ++ [Dispatched (readyState (obj s)) (set_source ev)])))
        as (w1 & ev1 & -> & Hty & _).
      cbn [fst snd obj log]. rewrite Hty. cbn [ev_type set_source].
      destruct (ev_defaultPrevented ev1); cbn [obj];
        [|unfold get_property; rewrite Hl; destruct (inherited (ev_type ev))];
        unfold throw; intros Heq;
        apply (f_equal (fun p => log (snd p))) in Heq; cbn [snd log] in Heq;
        rewrite <- app_assoc in Heq; cbn [app] in Heq;
        apply app_inv_head in Heq; injection Heq as <-; done.
    + cbn [fst snd obj ev_type set_source]. unfold get_property. rewrite Hl.
      destruct (inherited (ev_type ev));
        unfold throw; intros Heq;
        apply (f_equal (fun p => log (snd p))) in Heq; cbn [snd log] in Heq;
        apply app_inv_head in Heq; injection Heq as <-; apply prefix_nil.
Qed.

(** An event that cannot be cancelled: [dispatchEvent] returns [true]
    after it has called the primary handler and every listener. *)
Lemma dispatchEvent_not_cancelable ev (s : Sys) :
  ev_cancelable ev = false -> ev_defaultPrevented ev = false ->
  dispatchable (obj s) (ev_type ev) ->
  exists w,
    dispatchEvent behave (Some ev) s
    = (Normal true,
       mkSys (obj s) w
         (log s ++ Dispatched (readyState (obj s)) (set_source ev)
                :: map (fun cb => Invoked cb (set_source ev))
                       (handler_of (obj s) (ev_type ev)
                        ++ default [] (listeners (obj s) !! ev_type ev)))).
Proof.
  intros Hc Hp Hd. unfold dispatchable, get_property in Hd.
  unfold dispatchEvent, handler_of, bind, this, emit, ret.
  cbn [obj world log ev_type set_source].
  destruct (handlers (obj s) !! ev_type ev) as [h|]; cbn [option_list].
  - destruct (call_not_cancelable h (set_source ev)
                (mkSys (obj s) (world s)
                   (log s ++ [Dispatched (readyState (obj s)) (set_source ev)])))
      as (w1 & ->); [done|].
    cbn [fst snd obj ev_defaultPrevented ev_type set_source]. rewrite Hp.
    cbn [obj log]. unfold get_property.
    destruct (listeners (obj s) !! ev_type ev) as [l|]; cbn [default].
    + match goal with
      | |- context [every behave l (set_source ev) ?s1] =>
          destruct (every_not_cancelable l (set_source ev) s1) as (w & ->);
            [done..|]
      end.
      exists w. cbn [obj log]. by rewrite <- !app_assoc.
    + destruct (inherited (ev_type ev)); [done|].
      exists w1. by rewrite <- !app_assoc.
  - cbn [fst snd obj ev_type set_source]. unfold get_property.
    destruct (listeners (obj s) !! ev_type ev) as [l|]; cbn [default].
    + match goal with
      | |- context [every behave l (set_source ev) ?s1] =>
          destruct (every_not_cancelable l (set_source ev) s1) as (w & ->);
            [done..|]
      end.
      exists w. cbn [obj log]. by rewrite <- !app_assoc.
    + destruct (inherited (ev_type ev)); [done|].
      exists (world s). by rewrite <- ?app_assoc.
Qed.

End DispatchFacts.

(** ** The state machine *)

Section MachineFacts.
Context {World : Type} (behave : nat -> SSEvent -> World -> World * bool).

Lemma dispatchEvent_invocations ev (s : Sys) :
  ev_cancelable ev = false -> ev_defaultPrevented ev = false ->
  dispatchable (obj s) (ev_type ev) ->
  exists w,
    dispatchEvent behave (Some ev) s
    = (Normal true,
       mkSys (obj s) w
         (log s ++ Dispatched (readyState (obj s)) (set_source ev)
                :: invocations (obj s) (set_source ev))).
Proof.
  intros Hc Hp Hd.
  destruct (dispatchEvent_not_cancelable behave ev s Hc Hp Hd) as (w & ->).
  by exists w.
Qed.

(** [dispatchEvent] changes no field of the instance. *)
Lemma dispatchEvent_obj event (s : Sys) :
  exists r w es,
    dispatchEvent behave event s = (r, mkSys (obj s) w (log s ++ es)).
Proof.
  destruct event as [ev|].
  - destruct (dispatchEvent_detail behave ev s) as (r & w & es & -> & _).
    by exists r, w, (Dispatched (readyState (obj s)) (set_source ev) :: es).
  - exists (Normal true), (world s), []. cbn. unfold ret. rewrite app_nil_r.
    by destruct s.
Qed.

(** A change of state: the field is set, then the event is dispatched
    to the handler and to every listener of ["readystatechange"]. *)
Lemma _setReadyState_invocations state (s : Sys) :
  exists w,
    _setReadyState behave state s
    = (Normal tt,
       mkSys (set_readyState state (obj s)) w
         (log s ++ Dispatched state (ReadyStateEvent state)
                :: invocations (obj s) (ReadyStateEvent state))).
Proof.
  unfold _setReadyState, bind, update, ret.
  destruct (dispatchEvent_invocations
              (set_event_readyState state (CustomEvent (str "readystatechange")))
              (mkSys (set_readyState state (obj s)) (world s) (log s)))
    as (w & ->); [done..| |].
  { by apply dispatchable_not_inherited. }
  by exists w.
Qed.

Lemma stream_noop (s : Sys) :
  xhr (obj s) = true -> stream behave s = (Normal tt, s).
Proof. intros Hx. unfold stream, bind, this, ret. by rewrite Hx. Qed.

(** A new attempt: the state change is announced, then the request is
    sent. *)
Lemma stream_attempt (s : Sys) :
  xhr (obj s) = false ->
  exists w,
    stream behave s
    = (Normal tt,
       mkSys (set_xhr true (set_readyState CONNECTING (obj s))) w
         (log s ++ Dispatched CONNECTING (ReadyStateEvent CONNECTING)
                :: invocations (obj s) (ReadyStateEvent CONNECTING)
                ++ request_commands (obj s))).
Proof.
  intros Hx. unfold stream. unfold bind at 1. unfold this at 1.
  cbn [obj]. rewrite Hx. unfold bind at 1.
  destruct (_setReadyState_invocations CONNECTING s) as (w & ->).
  unfold bind, update, this. cbn [obj world log].
  unfold emit at 1. cbn [obj world log].
  rewrite forEach_emit. unfold emit. cbn [obj world log].
  exists w. unfold request_commands. f_equal. f_equal.
  cbn [url method headers withCredentials payload set_xhr set_readyState].
  repeat rewrite <- app_assoc. cbn [app]. reflexivity.
Qed.

Lemma close_invocations (s : Sys) :
  readyState (obj s) <> CLOSED -> xhr (obj s) = true ->
  exists w,
    close behave s
    = (Normal tt,
       mkSys (set_readyState CLOSED (set_xhr false (obj s))) w
         (log s ++ Transport XhrAbort
                :: Dispatched CLOSED (ReadyStateEvent CLOSED)
                :: invocations (obj s) (ReadyStateEvent CLOSED))).
Proof.
  intros Hrs Hx. unfold close, bind, this, emit, update, ret. simpl.
  rewrite Hx. apply Z.eqb_neq in Hrs. rewrite Hrs. simpl.
  destruct (_setReadyState_invocations CLOSED
              (mkSys (set_xhr false (obj s)) (world s)
                 (log s ++ [Transport XhrAbort])))
    as (w & ->).
  exists w. simpl. by rewrite <- app_assoc.
Qed.

Lemma _onStreamProgress_failure e (s : Sys) :
  xhr (obj s) = true -> status e <> 200%Z ->
  _onStreamProgress behave e s = _onStreamFailure behave e s.
Proof.
  intros Hx Hst. unfold _onStreamProgress, bind at 1, this at 1.
  cbn [obj]. rewrite Hx. apply Z.eqb_neq in Hst. by rewrite Hst.
Qed.

Lemma _checkStreamClosed_done e (s : Sys) :
  xhr (obj s) = true -> xhr_readyState e = DONE ->
  _checkStreamClosed behave e s = _setReadyState behave CLOSED s.
Proof.
  intros Hx Hd. unfold _checkStreamClosed, bind at 1, this at 1.
  cbn [obj]. by rewrite Hx, Hd.
Qed.

Lemma _checkStreamClosed_going e (s : Sys) :
  xhr_readyState e <> DONE ->
  _checkStreamClosed behave e s = (Normal tt, s).
Proof.
  intros Hd. unfold _checkStreamClosed, bind, this, ret.
  apply Z.eqb_neq in Hd. rewrite Hd. by destruct (xhr (obj s)).
Qed.

Lemma same_fields (o : SSE) : set_chunk (chunk o) (set_progress (progress o) o) = o.
Proof. by destruct o. Qed.

Lemma separator_free_nil : separator_free [].
Proof. by apply separator_free_iff. Qed.

Lemma separator_free_pending_tail text : separator_free (pending_tail text).
Proof. apply separator_free_iff. apply split_records_last. Qed.

Lemma close_state_change (s : Sys) :
  state_change (obj s) (obj (snd (close behave s))).
Proof.
  destruct (close_cases behave s) as (w & es & _ & Hno & Hyes).
  destruct (decide (readyState (obj s) = CLOSED)) as [Hc|Hc].
  { destruct (Hno (or_introl Hc)) as [_ ->]. constructor. }
  destruct (xhr (obj s)) eqn:Hx.
  - destruct (Hyes Hc eq_refl) as [-> _]. by constructor.
  - destruct (Hno (or_intror eq_refl)) as [_ ->]. constructor.
Qed.

Lemma _onStreamFailure_obj e (s : Sys) :
  state_change (obj s) (obj (snd (_onStreamFailure behave e s))).
Proof.
  unfold _onStreamFailure, bind.
  destruct (dispatchEvent_obj
              (Some (set_data (JStr (response e)) (CustomEvent (str "error")))) s)
    as (r & w & es & ->).
  destruct r; [|constructor].
  apply (close_state_change (mkSys (obj s) w (log s ++ es))).
Qed.

Lemma _onStreamAbort_obj (s : Sys) :
  state_change (obj s) (obj (snd (_onStreamAbort behave s))).
Proof.
  unfold _onStreamAbort, bind.
  destruct (dispatchEvent_obj (Some (CustomEvent (str "abort"))) s)
    as (r & w & es & ->).
  destruct r; [|constructor].
  apply (close_state_change (mkSys (obj s) w (log s ++ es))).
Qed.

(** The fields a notification of [_onStreamProgress] leaves. *)
Lemma _onStreamProgress_obj e (s : Sys) :
  exists o1 p c,
    state_change (obj s) o1
    /\ obj (snd (_onStreamProgress behave e s)) = set_chunk c (set_progress p o1)
    /\ (progress (obj s) <= p)%nat
    /\ (separator_free (chunk (obj s)) -> separator_free c).
Proof.
  destruct (xhr (obj s)) eqn:Hx.
  - destruct (decide (status e = 200%Z)) as [Hst|Hst].
    + destruct (_onStreamProgress_live behave e s Hx Hst)
        as (r & w & es0 & es & -> & _ & _).
      exists (if (readyState (obj s) =? CONNECTING)%Z
              then set_readyState OPEN (obj s) else obj s),
             (progress (obj s)
              + length (substring_from (progress (obj s)) (responseText e)))%nat,
             (match r with
              | Normal _ =>
                  pending_tail
                    (chunk (obj s)
                     ++ substring_from (progress (obj s)) (responseText e))
              | Throw _ => chunk (obj s)
              end).
      split; [|split; [|split; [lia|]]].
      * destruct (readyState (obj s) =? CONNECTING)%Z eqn:Hrs; [|constructor].
        apply Z.eqb_eq in Hrs. by constructor.
      * cbn [snd obj]. destruct r; [done|].
        by destruct (readyState (obj s) =? CONNECTING)%Z, (obj s).
      * intros Hfree. destruct r; [apply separator_free_pending_tail|done].
    + rewrite _onStreamProgress_failure by done.
      exists (obj (snd (_onStreamFailure behave e s))),
             (progress (obj s)), (chunk (obj s)).
      pose proof (_onStreamFailure_obj e s) as Hsc.
      split; [done|]. split; [|split; [lia|done]].
      by destruct Hsc, (obj s).
  - rewrite _onStreamProgress_no_handle by done.
    exists (obj s), (progress (obj s)), (chunk (obj s)).
    split; [constructor|]. split; [by rewrite same_fields|]. split; [lia|done].
Qed.

Lemma _onStreamLoaded_obj e (s : Sys) :
  exists o1 p c,
    state_change (obj s) o1
    /\ obj (snd (_onStreamLoaded behave e s)) = set_chunk c (set_progress p o1)
    /\ (progress (obj s) <= p)%nat
    /\ (separator_free (chunk (obj s)) -> separator_free c).
Proof.
  destruct (_onStreamProgress_obj e s) as (o1 & p & c & Hsc & Hobj & Hp & Hc).
  unfold _onStreamLoaded, bind at 1.
  destruct (_onStreamProgress behave e s) as [r1 s1]. cbn [snd] in Hobj.
  destruct r1 as [[]|x]; [|by exists o1, p, c].
  unfold bind, this. cbn [obj].
  destruct (dispatchEvent_obj (Parser._parseEventChunk (chunk (obj s1))) s1)
    as (r & w & es & ->).
  destruct r; [|by exists o1, p, c].
  exists o1, p, []. split; [done|]. split; [|split; [done|]].
  - cbn [update snd obj]. by rewrite Hobj.
  - intros _. apply separator_free_nil.
Qed.

Lemma _checkStreamClosed_obj e (s : Sys) :
  state_change (obj s) (obj (snd (_checkStreamClosed behave e s))).
Proof.
  destruct (xhr (obj s)) eqn:Hx.
  - destruct (decide (xhr_readyState e = DONE)) as [Hd|Hd].
    + rewrite _checkStreamClosed_done by done.
      destruct (_setReadyState_invocations CLOSED s) as (w & ->).
      by constructor.
    + rewrite _checkStreamClosed_going by done. constructor.
  - rewrite _checkStreamClosed_no_handle by done. constructor.
Qed.

(** The fields a notification of the transport leaves: a change of
    state, a longer progress, a pending text without a separator. *)
Lemma notify_obj n (s : Sys) :
  exists o1 p c,
    state_change (obj s) o1
    /\ obj (notify behave s n) = set_chunk c (set_progress p o1)
    /\ (progress (obj s) <= p)%nat
    /\ (separator_free (chunk (obj s)) -> separator_free c).
Proof.
  unfold notify. destruct n as [e|e|e|e|]; cbn [listener_of].
  - apply _onStreamProgress_obj.
  - apply _onStreamLoaded_obj.
  - pose proof (_checkStreamClosed_obj e s) as Hsc.
    exists (obj (snd (_checkStreamClosed behave e s))),
           (progress (obj s)), (chunk (obj s)).
    split; [done|]. split; [|split; [lia|done]]. by destruct Hsc, (obj s).
  - pose proof (_onStreamFailure_obj e s) as Hsc.
    exists (obj (snd (_onStreamFailure behave e s))),
           (progress (obj s)), (chunk (obj s)).
    split; [done|]. split; [|split; [lia|done]]. by destruct Hsc, (obj s).
  - pose proof (_onStreamAbort_obj s) as Hsc.
    exists (obj (snd (_onStreamAbort behave s))),
           (progress (obj s)), (chunk (obj s)).
    split; [done|]. split; [|split; [lia|done]]. by destruct Hsc, (obj s).
Qed.

End MachineFacts.

(** ** The registry, once more *)

Section RegistryMore.
Context {World : Type}.
Implicit Types s : @Sys World.

Lemma filter_other (listener : Callback) (l : list Callback) :
  listener ∉ l -> filter (fun x => x ≠ listener) l = l.
Proof.
  induction l as [|x l IH]; [done|]. intros Hx.
  apply not_elem_of_cons in Hx as [Hne Hl].
  rewrite filter_cons_True by done. by rewrite IH.
Qed.

Lemma filter_same (listener : Callback) (l : list Callback) :
  listener ∉ filter (fun x => x ≠ listener) l.
Proof. intros H. apply list_elem_of_filter in H as [H _]. done. Qed.

Lemma same_listeners (o : SSE) : set_listeners (listeners o) o = o.
Proof. by destruct o. Qed.

Lemma same_state s : mkSys (obj s) (world s) (log s) = s.
Proof. by destruct s. Qed.

Lemma get_property_Inherited ls type :
  get_property ls type = Inherited <-> ls !! type = None /\ inherited type = true.
Proof.
  unfold get_property. destruct (ls !! type); [split; [done|by intros []]|].
  destruct (inherited type); split; (done || by intros []).
Qed.

(** The listeners of a type after a call of [removeEventListener]. *)
Lemma removeEventListener_listeners type listener s :
  default [] (listeners (obj (snd (removeEventListener type listener s))) !! type)
  = filter (fun x => x ≠ listener) (default [] (listeners (obj s) !! type)).
Proof.
  rewrite removeEventListener_spec. unfold get_property.
  destruct (listeners (obj s) !! type) as [l|] eqn:Hl; cbn [default from_option id].
  - destruct (filter (fun x => x ≠ listener) l) as [|x xs] eqn:Hf;
      cbn [snd obj listeners set_listeners].
    + by rewrite lookup_delete_eq.
    + by rewrite lookup_insert_eq.
  - destruct (inherited type); cbn [snd]; by rewrite Hl.
Qed.

(** A call on the registry leaves the other types alone, and makes no
    entry under a name that raises. *)
Lemma registry_call_other c s type :
  inherited type = true -> listeners (obj s) !! type = None ->
  listeners (obj (snd (registry_call c s))) !! type = None.
Proof.
  intros Hi Hl.
  assert (Hp : get_property (listeners (obj s)) type = Inherited).
  { by apply get_property_Inherited. }
  destruct c as [type' cb|type' cb]; cbn [registry_call].
  - rewrite addEventListener_spec.
    destruct (decide (type' = type)) as [->|Hne]; [by rewrite Hp|].
    destruct (get_property (listeners (obj s)) type') as [l| |]; [|done|].
    + case_bool_decide; [done|]. cbn [snd obj listeners set_listeners].
      by rewrite lookup_insert_ne.
    + cbn [snd obj listeners set_listeners]. by rewrite lookup_insert_ne.
  - rewrite removeEventListener_spec.
    destruct (decide (type' = type)) as [->|Hne]; [by rewrite Hp|].
    destruct (get_property (listeners (obj s)) type') as [l| |]; [|done|done].
    destruct (filter (fun x => x ≠ cb) l);
      cbn [snd obj listeners set_listeners].
    + by rewrite lookup_delete_ne.
    + by rewrite lookup_insert_ne.
Qed.

End RegistryMore.

(** X1.  A listener that is not registered for a type yet is registered
    by [addEventListener], and [removeEventListener] with the same
    arguments brings the whole instance back to what it was before:
    the type gets no entry that outlives its last listener.  (The
    registry is well formed, and the type is not a name that
    [this.listeners] inherits.) *)
Theorem removal_undoes_registration {World : Type}
    (type : jsstring) (listener : Callback) (s : @Sys World) :
  registry_ok (listeners (obj s)) ->
  dispatchable (obj s) type ->
  (forall l, listeners (obj s) !! type = Some l -> listener ∉ l) ->
  let s1 := snd (addEventListener type listener s) in
  addEventListener type listener s = (Normal tt, s1)
  /\ listener ∈ default [] (listeners (obj s1) !! type)
  /\ removeEventListener type listener s1 = (Normal tt, s).
Proof.
  intros Hok Hd Hnew s1. subst s1. unfold dispatchable in Hd.
  rewrite addEventListener_spec.
  destruct (get_property (listeners (obj s)) type) as [l| |] eqn:Hp; [|done|].
  - apply get_property_Own in Hp. specialize (Hnew l Hp).
    destruct (Hok type l Hp) as [_ Hne].
    rewrite bool_decide_eq_false_2 by done. split; [done|].
    cbn [snd obj listeners set_listeners]. rewrite lookup_insert_eq. split.
    { cbn [default]. apply elem_of_app. right. by apply list_elem_of_singleton. }
    rewrite removeEventListener_spec. cbn [obj listeners set_listeners].
    unfold get_property. rewrite lookup_insert_eq.
    rewrite filter_app, filter_other by done.
    rewrite filter_cons_False, filter_nil, app_nil_r by (intros H; by apply H).
    destruct l as [|x l]; [done|].
    cbn [obj world log listeners set_listeners].
    rewrite insert_insert_eq, insert_id by done.
    destruct s as [[] w lg]; done.
  - unfold get_property in Hp.
    destruct (listeners (obj s) !! type) eqn:Hl; [done|].
    split; [done|]. cbn [snd obj listeners set_listeners].
    rewrite lookup_insert_eq. split.
    { by apply list_elem_of_singleton. }
    rewrite removeEventListener_spec. cbn [obj listeners set_listeners].
    unfold get_property. rewrite lookup_insert_eq.
    rewrite filter_cons_False, filter_nil by (intros H; by apply H).
    cbn [obj world log listeners set_listeners].
    rewrite delete_insert_eq, delete_id by done.
    destruct s as [[] w lg]; done.
Qed.

(** [Fn 1] on an instance that has no listener yet. *)
Lemma removal_undoes_registration_witness :
  let s := constructor quiet (str "/events") not_started tt in
  let s1 := snd (addEventListener (str "message") (Fn 1) s) in
  addEventListener (str "message") (Fn 1) s = (Normal tt, s1)
  /\ Fn 1 ∈ default [] (listeners (obj s1) !! str "message")
  /\ removeEventListener (str "message") (Fn 1) s1 = (Normal tt, s).
Proof.
  apply (removal_undoes_registration (str "message") (Fn 1)
           (constructor quiet (str "/events") not_started tt)).
  - intros type l Hl.
    destruct (lookup_empty_Some (M := gmap jsstring) type l Hl).
  - by apply dispatchable_not_inherited.
  - intros l Hl. destruct (lookup_empty_Some (M := gmap jsstring) _ l Hl).
Defined.

(** X2.  Once [removeEventListener] has been called for a type and a
    listener, a dispatch of an event of this type does not call the
    listener, unless it is also the primary handler of the type. *)
Theorem removed_listener_is_not_called {World : Type}
    (behave : nat -> SSEvent -> World -> World * bool)
    (type : jsstring) (listener : Callback) (ev : SSEvent) (s : Sys) :
  ev_type ev = type ->
  handlers (obj s) !! type <> Some listener ->
  let s1 := snd (removeEventListener type listener s) in
  exists es,
    log (snd (dispatchEvent behave (Some ev) s1)) = log s ++ es
    /\ listener ∉ callbacks_of es.
Proof.
  intros <- Hh s1.
  pose proof (removeEventListener_listeners (ev_type ev) listener s) as Hls.
  fold s1 in Hls.
  assert (Hframe : handlers (obj s1) = handlers (obj s) /\ log s1 = log s).
  { subst s1. rewrite removeEventListener_spec.
    destruct (get_property (listeners (obj s)) (ev_type ev)) as [l| |];
      [|done|done].
    by destruct (filter (fun x => x ≠ listener) l). }
  destruct Hframe as [Hhs Hlog].
  destruct (dispatchEvent_calls behave ev s1) as (r & w & es & -> & _ & Hpre).
  cbn [snd log]. rewrite Hlog. eexists. split; [done|].
  change (callbacks_of (Dispatched (readyState (obj s1)) (set_source ev) :: es))
    with (callbacks_of es).
  intros Hin. destruct Hpre as [rest Hpre].
  assert (Hin' : listener ∈ handler_of (obj s1) (ev_type ev)
                            ++ default [] (listeners (obj s1) !! ev_type ev)).
  { rewrite Hpre. apply elem_of_app. by left. }
  apply elem_of_app in Hin' as [Hin'|Hin'].
  - unfold handler_of in Hin'. rewrite Hhs in Hin'.
    destruct (handlers (obj s) !! ev_type ev) as [h|]; cbn in Hin'.
    + apply list_elem_of_singleton in Hin' as ->. done.
    + by apply elem_of_nil in Hin'.
  - rewrite Hls in Hin'. by apply filter_same in Hin'.
Qed.

(** [Fn 1] is removed from the two listeners of ["message"]. *)
Lemma removed_listener_is_not_called_witness :
  let s1 := snd (removeEventListener (str "message") (Fn 1) two_listeners) in
  exists es,
    log (snd (dispatchEvent cancel_first (Some cancelable_message) s1))
    = log two_listeners ++ es
    /\ Fn 1 ∉ callbacks_of es.
Proof.
  apply (removed_listener_is_not_called cancel_first (str "message") (Fn 1)
           cancelable_message two_listeners); [reflexivity|].
  vm_compute. discriminate.
Defined.

(** X3.  [removeEventListener] for a listener that is not registered
    for the type changes nothing and raises nothing.  (The registry is
    well formed, and the type is not a name that [this.listeners]
    inherits.) *)
Theorem removal_of_unknown_listener {World : Type}
    (type : jsstring) (listener : Callback) (s : @Sys World) :
  registry_ok (listeners (obj s)) ->
  dispatchable (obj s) type ->
  (forall l, listeners (obj s) !! type = Some l -> listener ∉ l) ->
  removeEventListener type listener s = (Normal tt, s).
Proof.
  intros Hok Hd Hnew. unfold dispatchable in Hd.
  rewrite removeEventListener_spec.
  destruct (get_property (listeners (obj s)) type) as [l| |] eqn:Hp;
    [|done|done].
  apply get_property_Own in Hp. specialize (Hnew l Hp).
  destruct (Hok type l Hp) as [_ Hne].
  rewrite filter_other by done. destruct l as [|x l]; [done|].
  rewrite insert_id by done. by destruct s as [[] w lg].
Qed.

(** [Fn 3] is not one of the two listeners of ["message"]. *)
Lemma removal_of_unknown_listener_witness :
  removeEventListener (str "message") (Fn 3) two_listeners
  = (Normal tt, two_listeners).
Proof.
  apply (removal_of_unknown_listener (str "message") (Fn 3) two_listeners).
  - apply (call_all_ok [Add (str "message") (Fn 1); Add (str "message") (Fn 2)]).
    intros type l Hl.
    destruct (lookup_empty_Some (M := gmap jsstring) type l Hl).
  - by apply dispatchable_not_inherited.
  - intros l Hl. vm_compute in Hl. injection Hl as <-.
    apply (bool_decide_unpack _). vm_compute. exact I.
Defined.

(** X4.  A type whose name [this.listeners] inherits from
    [Object.prototype] (["constructor"], ["toString"], ...) can never be
    given a listener: whatever calls were made on the registry before,
    [addEventListener] and [removeEventListener] raise a [TypeError] for
    it and leave the instance as it is. *)
Theorem inherited_name_cannot_be_registered {World : Type}
    (type : jsstring) (listener : Callback) (s : @Sys World)
    (calls : list RegistryCall) :
  inherited type = true ->
  listeners (obj s) !! type = None ->
  let s' := call_all s calls in
  addEventListener type listener s' = (Throw TypeError, s')
  /\ removeEventListener type listener s' = (Throw TypeError, s').
Proof.
  intros Hi Hl s'.
  assert (Hl' : listeners (obj s') !! type = None).
  { subst s'. revert s Hl. induction calls as [|c calls IH]; intros s Hl; [done|].
    cbn [call_all fold_left]. apply IH. by apply registry_call_other. }
  assert (Hp : get_property (listeners (obj s')) type = Inherited).
  { by apply get_property_Inherited. }
  by rewrite addEventListener_spec, removeEventListener_spec, Hp.
Qed.

(** ["toString"], after a listener was registered for ["message"]. *)
Lemma inherited_name_cannot_be_registered_witness :
  let s' := call_all (constructor quiet (str "/events") not_started tt)
              [Add (str "message") (Fn 1)] in
  addEventListener (str "toString") (Fn 2) s' = (Throw TypeError, s')
  /\ removeEventListener (str "toString") (Fn 2) s' = (Throw TypeError, s').
Proof.
  apply (inherited_name_cannot_be_registered (str "toString") (Fn 2)
           (constructor quiet (str "/events") not_started tt)
           [Add (str "message") (Fn 1)]); reflexivity.
Defined.

(** X5.  An event that cannot be cancelled and is not cancelled yet
    (every event the instance creates is such: [new CustomEvent(type)])
    reaches the primary handler of its type and then every listener of
    the type, in the order of registration, each with the same event;
    [dispatchEvent] returns [true] and changes no field of the instance.
    What the callbacks do, [preventDefault] included, does not stop
    it. *)
Theorem uncancelable_event_reaches_all {World : Type}
    (behave : nat -> SSEvent -> World -> World * bool)
    (ev : SSEvent) (s : Sys) :
  ev_cancelable ev = false ->
  ev_defaultPrevented ev = false ->
  dispatchable (obj s) (ev_type ev) ->
  exists w,
    dispatchEvent behave (Some ev) s
    = (Normal true,
       mkSys (obj s) w
         (log s ++ Dispatched (readyState (obj s)) (set_source ev)
                :: map (fun cb => Invoked cb (set_source ev))
                       (handler_of (obj s) (ev_type ev)
                        ++ default [] (listeners (obj s) !! ev_type ev)))).
Proof. apply dispatchEvent_not_cancelable. Qed.

(** [new CustomEvent("message")] and the two listeners of ["message"],
    the first of which calls [preventDefault]. *)
Lemma uncancelable_event_reaches_all_witness :
  exists w,
    dispatchEvent cancel_first (Some (CustomEvent (str "message"))) two_listeners
    = (Normal true,
       mkSys (obj two_listeners) w
         (log two_listeners
          ++ Dispatched INITIALIZING (set_source (CustomEvent (str "message")))
          :: map (fun cb => Invoked cb (set_source (CustomEvent (str "message"))))
                 [noop; Fn 1; Fn 2])).
Proof.
  apply (uncancelable_event_reaches_all cancel_first
           (CustomEvent (str "message")) two_listeners); try reflexivity.
  by apply dispatchable_not_inherited.
Defined.

(** X6.  The event of a record of the stream cannot be cancelled: when
    the assembler hands a parsed record to [dispatchEvent], the handler
    of its type and every listener of its type are called, in the order
    of registration.  (The type is not a name that [this.listeners]
    inherits.) *)
Theorem record_reaches_every_listener {World : Type}
    (behave : nat -> SSEvent -> World -> World * bool)
    (record : jsstring) (ev : SSEvent) (s : Sys) :
  Parser._parseEventChunk record = Some ev ->
  dispatchable (obj s) (ev_type ev) ->
  exists w,
    dispatchEvent behave (Parser._parseEventChunk record) s
    = (Normal true,
       mkSys (obj s) w
         (log s ++ Dispatched (readyState (obj s)) (set_source ev)
                :: invocations (obj s) (set_source ev))).
Proof.
  intros Hev Hd. rewrite Hev.
  apply dispatchEvent_invocations; [| |done].
  - unfold Parser._parseEventChunk in Hev.
    destruct record; [done|]. by injection Hev as <-.
  - unfold Parser._parseEventChunk in Hev.
    destruct record; [done|]. by injection Hev as <-.
Qed.

(** The record ["data: x"] and the two listeners of ["message"]. *)
Lemma record_reaches_every_listener_witness :
  exists w,
    dispatchEvent cancel_first (Parser._parseEventChunk (str "data: x"))
      two_listeners
    = (Normal true,
       mkSys (obj two_listeners) w
         (log two_listeners
          ++ Dispatched (readyState (obj two_listeners))
               (set_source (mkEvent (str "message") false false false
                              (JStr (str "x")) null None))
          :: invocations (obj two_listeners)
               (set_source (mkEvent (str "message") false false false
                              (JStr (str "x")) null None)))).
Proof.
  apply (record_reaches_every_listener cancel_first (str "data: x")
           (mkEvent (str "message") false false false (JStr (str "x")) null None)
           two_listeners).
  - vm_compute. reflexivity.
  - by apply dispatchable_not_inherited.
Defined.

(** ** The actions of the host *)

Section ActionFacts.
Context {World : Type} (behave : nat -> SSEvent -> World -> World * bool).

Lemma same_all (o : SSE) :
  set_listeners (listeners o) (set_chunk (chunk o) (set_progress (progress o) o))
  = o.
Proof. by destruct o. Qed.

Lemma registry_call_frame c (s : @Sys World) :
  exists ls,
    snd (registry_call c s) = mkSys (set_listeners ls (obj s)) (world s) (log s).
Proof.
  destruct c as [type cb|type cb]; cbn [registry_call].
  - rewrite addEventListener_spec.
    destruct (get_property (listeners (obj s)) type) as [l| |].
    + case_bool_decide; [|by eexists].
      exists (listeners (obj s)). by rewrite same_listeners, same_state.
    + exists (listeners (obj s)). by rewrite same_listeners, same_state.
    + by eexists.
  - rewrite removeEventListener_spec.
    destruct (get_property (listeners (obj s)) type) as [l| |].
    + destruct (filter (fun x => x ≠ cb) l); by eexists.
    + exists (listeners (obj s)). by rewrite same_listeners, same_state.
    + exists (listeners (obj s)). by rewrite same_listeners, same_state.
Qed.

(** The fields an action leaves. *)
Lemma act_obj a (s : Sys) :
  exists o1 p c ls,
    action_change a (obj s) o1
    /\ obj (act behave s a) = set_listeners ls (set_chunk c (set_progress p o1))
    /\ (progress (obj s) <= p)%nat
    /\ (separator_free (chunk (obj s)) -> separator_free c).
Proof.
  destruct a as [| |type cb|type cb|event|n]; cbn [act].
  - destruct (xhr (obj s)) eqn:Hx.
    + rewrite stream_noop by done.
      exists (obj s), (progress (obj s)), (chunk (obj s)), (listeners (obj s)).
      split; [left; constructor|]. by rewrite same_all.
    + destruct (stream_attempt behave s Hx) as (w & ->).
      exists (set_xhr true (set_readyState CONNECTING (obj s))),
             (progress (obj s)), (chunk (obj s)), (listeners (obj s)).
      split; [by right|]. split; [by destruct (obj s)|done].
  - pose proof (close_state_change behave s) as Hsc.
    exists (obj (snd (close behave s))),
           (progress (obj s)), (chunk (obj s)), (listeners (obj s)).
    split; [by left|]. split; [|done]. by destruct Hsc, (obj s).
  - destruct (registry_call_frame (Add type cb) s) as (ls & Hls).
    cbn [registry_call] in Hls. rewrite Hls.
    exists (obj s), (progress (obj s)), (chunk (obj s)), ls.
    split; [left; constructor|]. split; [by destruct (obj s)|done].
  - destruct (registry_call_frame (Remove type cb) s) as (ls & Hls).
    cbn [registry_call] in Hls. rewrite Hls.
    exists (obj s), (progress (obj s)), (chunk (obj s)), ls.
    split; [left; constructor|]. split; [by destruct (obj s)|done].
  - destruct (dispatchEvent_obj behave event s) as (r & w & es & ->).
    exists (obj s), (progress (obj s)), (chunk (obj s)), (listeners (obj s)).
    split; [left; constructor|]. by rewrite same_all.
  - destruct (notify_obj behave n s) as (o1 & p & c & Hsc & Hobj & Hp & Hc).
    exists o1, p, c, (listeners (obj s)).
    split; [by left|]. split; [|done]. rewrite Hobj.
    by destruct Hsc, (obj s).
Qed.

Lemma action_change_transition a o o1 :
  action_change a o o1 -> transition (state_of o) (state_of o1).
Proof.
  unfold state_of. intros [Hsc|(_ & Hx & ->)].
  - destruct Hsc as [|Hx Hrs|Hx Hrs|Hx]; cbn.
    + constructor.
    + rewrite Hx, Hrs. constructor.
    + rewrite Hx. by constructor.
    + rewrite Hx. constructor.
  - cbn. rewrite Hx. constructor.
Qed.

Lemma act_transition a (s : Sys) :
  transition (state_of (obj s)) (state_of (obj (act behave s a)))
  /\ (xhr (obj s) = false -> xhr (obj (act behave s a)) = true ->
      a = call_stream).
Proof.
  destruct (act_obj a s) as (o1 & p & c & ls & Hch & -> & _ & _).
  split.
  - apply (action_change_transition a) in Hch. done.
  - intros Hx Hx'. cbn in Hx'.
    destruct Hch as [Hsc|(-> & _)]; [|done].
    destruct Hsc; cbn in Hx'; congruence.
Qed.

Lemma transition_finished st :
  transition (CLOSED, true) st -> st = (CLOSED, true).
Proof. intros H. inversion H; subst; done. Qed.

Lemma transition_lifecycle_ok o o' :
  transition (state_of o) (state_of o') -> lifecycle_ok o -> lifecycle_ok o'.
Proof.
  unfold state_of, lifecycle_ok. intros Ht Hok.
  inversion Ht as [st H1 H2|st H1 H2| |st Hne H1 H2|st H1 H2]; subst.
  - exact Hok.
  - by right; left.
  - by right; right; left.
  - by right; right; right.
  - by right; right; right.
Qed.

Lemma acts_lifecycle_ok l (s : Sys) :
  lifecycle_ok (obj s) -> lifecycle_ok (obj (acts behave s l)).
Proof.
  revert s. induction l as [|a l IH]; intros s Hok; [done|].
  cbn [acts fold_left]. apply IH.
  eapply transition_lifecycle_ok; [|done]. apply act_transition.
Qed.

End ActionFacts.

Section CloseFacts.
Context {World : Type} (behave : nat -> SSEvent -> World -> World * bool).

Lemma holds_stream_true o :
  holds_stream o = true <-> xhr o = true /\ readyState o <> CLOSED.
Proof.
  unfold holds_stream. rewrite andb_true_iff, negb_true_iff, Z.eqb_neq. done.
Qed.

Lemma holds_stream_false o :
  holds_stream o = false <-> readyState o = CLOSED \/ xhr o = false.
Proof.
  unfold holds_stream. rewrite andb_false_iff, negb_false_iff, Z.eqb_eq. tauto.
Qed.

(** [close], whichever way it goes. *)
Lemma close_exact (s : Sys) :
  exists w,
    close behave s
    = (Normal tt, mkSys (closed (obj s)) w (log s ++ closing (obj s))).
Proof.
  unfold closed, closing. destruct (holds_stream (obj s)) eqn:Hh.
  - apply holds_stream_true in Hh as [Hx Hrs].
    destruct (close_invocations behave s Hrs Hx) as (w & ->). by exists w.
  - apply holds_stream_false in Hh. rewrite close_noop by done.
    exists (world s). by rewrite app_nil_r, same_state.
Qed.

(** An event the instance creates is dispatched, then the instance
    closes. *)
Lemma dispatch_then_close ev (s : Sys) :
  ev_cancelable ev = false -> ev_defaultPrevented ev = false ->
  inherited (ev_type ev) = false ->
  exists w,
    (bind (dispatchEvent behave (Some ev)) (fun _ => close behave)) s
    = (Normal tt,
       mkSys (closed (obj s)) w
         (log s ++ Dispatched (readyState (obj s)) (set_source ev)
                :: invocations (obj s) (set_source ev) ++ closing (obj s))).
Proof.
  intros Hc Hp Hi. unfold bind.
  destruct (dispatchEvent_invocations behave ev s Hc Hp) as (w1 & ->).
  { by apply dispatchable_not_inherited. }
  match goal with
  | |- context [close behave ?s1] => destruct (close_exact s1) as (w & ->)
  end.
  exists w. cbn [obj log]. by rewrite <- app_assoc.
Qed.

End CloseFacts.

Section NotificationFacts.
Context {World : Type} (behave : nat -> SSEvent -> World -> World * bool).

Lemma invocations_are_invocations o ev : Forall is_invocation (invocations o ev).
Proof. unfold invocations. apply Forall_map. by apply Forall_true. Qed.

Lemma dispatched_invocations_nil o ev : dispatched (invocations o ev) = [].
Proof. apply dispatched_invocations, invocations_are_invocations. Qed.

Lemma parsed_not_cancelable record ev :
  Parser._parseEventChunk record = Some ev ->
  ev_cancelable ev = false /\ ev_defaultPrevented ev = false.
Proof.
  unfold Parser._parseEventChunk. destruct record; [done|].
  by intros [= <-].
Qed.

Lemma run_app (s : Sys) ns1 ns2 :
  run behave s (ns1 ++ ns2) = run behave (run behave s ns1) ns2.
Proof. unfold run. by rewrite fold_left_app. Qed.

(** The end of the request, reported while the instance holds it. *)
Lemma notify_done e (s : Sys) :
  xhr (obj s) = true -> xhr_readyState e = DONE ->
  exists w,
    notify behave s (readystatechange_event e)
    = mkSys (set_readyState CLOSED (obj s)) w
        (log s ++ Dispatched CLOSED (ReadyStateEvent CLOSED)
               :: invocations (obj s) (ReadyStateEvent CLOSED)).
Proof.
  intros Hx Hd. unfold notify. cbn [listener_of].
  rewrite _checkStreamClosed_done by done.
  destruct (_setReadyState_invocations behave CLOSED s) as (w & ->).
  by exists w.
Qed.

End NotificationFacts.

(** ** The state machine, further *)

(** X7.  [new SSE(url, options)] starts the stream at once unless
    [options.start] is [false]: the instance is CONNECTING and holds a
    request, the change of state was announced to the handler
    [onreadystatechange] (no listener can be registered yet), and the
    request was sent: opened with the method and the URL, given its
    headers in the order in which [options.headers] enumerates them, its
    credentials flag, and sent with the payload. *)
Theorem constructor_sends_the_request {World : Type}
    (behave : nat -> SSEvent -> World -> World * bool)
    (url : jsstring) (options : SSEOptions) (w : World) :
  opt_start options <> Some false ->
  let o := SSE_new url options in
  let s := constructor behave url options w in
  obj s = set_xhr true (set_readyState CONNECTING o)
  /\ log s = Dispatched CONNECTING (ReadyStateEvent CONNECTING)
             :: Invoked noop (ReadyStateEvent CONNECTING)
             :: request_commands o.
Proof.
  intros Hstart o s.
  assert (Hs : s = snd (stream behave (mkSys o w []))).
  { subst s. unfold constructor. by destruct (opt_start options) as [[|]|]. }
  destruct (stream_attempt behave (mkSys o w [])) as (w' & Heq); [done|].
  rewrite Hs, Heq. done.
Qed.

(** [new SSE("/events")]. *)
Lemma constructor_sends_the_request_witness :
  let o := SSE_new (str "/events") no_options in
  obj connecting = set_xhr true (set_readyState CONNECTING o)
  /\ log connecting = Dispatched CONNECTING (ReadyStateEvent CONNECTING)
                      :: Invoked noop (ReadyStateEvent CONNECTING)
                      :: request_commands o.
Proof.
  apply (constructor_sends_the_request quiet (str "/events") no_options tt).
  discriminate.
Defined.

(** X8.  [stream] makes an attempt only when the instance holds no
    request: then the state becomes CONNECTING, the change is announced
    to the handler and the listeners of ["readystatechange"], and the
    request is sent; this is also how a closed instance is started
    again.  When the instance holds a request the call does nothing, so
    calling [stream] twice is calling it once. *)
Theorem stream_makes_one_attempt {World : Type}
    (behave : nat -> SSEvent -> World -> World * bool) (s : Sys) :
  let s1 := snd (stream behave s) in
  (if xhr (obj s)
   then stream behave s = (Normal tt, s)
   else obj s1 = set_xhr true (set_readyState CONNECTING (obj s))
        /\ log s1 = log s ++ Dispatched CONNECTING (ReadyStateEvent CONNECTING)
                          :: invocations (obj s) (ReadyStateEvent CONNECTING)
                          ++ request_commands (obj s))
  /\ stream behave s1 = (Normal tt, s1).
Proof.
  intros s1. subst s1. destruct (xhr (obj s)) eqn:Hx.
  - rewrite stream_noop by done. split; [done|]. by apply stream_noop.
  - destruct (stream_attempt behave s Hx) as (w & ->). split; [done|].
    by apply stream_noop.
Qed.

(** X9.  A readystatechange notification of the transport does
    nothing until the request is DONE.  Then the instance becomes
    CLOSED, announces it, and keeps its request: no abort is sent.  From
    then on the instance is CLOSED and holds the request whatever calls
    and notifications follow, and the calls of [stream] and of [close]
    do nothing: an instance whose stream has ended cannot be started
    again. *)
Theorem finished_instance_cannot_restart {World : Type}
    (behave : nat -> SSEvent -> World -> World * bool)
    (e e' : XMLHttpRequest) (s : Sys) :
  xhr (obj s) = true ->
  xhr_readyState e = DONE ->
  xhr_readyState e' <> DONE ->
  let s1 := notify behave s (readystatechange_event e) in
  notify behave s (readystatechange_event e') = s
  /\ obj s1 = set_readyState CLOSED (obj s)
  /\ log s1 = log s ++ Dispatched CLOSED (ReadyStateEvent CLOSED)
                    :: invocations (obj s) (ReadyStateEvent CLOSED)
  /\ (forall l, state_of (obj (acts behave s1 l)) = (CLOSED, true))
  /\ (forall l, Forall (fun a => a = call_stream \/ a = call_close) l ->
                acts behave s1 l = s1).
Proof.
  intros Hx Hd Hd' s1.
  split.
  { unfold notify. cbn [listener_of]. by rewrite _checkStreamClosed_going. }
  destruct (notify_done behave e s Hx Hd) as (w & Hs1). fold s1 in Hs1.
  assert (Hst : state_of (obj s1) = (CLOSED, true)).
  { rewrite Hs1. unfold state_of. cbn. by rewrite Hx. }
  split; [by rewrite Hs1|]. split; [by rewrite Hs1|].
  clear Hs1. revert Hst. generalize s1. clear. intros s Hst. split.
  - intros l. revert s Hst. induction l as [|a l IH]; intros s Hst; [done|].
    cbn [acts fold_left]. apply IH.
    destruct (act_transition behave a s) as [Ht _].
    rewrite Hst in Ht. by apply transition_finished.
  - intros l Hl. induction Hl as [|a l Ha _ IH]; [done|].
    cbn [acts fold_left].
    assert (act behave s a = s) as ->; [|done].
    unfold state_of in Hst. injection Hst as Hrs Hx.
    destruct Ha as [-> | ->]; cbn [act].
    + by rewrite stream_noop.
    + rewrite close_noop; by auto.
Qed.

(** The request of [new SSE("/events")] is LOADING, then DONE. *)
Lemma finished_instance_cannot_restart_witness :
  let s1 := notify quiet connecting (readystatechange_event (mkXhr 200 [] 4)) in
  notify quiet connecting (readystatechange_event (mkXhr 200 [] 3)) = connecting
  /\ obj s1 = set_readyState CLOSED (obj connecting)
  /\ log s1 = log connecting ++ Dispatched CLOSED (ReadyStateEvent CLOSED)
                    :: invocations (obj connecting) (ReadyStateEvent CLOSED)
  /\ (forall l, state_of (obj (acts quiet s1 l)) = (CLOSED, true))
  /\ (forall l, Forall (fun a => a = call_stream \/ a = call_close) l ->
                acts quiet s1 l = s1).
Proof.
  apply (finished_instance_cannot_restart quiet (mkXhr 200 [] 4) (mkXhr 200 [] 3)
           connecting); try reflexivity.
  discriminate.
Defined.

(** X10.  Every action of the host makes one of the five transitions of
    the state machine: the state and the request stay; a new attempt
    (CONNECTING with a request, from an instance without one); the
    opening (CONNECTING to OPEN); the closing (CLOSED, the request
    given up); the end of the stream (CLOSED, the request kept).  Only
    a call of [stream] gives a request to an instance that has none. *)
Theorem actions_follow_the_state_machine {World : Type}
    (behave : nat -> SSEvent -> World -> World * bool)
    (s : Sys) (a : Action) (l : list Action) :
  transition (state_of (obj s)) (state_of (obj (act behave s a)))
  /\ (Forall not_stream l -> xhr (obj s) = false ->
      xhr (obj (acts behave s l)) = false).
Proof.
  split; [apply act_transition|].
  intros Hl. revert s. induction Hl as [|b l Hb _ IH]; intros s Hx; [done|].
  cbn [acts fold_left]. apply IH.
  destruct (xhr (obj (act behave s b))) eqn:Hx'; [|done].
  destruct (act_transition behave b s) as [_ Hs]. by specialize (Hs Hx Hx').
Qed.

(** A listener is registered and notifications arrive on an instance
    that was not started: it gets no request. *)
Lemma actions_follow_the_state_machine_witness :
  let s := constructor quiet (str "/events") not_started tt in
  let l := [ call_addEventListener (str "message") (Fn 1);
             transport (progress_event (mkXhr 200 (str "data: a") 3));
             call_close ] in
  transition (state_of (obj s)) (state_of (obj (act quiet s call_stream)))
  /\ xhr (obj (acts quiet s l)) = false.
Proof.
  destruct (actions_follow_the_state_machine quiet
              (constructor quiet (str "/events") not_started tt) call_stream
              [ call_addEventListener (str "message") (Fn 1);
                transport (progress_event (mkXhr 200 (str "data: a") 3));
                call_close ]) as [Ht Hx].
  split; [exact Ht|]. apply Hx; [|reflexivity].
  repeat constructor; discriminate.
Defined.

(** X11.  At every moment of the life of an instance the state is one
    of the four constants and goes with the request: INITIALIZING only
    without a request (before the first attempt), CONNECTING and OPEN
    only with one. *)
Theorem state_goes_with_the_request {World : Type}
    (behave : nat -> SSEvent -> World -> World * bool)
    (url : jsstring) (options : SSEOptions) (w : World) (l : list Action) :
  lifecycle_ok (obj (acts behave (constructor behave url options w) l)).
Proof.
  apply acts_lifecycle_ok. unfold constructor.
  assert (Hnew : lifecycle_ok (obj (mkSys (SSE_new url options) w []))).
  { by left. }
  assert (Hstream :
            lifecycle_ok (obj (snd (stream behave (mkSys (SSE_new url options) w []))))).
  { destruct (stream_attempt behave (mkSys (SSE_new url options) w []))
      as (w' & ->); [done|]. by right; left. }
  by destruct (opt_start options) as [[|]|].
Qed.

(** X12.  As long as [stream] is not called the state never goes back:
    it moves from INITIALIZING or CONNECTING towards CLOSED only, and
    CLOSED is final. *)
Theorem state_never_goes_back {World : Type}
    (behave : nat -> SSEvent -> World -> World * bool)
    (s : Sys) (l : list Action) :
  lifecycle_ok (obj s) ->
  Forall not_stream l ->
  (readyState (obj s) <= readyState (obj (acts behave s l)))%Z
  /\ (readyState (obj s) = CLOSED -> readyState (obj (acts behave s l)) = CLOSED).
Proof.
  intros Hok Hl.
  assert (Hle : (readyState (obj s) <= readyState (obj (acts behave s l)))%Z).
  { revert s Hok. induction Hl as [|a l Ha _ IH]; intros s Hok; [done|].
    cbn [acts fold_left].
    destruct (act_transition behave a s) as [Ht Hs].
    pose proof (transition_lifecycle_ok _ _ Ht Hok) as Hok'.
    specialize (IH _ Hok'). etransitivity; [|exact IH].
    assert (Hrange : (readyState (obj s) <= CLOSED)%Z).
    { unfold lifecycle_ok in Hok.
      destruct Hok as [[-> _]|[[-> _]|[[-> _]| ->]]]; done. }
    unfold state_of in Ht.
    inversion Ht as [st H1 H2|st H1 H2| |st Hne H1 H2|st H1 H2]; subst.
    - by rewrite H2.
    - exfalso. apply Ha. apply Hs; congruence.
    - replace (readyState (obj s)) with CONNECTING by congruence.
      replace (readyState (obj (act behave s a))) with OPEN by congruence.
      done.
    - by replace (readyState (obj (act behave s a))) with CLOSED by congruence.
    - by replace (readyState (obj (act behave s a))) with CLOSED by congruence. }
  split; [done|]. intros Hc.
  pose proof (acts_lifecycle_ok behave l s Hok) as Hok'.
  unfold lifecycle_ok in Hok'. rewrite Hc in Hle.
  destruct Hok' as [[Hr _]|[[Hr _]|[[Hr _]|Hr]]]; rewrite Hr in *; done.
Qed.

(** The instance [streaming] is closed, listeners come and go, and
    notifications still arrive. *)
Lemma state_never_goes_back_witness :
  let l := [ call_addEventListener (str "message") (Fn 1);
             call_close;
             transport (progress_event (mkXhr 200 (str "data: a") 3));
             transport abort_event ] in
  (readyState (obj streaming) <= readyState (obj (acts quiet streaming l)))%Z
  /\ (readyState (obj streaming) = CLOSED ->
      readyState (obj (acts quiet streaming l)) = CLOSED).
Proof.
  apply (state_never_goes_back quiet streaming).
  - right; right; left. split; reflexivity.
  - repeat constructor; discriminate.
Defined.

(** ** The pending text and the progress *)

Section PendingFacts.
Context {World : Type} (behave : nat -> SSEvent -> World -> World * bool).

Lemma acts_pending l (s : Sys) :
  (progress (obj s) <= progress (obj (acts behave s l)))%nat
  /\ (separator_free (chunk (obj s)) ->
      separator_free (chunk (obj (acts behave s l)))).
Proof.
  revert s. induction l as [|a l IH]; intros s; [done|].
  cbn [acts fold_left]. fold (acts behave (act behave s a) l).
  destruct (act_obj behave a s) as (o1 & p & c & ls & _ & Hobj & Hp & Hc).
  destruct (IH (act behave s a)) as [IHp IHc]. rewrite Hobj in IHp, IHc.
  cbn [progress chunk set_listeners set_chunk set_progress] in IHp, IHc.
  split; [lia|]. intros Hfree. apply IHc. by apply Hc.
Qed.

Lemma acts_app l1 l2 (s : Sys) :
  acts behave s (l1 ++ l2) = acts behave (acts behave s l1) l2.
Proof. unfold acts. by rewrite fold_left_app. Qed.

Lemma constructor_chunk url options (w : World) :
  chunk (obj (constructor behave url options w)) = [].
Proof.
  unfold constructor.
  assert (Hstream :
            chunk (obj (snd (stream behave (mkSys (SSE_new url options) w [])))) = []).
  { destruct (stream_attempt behave (mkSys (SSE_new url options) w []))
      as (w' & ->); done. }
  by destruct (opt_start options) as [[|]|].
Qed.

End PendingFacts.

(** X13.  At every moment of the life of an instance the pending text
    (the field [chunk]) holds no record separator: a record that is
    complete is never kept waiting.  And the count of the code units
    read (the field [progress]) never decreases, whatever calls and
    notifications follow; a call of [close] or of [stream] does not set
    it back. *)
Theorem pending_text_holds_no_separator {World : Type}
    (behave : nat -> SSEvent -> World -> World * bool)
    (url : jsstring) (options : SSEOptions) (w : World)
    (l1 l2 : list Action) :
  let s1 := acts behave (constructor behave url options w) l1 in
  let s2 := acts behave s1 l2 in
  separator_free (chunk (obj s2))
  /\ (progress (obj s1) <= progress (obj s2))%nat.
Proof.
  intros s1 s2. split.
  - subst s2 s1. rewrite <- acts_app. apply acts_pending.
    rewrite constructor_chunk. apply separator_free_nil.
  - apply acts_pending.
Qed.


(** X14.  When the transport reports that the request was aborted, the
    instance dispatches an ["abort"] event to the handler [onabort] and
    to the listeners of ["abort"], in the state it is in, and then
    closes: when it holds a request and is not CLOSED it aborts the
    request, gives it up, and announces the state CLOSED; otherwise it
    does nothing more. *)
Theorem abort_notification {World : Type}
    (behave : nat -> SSEvent -> World -> World * bool) (s : Sys) :
  let s' := notify behave s abort_event in
  obj s' = closed (obj s)
  /\ log s' = log s ++ Dispatched (readyState (obj s)) AbortEvent
                    :: invocations (obj s) AbortEvent ++ closing (obj s).
Proof.
  intros s'. subst s'. unfold notify. cbn [listener_of]. unfold _onStreamAbort.
  destruct (dispatch_then_close behave (CustomEvent (str "abort")) s)
    as (w & ->); done.
Qed.

(** X15.  When the transport reports a failure of the request, the
    instance dispatches an ["error"] event whose data is the response of
    the request, to the handler [onerror] and to the listeners of
    ["error"], in the state it is in, and then closes as [close] does:
    when it holds a request and is not CLOSED it aborts the request,
    gives it up, and announces the state CLOSED. *)
Theorem error_notification {World : Type}
    (behave : nat -> SSEvent -> World -> World * bool)
    (e : XMLHttpRequest) (s : Sys) :
  let s' := notify behave s (error_event e) in
  obj s' = closed (obj s)
  /\ log s' = log s ++ Dispatched (readyState (obj s)) (ErrorEvent (responseText e))
                    :: invocations (obj s) (ErrorEvent (responseText e))
                    ++ closing (obj s).
Proof.
  intros s'. subst s'. unfold notify. cbn [listener_of]. unfold _onStreamFailure.
  destruct (dispatch_then_close behave
              (set_data (JStr (response e)) (CustomEvent (str "error"))) s)
    as (w & ->); done.
Qed.

(** X16.  A restart does not begin anew.  [close] and then [stream] on
    a streaming instance leave the count of the code units read and the
    pending text as they were.  The first progress notification of the
    new attempt opens the stream, but of the new response it reads
    nothing up to the old count: when the response is not longer than
    that, no record is dispatched and the count and the pending text
    stay. *)
Theorem restart_keeps_progress {World : Type}
    (behave : nat -> SSEvent -> World -> World * bool)
    (e : XMLHttpRequest) (s : Sys) :
  xhr (obj s) = true ->
  readyState (obj s) <> CLOSED ->
  separator_free (chunk (obj s)) ->
  status e = 200%Z ->
  (length (responseText e) <= progress (obj s))%nat ->
  let s1 := acts behave s [call_close; call_stream] in
  let s2 := notify behave s1 (progress_event e) in
  state_of (obj s1) = (CONNECTING, true)
  /\ progress (obj s1) = progress (obj s)
  /\ chunk (obj s1) = chunk (obj s)
  /\ exists es,
       log s2 = log s1 ++ es
       /\ dispatched es = [OpenEvent; ReadyStateEvent OPEN]
       /\ progress (obj s2) = progress (obj s)
       /\ chunk (obj s2) = chunk (obj s).
Proof.
  intros Hx Hrs Hfree Hst Hlen s1 s2.
  assert (Hs1 : obj s1
                = set_xhr true (set_readyState CONNECTING
                    (set_readyState CLOSED (set_xhr false (obj s))))).
  { subst s1. cbn [acts fold_left act].
    destruct (close_invocations behave s Hrs Hx) as (w1 & ->). cbn [snd].
    match goal with
    | |- context [stream behave ?s0] =>
        destruct (stream_attempt behave s0) as (w2 & ->); [done|]
    end.
    done. }
  split; [by rewrite Hs1|]. split; [by rewrite Hs1|]. split; [by rewrite Hs1|].
  subst s2. unfold notify. cbn [listener_of].
  destruct (_onStreamProgress_live behave e s1) as (r & w & es0 & es & Heq & Hlife & Hparts);
    [by rewrite Hs1|done|].
  rewrite Hs1 in Heq, Hlife, Hparts.
  cbn [readyState progress chunk set_xhr set_readyState] in Heq, Hlife, Hparts.
  change (CONNECTING =? CONNECTING)%Z with true in Heq, Hlife.
  unfold substring_from in Heq, Hparts.
  rewrite drop_ge in Heq, Hparts by done. rewrite app_nil_r in Heq, Hparts.
  rewrite (split_separator_free _ Hfree) in Heq, Hparts.
  destruct Hparts as [-> Hd]; [constructor|].
  destruct Hlife as (i1 & i2 & -> & Hi1 & Hi2).
  rewrite Heq. cbn [snd obj log]. eexists. split; [done|].
  split; [|split; [cbn; lia|done]].
  rewrite dispatched_app, Hd. cbn [removelast omap map]. rewrite app_nil_r.
  rewrite dispatched_cons, dispatched_app, dispatched_cons.
  by rewrite !dispatched_invocations.
Qed.

(** The instance [streaming] has read 16 code units; the new response
    begins with a record of 9. *)
Lemma restart_keeps_progress_witness :
  let e := mkXhr 200 (str "data: c" ++ [LF; LF]) 3 in
  let s1 := acts quiet streaming [call_close; call_stream] in
  let s2 := notify quiet s1 (progress_event e) in
  state_of (obj s1) = (CONNECTING, true)
  /\ progress (obj s1) = progress (obj streaming)
  /\ chunk (obj s1) = chunk (obj streaming)
  /\ exists es,
       log s2 = log s1 ++ es
       /\ dispatched es = [OpenEvent; ReadyStateEvent OPEN]
       /\ progress (obj s2) = progress (obj streaming)
       /\ chunk (obj s2) = chunk (obj streaming).
Proof.
  apply (restart_keeps_progress quiet (mkXhr 200 (str "data: c" ++ [LF; LF]) 3)
           streaming); try reflexivity.
  - discriminate.
  - apply separator_free_iff. reflexivity.
  - vm_compute. lia.
Defined.

(** X17.  A whole stream in the order of the transport: progress
    notifications that deliver growing prefixes of the text, the last
    one the text itself; then the notification that the request is
    DONE; then the load notification.  The instance dispatches ["open"]
    and the ["readystatechange"] of OPEN, the events of the complete
    records in the order of the text, the ["readystatechange"] of
    CLOSED, and only then the event of the trailing record, if there is
    one: the last event of a stream reaches the host when the state is
    CLOSED already.  The instance ends CLOSED with nothing pending, and
    keeps its request.  (No record has an event type that
    [this.listeners] inherits.) *)
Theorem stream_in_transport_order {World : Type}
    (behave : nat -> SSEvent -> World -> World * bool)
    (s : Sys) (texts : list jsstring) (text : jsstring) (e : XMLHttpRequest) :
  xhr (obj s) = true ->
  readyState (obj s) = CONNECTING ->
  progress (obj s) = O ->
  chunk (obj s) = [] ->
  texts <> [] ->
  grows [] texts ->
  List.last texts [] = text ->
  all_dispatchable (obj s) (complete_parts text ++ [pending_tail text]) ->
  xhr_readyState e = DONE ->
  let s' := run behave s (progress_events texts
                          ++ [readystatechange_event e; load_of text]) in
  exists es,
    log s' = log s ++ es
    /\ dispatched es
       = [OpenEvent; ReadyStateEvent OPEN]
           ++ map set_source (records_of (complete_parts text))
           ++ [ReadyStateEvent CLOSED]
           ++ map set_source
                (option_list (Parser._parseEventChunk (pending_tail text)))
    /\ state_of (obj s') = (CLOSED, true)
    /\ chunk (obj s') = [].
Proof.
  intros Hx Hrs Hp Hc Hne Hg Hlast Hall Hdone s'.
  apply Forall_app in Hall as [Hall Hall_tail].
  destruct (streaming_from behave texts s [] Hx Hp Hc Hg)
    as (es1 & parts & Hlog1 & Hparts & Hd1 & Hx1 & Hp1 & Hc1 & Hl1 & Hrs1).
  { by rewrite Hlast. }
  rewrite Hlast in *.
  change (complete_parts []) with (@nil jsstring) in Hparts.
  cbn [app] in Hparts. subst parts.
  destruct texts as [|text1 texts]; [done|].
  rewrite Hrs in Hd1, Hrs1.
  subst s'. rewrite run_app. set (s1 := run behave s _) in *.
  cbn [run fold_left].
  destruct (notify_done behave e s1 Hx1 Hdone) as (w2 & ->).
  set (s2 := mkSys _ w2 _).
  destruct (completion behave s2 text) as (es3 & Hlog3 & Hd3 & Hc3);
    [done..| | |].
  { by subst s2. }
  { intros ev Hev. unfold dispatchable. subst s2. cbn [obj listeners set_readyState].
    rewrite Hl1.
    destruct (forallb is_white_space (pending_tail text)) eqn:Hws.
    - rewrite (parse_blank _ Hws) in Hev.
      destruct (pending_tail text); [done|]. injection Hev as <-.
      by apply dispatchable_not_inherited.
    - apply Forall_cons in Hall_tail as [Ht _]. apply Ht.
      unfold record_event. by rewrite Hws. }
  set (s3 := notify behave s2 (load_of text)) in *.
  exists (es1 ++ (Dispatched CLOSED (ReadyStateEvent CLOSED)
                  :: invocations (obj s1) (ReadyStateEvent CLOSED)) ++ es3).
  split; [|split; [|split; [|done]]].
  - rewrite Hlog3. subst s2. cbn [log]. rewrite Hlog1.
    by rewrite <- !app_assoc.
  - rewrite !dispatched_app, Hd1, Hd3, dispatched_cons.
    rewrite dispatched_invocations_nil. cbn [lifecycle after_open].
    change (CONNECTING =? CONNECTING)%Z with true. cbn [app].
    by rewrite <- !app_assoc.
  - destruct (act_transition behave (transport (load_of text)) s2) as [Ht _].
    apply transition_finished. cbn [act] in Ht. fold s3 in Ht.
    replace (state_of (obj s2)) with (CLOSED, true) in Ht; [done|].
    subst s2. unfold state_of. cbn [obj xhr readyState set_readyState].
    by rewrite Hx1.
Qed.

(** The stream [two_records] with [partial_record], delivered to
    [new SSE("/events")] one code unit at a time. *)
Lemma stream_in_transport_order_witness :
  let text := stream_text two_records partial_record in
  let s' := run quiet connecting
              (progress_events (prefixes text)
               ++ [readystatechange_event (mkXhr 200 text 4); load_of text]) in
  exists es,
    log s' = log connecting ++ es
    /\ dispatched es
       = [OpenEvent; ReadyStateEvent OPEN]
           ++ map set_source (records_of (complete_parts text))
           ++ [ReadyStateEvent CLOSED]
           ++ map set_source
                (option_list (Parser._parseEventChunk (pending_tail text)))
    /\ state_of (obj s') = (CLOSED, true)
    /\ chunk (obj s') = [].
Proof.
  pose proof (grows_prefixes (stream_text two_records partial_record))
    as [Hgrows Hlast].
  destruct Hlast as [Hne Hlast]; [discriminate|].
  apply (stream_in_transport_order quiet connecting
           (prefixes (stream_text two_records partial_record))
           (stream_text two_records partial_record)
           (mkXhr 200 (stream_text two_records partial_record) 4));
    try reflexivity; try done.
  repeat constructor; intros ev Hev; vm_compute in Hev;
    try discriminate Hev; injection Hev as <-;
    by apply dispatchable_not_inherited.
Defined.

(** ** The parser, further *)

Section LineFacts.
Import FieldSpec.

Lemma line_match_none c s :
  c <> CR -> c <> LF -> regex_match Parser.line_separator (c :: s) = None.
Proof.
  intros Hcr Hlf. unfold regex_match, Parser.line_separator.
  cbn [List.find starts_with].
  apply not_eq_sym, N.eqb_neq in Hcr, Hlf. by rewrite Hcr, Hlf.
Qed.

Lemma line_match_terminator t rest :
  In t Parser.line_separator ->
  (t = [CR] -> head rest <> Some LF) ->
  regex_match Parser.line_separator (t ++ rest) = Some t.
Proof.
  intros Hin Hrest. cbn in Hin. destruct Hin as [<-|[<-|[<-|[]]]]; [done|done|].
  specialize (Hrest eq_refl). destruct rest as [|b rest]; [done|].
  unfold regex_match, Parser.line_separator. cbn [app List.find starts_with].
  change (LF =? CR) with false. change (CR =? CR) with true. cbn [andb].
  assert ((LF =? b) = false) as ->; [|done].
  apply N.eqb_neq. intros <-. by apply Hrest.
Qed.

Lemma split_line_free line :
  line_free line -> split Parser.line_separator false line = [line].
Proof.
  induction 1 as [|c line [Hcr Hlf] _ IH]; [done|].
  by rewrite split_cons, line_match_none, IH.
Qed.

Lemma head_join_lines lines :
  Forall line_free lines -> head (join_lines [CR] lines) <> Some LF.
Proof.
  intros Hall. destruct Hall as [|line lines Hline Hall]; [done|].
  assert (Hhead : forall rest, head (line ++ CR :: rest) <> Some LF).
  { intros rest. destruct Hline as [|c line [_ Hlf] _]; cbn;
      [by intros [= H]|intros [= H]; by apply Hlf]. }
  destruct lines as [|line' lines]; [|apply Hhead].
  cbn [join_lines]. destruct Hline as [|c line [_ Hlf] _]; cbn; [done|].
  intros [= H]. by apply Hlf.
Qed.

(** The lines of a text that is written with one terminator. *)
Lemma split_join_lines t lines :
  In t Parser.line_separator -> Forall line_free lines -> lines <> [] ->
  split Parser.line_separator false (join_lines t lines) = lines.
Proof.
  intros Ht Hall Hne. induction Hall as [|line lines Hline Hall IH]; [done|].
  destruct lines as [|line' lines]; [by apply split_line_free|].
  specialize (IH ltac:(done)).
  change (join_lines t (line :: line' :: lines))
    with (line ++ t ++ join_lines t (line' :: lines)).
  induction Hline as [|c line [Hcr Hlf] _ IHline].
  - cbn [app].
    assert (Hm : regex_match Parser.line_separator
                   (t ++ join_lines t (line' :: lines)) = Some t).
    { apply line_match_terminator; [done|]. intros ->. by apply head_join_lines. }
    assert (Hlen : t <> []) by (intros ->; cbn in Ht; by destruct Ht as [|[|[|[]]]]).
    destruct t as [|x t]; [done|].
    change ((x :: t) ++ join_lines (x :: t) (line' :: lines))
      with (x :: (t ++ join_lines (x :: t) (line' :: lines))) in Hm |- *.
    rewrite split_cons, Hm. cbn [app].
    change (x :: t ++ join_lines (x :: t) (line' :: lines))
      with ((x :: t) ++ join_lines (x :: t) (line' :: lines)).
    by rewrite drop_app_length, IH.
  - cbn [app]. by rewrite split_cons, line_match_none, IHline.
Qed.

Lemma join_lines_nil t lines :
  In t Parser.line_separator -> lines <> [] ->
  join_lines t lines = [] <-> lines = [[]].
Proof.
  intros Ht Hne. destruct lines as [|line [|line' lines]]; [done| |].
  - cbn. split; [by intros ->|by intros [= ->]].
  - cbn [join_lines]. split; [|done]. intros H.
    apply app_eq_nil in H as [_ H]. apply app_eq_nil in H as [-> _].
    cbn in Ht. by destruct Ht as [|[|[|[]]]].
Qed.

Lemma field_name_app name value :
  COLON ∉ name -> field_name (name ++ COLON :: value) = name.
Proof.
  induction name as [|c name IH]; intros Hc; cbn.
  - done.
  - apply not_elem_of_cons in Hc as [Hne Hc].
    apply not_eq_sym, N.eqb_neq in Hne. rewrite Hne. by rewrite IH.
Qed.

Lemma after_colon_app name value :
  COLON ∉ name -> after_colon (name ++ COLON :: value) = value.
Proof.
  induction name as [|c name IH]; intros Hc; cbn.
  - done.
  - apply not_elem_of_cons in Hc as [Hne Hc].
    apply not_eq_sym, N.eqb_neq in Hne. rewrite Hne. by rewrite IH.
Qed.

Lemma field_name_plain name : COLON ∉ name -> field_name name = name.
Proof.
  induction name as [|c name IH]; intros Hc; cbn; [done|].
  apply not_elem_of_cons in Hc as [Hne Hc].
  apply not_eq_sym, N.eqb_neq in Hne. rewrite Hne. by rewrite IH.
Qed.

Lemma after_colon_plain name : COLON ∉ name -> after_colon name = [].
Proof.
  induction name as [|c name IH]; intros Hc; cbn; [done|].
  apply not_elem_of_cons in Hc as [Hne Hc].
  apply not_eq_sym, N.eqb_neq in Hne. rewrite Hne. by rewrite IH.
Qed.

Lemma head_not_colon name rest :
  name <> [] -> COLON ∉ name -> head (name ++ rest) <> Some COLON.
Proof.
  destruct name as [|c name]; [done|]. intros _ Hc.
  apply not_elem_of_cons in Hc as [Hne _]. cbn. congruence.
Qed.

End LineFacts.

(** X18.  The three line terminators are interchangeable.  A record
    whose lines hold no carriage return and no line feed, written with
    one terminator between its lines (a line feed, a carriage return
    and a line feed, or a carriage return), is cut into these very
    lines, and the parser gives the same event whichever of the three
    was used. *)
Theorem line_terminators_are_interchangeable
    (t1 t2 : jsstring) (lines : list jsstring) :
  In t1 Parser.line_separator ->
  In t2 Parser.line_separator ->
  Forall line_free lines ->
  lines <> [] ->
  split Parser.line_separator false (join_lines t1 lines) = lines
  /\ Parser._parseEventChunk (join_lines t1 lines)
     = Parser._parseEventChunk (join_lines t2 lines).
Proof.
  intros H1 H2 Hall Hne. split; [by apply split_join_lines|].
  unfold Parser._parseEventChunk.
  pose proof (split_join_lines t1 lines H1 Hall Hne) as Hs1.
  pose proof (split_join_lines t2 lines H2 Hall Hne) as Hs2.
  pose proof (join_lines_nil t1 lines H1 Hne) as Hn1.
  pose proof (join_lines_nil t2 lines H2 Hne) as Hn2.
  destruct (join_lines t1 lines) as [|c1 r1], (join_lines t2 lines) as [|c2 r2].
  - done.
  - destruct Hn1 as [Hn1 _]. specialize (Hn1 eq_refl).
    destruct Hn2 as [_ Hn2]. by specialize (Hn2 Hn1).
  - destruct Hn2 as [Hn2 _]. specialize (Hn2 eq_refl).
    destruct Hn1 as [_ Hn1]. by specialize (Hn1 Hn2).
  - by rewrite Hs1, Hs2.
Qed.

(** A record of three lines, the second one empty, written with a
    carriage return and with a line feed. *)
Lemma line_terminators_are_interchangeable_witness :
  let lines := [str "event: update"; []; str "data: b"] in
  split Parser.line_separator false (join_lines [CR] lines) = lines
  /\ Parser._parseEventChunk (join_lines [CR] lines)
     = Parser._parseEventChunk (join_lines [LF] lines).
Proof.
  apply (line_terminators_are_interchangeable [CR] [LF]
           [str "event: update"; []; str "data: b"]).
  - cbn. tauto.
  - cbn. tauto.
  - repeat constructor; discriminate.
  - discriminate.
Defined.

(** X19.  How a line is read.  A line that begins with a colon is a
    comment.  A line without a colon is a field name with the empty
    value.  Otherwise the field name is what comes before the first
    colon, and the value what comes after it, less one space when the
    value begins with one: a second space belongs to the value. *)
Theorem line_is_read_as_field (name value : jsstring) :
  name <> [] ->
  COLON ∉ name ->
  Parser.field_value (COLON :: value) = None
  /\ Parser.field_value name = Some (name, [])
  /\ Parser.field_value (name ++ COLON :: value)
     = Some (name, FieldSpec.strip_space value)
  /\ Parser.field_value (name ++ COLON :: SPACE :: value) = Some (name, value).
Proof.
  intros Hne Hc. split; [done|]. split.
  - rewrite field_value_spec. unfold FieldSpec.field_of, FieldSpec.field_text.
    case_decide as Hh.
    + destruct name as [|c name]; [done|]. cbn in Hh. injection Hh as ->.
      exfalso. apply Hc. by left.
    + by rewrite field_name_plain, after_colon_plain.
  - assert (Hgen : forall v, Parser.field_value (name ++ COLON :: v)
                             = Some (name, FieldSpec.strip_space v)).
    { intros v. rewrite field_value_spec.
      unfold FieldSpec.field_of, FieldSpec.field_text.
      case_decide as Hh; [by apply head_not_colon in Hh|].
      by rewrite field_name_app, after_colon_app. }
    split; [apply Hgen|]. by rewrite Hgen.
Qed.

(** The field [data] and a value with two spaces before it. *)
Lemma line_is_read_as_field_witness :
  Parser.field_value (COLON :: SPACE :: str "x") = None
  /\ Parser.field_value (str "data") = Some (str "data", [])
  /\ Parser.field_value (str "data" ++ COLON :: SPACE :: str "x")
     = Some (str "data", FieldSpec.strip_space (SPACE :: str "x"))
  /\ Parser.field_value (str "data" ++ COLON :: SPACE :: SPACE :: str "x")
     = Some (str "data", SPACE :: str "x").
Proof.
  apply (line_is_read_as_field (str "data") (SPACE :: str "x")).
  - discriminate.
  - apply (bool_decide_unpack _). vm_compute. exact I.
Defined.

(** X20.  A line that is ignored (a comment, or a line whose field name
    is not one of [id], [event], [data], [retry]) can be taken out of a
    record, wherever it stands, without any change to the fields the
    parser reads. *)
Theorem ignored_line_can_be_dropped
    (before after : list jsstring) (line : jsstring) :
  FieldSpec.ignored line ->
  Parser.parse_lines (before ++ line :: after)
  = Parser.parse_lines (before ++ after).
Proof.
  intros Hign. unfold Parser.parse_lines.
  rewrite !fold_left_app. cbn [fold_left]. by rewrite parse_line_ignored.
Qed.

(** A comment between an [event] line and a [data] line. *)
Lemma ignored_line_can_be_dropped_witness :
  Parser.parse_lines ([str "event: update"] ++ str ": ping" :: [str "data: b"])
  = Parser.parse_lines ([str "event: update"] ++ [str "data: b"]).
Proof.
  apply (ignored_line_can_be_dropped [str "event: update"] [str "data: b"]
           (str ": ping")).
  left. reflexivity.
Defined.

(** ** The assembler, further *)

Section SplitFacts.

Lemma last_cons2 {A} (a : A) (l : list A) d :
  l <> [] -> List.last (a :: l) d = List.last l d.
Proof. by destruct l. Qed.

(** The split of a text reads it as records with their separators and
    a trailing segment. *)
Lemma split_reading text :
  exists records,
    split record_separator true text
    = flat_map (fun rs => [fst rs; snd rs]) records ++ [pending_tail text]
    /\ Forall (fun rs => In (snd rs) record_separator) records
    /\ stream_text records (pending_tail text) = text.
Proof.
  remember (length text) as n eqn:Hn. revert text Hn.
  induction (lt_wf n) as [n _ IH]. intros text ->.
  destruct text as [|c s].
  { exists []. repeat split; constructor. }
  unfold pending_tail. rewrite split_cons.
  destruct (regex_match record_separator (c :: s)) as [d|] eqn:Hm.
  - pose proof (record_match_nonempty _ _ Hm) as Hd.
    apply regex_match_Some in Hm as [Hin [r Hr]].
    destruct d as [|x d]; [done|].
    assert (Hlen : (length r < length (c :: s))%nat).
    { rewrite Hr, length_app. simpl. lia. }
    destruct (IH _ Hlen r eq_refl) as (records & Hs & Hall & Htext).
    rewrite Hr, drop_app_length. cbn [app].
    pose proof (split_nonempty record_separator true r) as Hne.
    rewrite !last_cons2 by (done || by destruct (split record_separator true r)).
    exists (([], x :: d) :: records). fold (pending_tail r).
    split; [|split].
    + cbn [flat_map fst snd app]. by rewrite Hs at 1.
    + by constructor.
    + cbn [stream_text]. rewrite Htext. done.
  - destruct (IH (length s) ltac:(simpl; lia) s eq_refl)
      as (records & Hs & Hall & Htext).
    rewrite Hs. destruct records as [|[seg sep] records].
    + cbn [flat_map app push_front List.last]. exists [].
      split; [done|]. split; [done|]. cbn [stream_text] in *. by rewrite Htext.
    + cbn [flat_map fst snd app push_front].
      exists ((c :: seg, sep) :: records).
      assert (Hlast : forall a b (l : list jsstring),
                List.last (a :: b :: l ++ [pending_tail s]) []
                = pending_tail s).
      { intros a b l. rewrite !last_cons2; [apply last_last|..];
          by destruct l. }
      rewrite Hlast. split; [done|]. split.
      * inversion Hall; subst. by constructor.
      * cbn [stream_text fst snd app] in *. by rewrite Htext.
Qed.

End SplitFacts.

(** X21.  The split of [_onStreamProgress] loses nothing and reads the
    text as it is written: its segments but the last are records, each
    followed by the separator that closed it, and the records with
    their separators and the last segment, put together again, are the
    text. *)
Theorem split_reads_the_text (text : jsstring) :
  exists records,
    complete_parts text = flat_map (fun rs => [fst rs; snd rs]) records
    /\ Forall (fun rs => In (snd rs) record_separator) records
    /\ stream_text records (pending_tail text) = text
    /\ concat (complete_parts text) ++ pending_tail text = text.
Proof.
  destruct (split_reading text) as (records & Hs & Hall & Htext).
  exists records. split; [|split; [done|split; [done|]]].
  - unfold complete_parts. by rewrite Hs, removelast_last.
  - pose proof (concat_split record_separator text) as Hc.
    rewrite split_parts_tail, concat_app in Hc. cbn in Hc.
    by rewrite app_nil_r in Hc.
Qed.

(** X22.  How the transport cuts the text does not matter.  Two
    deliveries of the same text through progress notifications, each of
    growing prefixes that end with the text, make the instance dispatch
    the same events in the same order, and leave the same state, the
    same count of code units read and the same pending text.  (No
    record has an event type that [this.listeners] inherits.) *)
Theorem delivery_does_not_matter {World : Type}
    (behave : nat -> SSEvent -> World -> World * bool)
    (s : Sys) (text0 text : jsstring) (texts1 texts2 : list jsstring) :
  xhr (obj s) = true ->
  progress (obj s) = length text0 ->
  chunk (obj s) = pending_tail text0 ->
  texts1 <> [] -> grows text0 texts1 -> List.last texts1 text0 = text ->
  texts2 <> [] -> grows text0 texts2 -> List.last texts2 text0 = text ->
  all_dispatchable (obj s) (complete_parts text) ->
  let s1 := run behave s (progress_events texts1) in
  let s2 := run behave s (progress_events texts2) in
  exists es1 es2,
    log s1 = log s ++ es1
    /\ log s2 = log s ++ es2
    /\ dispatched es1 = dispatched es2
    /\ state_of (obj s1) = state_of (obj s2)
    /\ progress (obj s1) = progress (obj s2)
    /\ chunk (obj s1) = chunk (obj s2).
Proof.
  intros Hx Hp Hc Hne1 Hg1 Hl1 Hne2 Hg2 Hl2 Hall s1 s2.
  destruct (streaming_from behave texts1 s text0 Hx Hp Hc Hg1)
    as (es1 & parts1 & Hlog1 & Hparts1 & Hd1 & Hx1 & Hp1 & Hc1 & _ & Hrs1).
  { by rewrite Hl1. }
  destruct (streaming_from behave texts2 s text0 Hx Hp Hc Hg2)
    as (es2 & parts2 & Hlog2 & Hparts2 & Hd2 & Hx2 & Hp2 & Hc2 & _ & Hrs2).
  { by rewrite Hl2. }
  rewrite Hl1 in *. rewrite Hl2 in *.
  assert (parts1 = parts2) as ->.
  { rewrite Hparts1 in Hparts2. by apply app_inv_head in Hparts2. }
  exists es1, es2. fold s1 in Hlog1, Hx1, Hp1, Hc1, Hrs1.
  fold s2 in Hlog2, Hx2, Hp2, Hc2, Hrs2.
  split; [done|]. split; [done|].
  destruct texts1 as [|t1 texts1]; [done|].
  destruct texts2 as [|t2 texts2]; [done|].
  split; [by rewrite Hd1, Hd2|]. split; [|split; congruence].
  unfold state_of. congruence.
Qed.

(** The stream [two_records] with [partial_record], delivered to
    [new SSE("/events")] whole and one code unit at a time. *)
Lemma delivery_does_not_matter_witness :
  let text := stream_text two_records partial_record in
  let s1 := run quiet connecting (progress_events [text]) in
  let s2 := run quiet connecting (progress_events (prefixes text)) in
  exists es1 es2,
    log s1 = log connecting ++ es1
    /\ log s2 = log connecting ++ es2
    /\ dispatched es1 = dispatched es2
    /\ state_of (obj s1) = state_of (obj s2)
    /\ progress (obj s1) = progress (obj s2)
    /\ chunk (obj s1) = chunk (obj s2).
Proof.
  pose proof (grows_prefixes (stream_text two_records partial_record))
    as [Hgrows Hlast].
  destruct Hlast as [Hne Hlast]; [discriminate|].
  apply (delivery_does_not_matter quiet connecting []
           (stream_text two_records partial_record)
           [stream_text two_records partial_record]
           (prefixes (stream_text two_records partial_record)));
    try reflexivity; try done.
  - split; [apply prefix_nil|done].
  - repeat constructor; intros ev Hev; vm_compute in Hev;
      try discriminate Hev; injection Hev as <-;
      by apply dispatchable_not_inherited.
Defined.

(** ** The order of registration *)

(** X23.  The order of the calls is the order of registration.  After
    [addEventListener], an event of the type that cannot be cancelled
    reaches the primary handler, then the listeners that were
    registered before, in their order, and then the new listener; a
    listener that was registered already keeps its place and is called
    once.  (The type is not a name that [this.listeners] inherits.) *)
Theorem registered_listener_is_called_last {World : Type}
    (behave : nat -> SSEvent -> World -> World * bool)
    (type : jsstring) (listener : Callback) (ev : SSEvent) (s : Sys) :
  ev_type ev = type ->
  ev_cancelable ev = false ->
  ev_defaultPrevented ev = false ->
  dispatchable (obj s) type ->
  let s1 := snd (addEventListener type listener s) in
  let old := default [] (listeners (obj s) !! type) in
  exists w,
    dispatchEvent behave (Some ev) s1
    = (Normal true,
       mkSys (obj s1) w
         (log s ++ Dispatched (readyState (obj s)) (set_source ev)
                :: map (fun cb => Invoked cb (set_source ev))
                       (handler_of (obj s) type
                        ++ (if bool_decide (listener ∈ old) then old
                            else old ++ [listener])))).
Proof.
  intros <- Hc Hp Hd s1 old.
  assert (Hs1 : dispatchable (obj s1) (ev_type ev)
                /\ log s1 = log s /\ readyState (obj s1) = readyState (obj s)
                /\ handler_of (obj s1) (ev_type ev) = handler_of (obj s) (ev_type ev)
                /\ default [] (listeners (obj s1) !! ev_type ev)
                   = if bool_decide (listener ∈ old) then old else old ++ [listener]).
  { subst s1 old. unfold dispatchable in *. rewrite addEventListener_spec.
    unfold get_property in *.
    destruct (listeners (obj s) !! ev_type ev) as [l|] eqn:Hl.
    - cbn [default from_option id]. case_bool_decide; cbn [snd].
      + by rewrite Hl.
      + cbn [obj log listeners set_listeners]. by rewrite lookup_insert_eq.
    - destruct (inherited (ev_type ev)); [done|].
      cbn [snd obj log listeners set_listeners default from_option].
      rewrite lookup_insert_eq.
      by rewrite bool_decide_eq_false_2 by apply not_elem_of_nil. }
  destruct Hs1 as (Hd1 & Hlog & Hrs & Hh & Hls).
  destruct (dispatchEvent_not_cancelable behave ev s1 Hc Hp Hd1) as (w & ->).
  exists w. by rewrite Hlog, Hrs, Hh, Hls.
Qed.

(** [Fn 3] is registered after the two listeners of ["message"]. *)
Lemma registered_listener_is_called_last_witness :
  let ev := CustomEvent (str "message") in
  let s1 := snd (addEventListener (str "message") (Fn 3) two_listeners) in
  exists w,
    dispatchEvent cancel_first (Some ev) s1
    = (Normal true,
       mkSys (obj s1) w
         (log two_listeners
          ++ Dispatched (readyState (obj two_listeners)) (set_source ev)
          :: map (fun cb => Invoked cb (set_source ev))
                 [noop; Fn 1; Fn 2; Fn 3])).
Proof.
  apply (registered_listener_is_called_last cancel_first (str "message") (Fn 3)
           (CustomEvent (str "message")) two_listeners); try reflexivity.
  by apply dispatchable_not_inherited.
Defined.
